(** * Border maintenance of the districting graph (src/common/graph.py)

    A shallow embedding of the classes [Vertex] and [Graph] and of the
    methods [graph_from_json], [get_border_vertices],
    [change_vertex_district] and [update_border], followed by the
    invariants the incremental border maintenance keeps.

    Modelling conventions.
    - Precinct ids and district ids are Python integers: [Z].
    - A Python [set] of integers is a [gset Z]; a Python [dict] is a
      [gmap].  A [for] loop over a set or over a dict runs over stdpp's
      enumeration ([elements], [map_to_list]); the loop lemmas below are
      stated for arbitrary lists, so the results do not depend on the
      order of enumeration.
    - [self.state] is a two-dimensional torch tensor.  A row is the pair
      of its column 0 and of its remaining columns; entries are kept as
      exact integers (the float32 tensor is exact on integers of absolute
      value up to 2^24).  A row index follows Python: a negative index
      counts from the end, anything else out of range raises IndexError.
    - Methods are computations in a state-and-exception monad over the
      record [Graph]: an exception leaves the state as it is at the
      raise, as in Python. *)

From stdpp Require Import base gmap sets list strings.
From Stdlib Require Import ZArith Lia.

Open Scope Z_scope.

(** ** Exceptions and the method monad *)

Inductive exn : Type :=
  | KeyError
  | ValueError (msg : string)
  | IndexError
  | TypeError
  | RuntimeError.

Inductive result (A : Type) : Type :=
  | Ok (a : A)
  | Raise (e : exn).
Arguments Ok {A} a.
Arguments Raise {A} e.

(** class Vertex *)
Record Vertex : Type := mkVertex {
  prescinct_id : Z;
  district_id : Z;
  adj_vertices : gset Z
}.

#[global] Instance Vertex_eq_dec : EqDecision Vertex.
Proof. solve_decision. Defined.

(** Vertex.__init__ *)
Definition Vertex_init (prescinct_id district_id : Z) : Vertex :=
  mkVertex prescinct_id district_id ∅.

(** Vertex.set_adj *)
Definition set_adj (adj_list : list Z) (v : Vertex) : Vertex :=
  fold_left
    (λ v x, mkVertex (prescinct_id v) (district_id v) ({[x]} ∪ adj_vertices v))
    adj_list v.

(** the assignment [vertex.district_id = d] *)
Definition set_district_id (d : Z) (v : Vertex) : Vertex :=
  mkVertex (prescinct_id v) d (adj_vertices v).

(** A row of the state tensor: column 0, then columns 1.. *)
Abbreviation Tensor := (list (Z * list Z)).

(** class Graph: the attributes set by __init__ *)
Record Graph : Type := mkGraph {
  vertex_on_border : gmap (Z * Z) (list Z);
  district_id_on_border_of_vertex : gmap Z (gset Z);
  vertices : gmap Z Vertex;
  device : string;
  max_district_id : Z;
  state : option Tensor
}.

(** Graph.__init__ *)
Definition Graph_init (device : string) : Graph :=
  mkGraph ∅ ∅ ∅ device 0 None.

Definition M (A : Type) : Type := Graph → Graph * result A.

Definition ret {A} (a : A) : M A := λ g, (g, Ok a).

Definition bind {A B} (m : M A) (k : A → M B) : M B :=
  λ g, match m g with
       | (g', Ok a) => k a g'
       | (g', Raise e) => (g', Raise e)
       end.

Definition raise {A} (e : exn) : M A := λ g, (g, Raise e).

Definition get_self : M Graph := λ g, (g, Ok g).

#[global] Instance M_ret : MRet M := @ret.
#[global] Instance M_bind : MBind M := λ A B k m, bind m k.

(** ** Attribute updates *)

Definition with_vertex_on_border (f : gmap (Z * Z) (list Z) → gmap (Z * Z) (list Z))
    (g : Graph) : Graph :=
  mkGraph (f (vertex_on_border g)) (district_id_on_border_of_vertex g)
          (vertices g) (device g) (max_district_id g) (state g).

Definition with_district_id_on_border_of_vertex
    (f : gmap Z (gset Z) → gmap Z (gset Z)) (g : Graph) : Graph :=
  mkGraph (vertex_on_border g) (f (district_id_on_border_of_vertex g))
          (vertices g) (device g) (max_district_id g) (state g).

Definition with_vertices (f : gmap Z Vertex → gmap Z Vertex) (g : Graph) : Graph :=
  mkGraph (vertex_on_border g) (district_id_on_border_of_vertex g)
          (f (vertices g)) (device g) (max_district_id g) (state g).

Definition with_state (s : option Tensor) (g : Graph) : Graph :=
  mkGraph (vertex_on_border g) (district_id_on_border_of_vertex g)
          (vertices g) (device g) (max_district_id g) s.

Definition modify_self (f : Graph → Graph) : M unit := λ g, (f g, Ok tt).

(** a [for] loop whose body can raise *)
Fixpoint for_each {A} (l : list A) (body : A → M unit) : M unit :=
  match l with
  | [] => mret tt
  | x :: l' => body x;; for_each l' body
  end.

(** a list comprehension whose element expression can raise *)
Fixpoint comprehension {A B} (l : list A) (f : A → M B) : M (list B) :=
  match l with
  | [] => mret []
  | x :: l' => y ← f x; ys ← comprehension l' f; mret (y :: ys)
  end.

(** ** Tensor indexing *)

(** Python's index into a dimension of size [n] *)
Definition py_index (n : nat) (i : Z) : option nat :=
  if decide (0 ≤ i < Z.of_nat n) then Some (Z.to_nat i)
  else if decide (- Z.of_nat n ≤ i < 0) then Some (Z.to_nat (Z.of_nat n + i))
  else None.

(** [self.state[i, 0] = x] *)
Definition state_setitem_col0 (i x : Z) : M unit :=
  λ g, match state g with
       | None => (g, Raise TypeError)
       | Some st =>
           match py_index (length st) i with
           | None => (g, Raise IndexError)
           | Some k => (with_state (Some (alter (λ r, (x, r.2)) k st)) g, Ok tt)
           end
       end.

(** [self.state[i, 1:] = t] for a one-dimensional tensor [t] *)
Definition state_setitem_cols (i : Z) (t : list Z) : M unit :=
  λ g, match state g with
       | None => (g, Raise TypeError)
       | Some st =>
           match py_index (length st) i with
           | None => (g, Raise IndexError)
           | Some k =>
               match st !! k with
               | Some r =>
                   if decide (length r.2 = length t)
                   then (with_state (Some (<[k := (r.1, t)]> st)) g, Ok tt)
                   else (g, Raise RuntimeError)
               | None => (g, Raise IndexError)
               end
           end
       end.

(** [torch.zeros((n, m + 1))] *)
Definition zeros (n m : nat) : Tensor := replicate n (0, replicate m 0).

(** ** Dictionary and set accesses that can raise *)

(** [self.vertices[k]] *)
Definition vertices_getitem (k : Z) : M Vertex :=
  λ g, match vertices g !! k with
       | Some v => (g, Ok v)
       | None => (g, Raise KeyError)
       end.

(** [self.vertices[k].district_id = d] *)
Definition vertices_set_district (k d : Z) : M unit :=
  v ← vertices_getitem k;
  modify_self (with_vertices <[k := set_district_id d v]>).

(** [self.vertex_on_border.pop(key)] *)
Definition vertex_on_border_pop (key : Z * Z) : M unit :=
  λ g, match vertex_on_border g !! key with
       | Some _ => (with_vertex_on_border (delete key) g, Ok tt)
       | None => (g, Raise KeyError)
       end.

(** [self.district_id_on_border_of_vertex[k].remove(d)] *)
Definition district_id_on_border_of_vertex_remove (k d : Z) : M unit :=
  λ g, match district_id_on_border_of_vertex g !! k with
       | Some s =>
           if decide (d ∈ s)
           then (with_district_id_on_border_of_vertex <[k := s ∖ {[d]}]> g, Ok tt)
           else (g, Raise KeyError)
       | None => (g, Raise KeyError)
       end.

(** [self.district_id_on_border_of_vertex[k].add(d)] *)
Definition district_id_on_border_of_vertex_add (k d : Z) : M unit :=
  λ g, match district_id_on_border_of_vertex g !! k with
       | Some s => (with_district_id_on_border_of_vertex <[k := {[d]} ∪ s]> g, Ok tt)
       | None => (g, Raise KeyError)
       end.

(** ** The methods of Graph *)

(** Graph.update_border *)
Definition update_border (vertex adj_vertex : Vertex) : M unit :=
  let vertex_prescinct_id := prescinct_id vertex in
  modify_self (with_vertex_on_border
                 <[(vertex_prescinct_id, district_id adj_vertex) :=
                     [vertex_prescinct_id; district_id vertex; district_id adj_vertex]]>);;
  state_setitem_col0 vertex_prescinct_id (- district_id vertex);;
  self ← get_self;
  match district_id_on_border_of_vertex self !! vertex_prescinct_id with
  | None => modify_self (with_district_id_on_border_of_vertex <[vertex_prescinct_id := ∅]>)
  | Some _ => mret tt
  end;;
  district_id_on_border_of_vertex_add vertex_prescinct_id (district_id adj_vertex).

(** the loop over [vertex.adj_vertices] that get_border_vertices (lines
    59-62) and change_vertex_district (lines 97-100) both run *)
Definition scan_adjacent (vertex : Vertex) : M unit :=
  for_each (elements (adj_vertices vertex)) (λ adj_vertex_id,
    adj_vertex ← vertices_getitem adj_vertex_id;
    if decide (district_id vertex ≠ district_id adj_vertex)
    then update_border vertex adj_vertex
    else mret tt).

(** Graph.get_border_vertices *)
Definition get_border_vertices : M unit :=
  self ← get_self;
  for_each (map_to_list (vertices self)).*2 scan_adjacent.

(** lines 88-93 of change_vertex_district *)
Definition clear_border (vertex : Vertex) : M unit :=
  self ← get_self;
  match district_id_on_border_of_vertex self !! prescinct_id vertex with
  | Some s =>
      for_each (elements s) (λ adj_vertex_id,
        vertex_on_border_pop (prescinct_id vertex, adj_vertex_id);;
        district_id_on_border_of_vertex_remove (prescinct_id vertex) adj_vertex_id;;
        state_setitem_col0 (prescinct_id vertex) (district_id vertex))
  | None => mret tt
  end.

(** Graph.change_vertex_district *)
Definition change_vertex_district (prescinct_id new_district_id : Z) : M unit :=
  vertex ← vertices_getitem prescinct_id;
  let old_district_id := district_id vertex in
  if decide (new_district_id = old_district_id)
  then raise (ValueError "The vertex is already in the district you want to change to")
  else
    self ← get_self;
    if decide ((prescinct_id, new_district_id) ∉ dom (vertex_on_border self))
    then raise (ValueError
                  "The vertex is not on the border with the district you want to change to")
    else
      vertices_set_district prescinct_id new_district_id;;
      state_setitem_col0 prescinct_id new_district_id;;
      moved ← vertices_getitem prescinct_id;
      adjacent ← comprehension (elements (adj_vertices moved)) vertices_getitem;
      moved' ← vertices_getitem prescinct_id;
      let list_to_check_possible_actions := adjacent ++ [moved'] in
      for_each list_to_check_possible_actions (λ vertex,
        clear_border vertex;;
        scan_adjacent vertex).

(** One row of the data frame returned by [load_raw_data]: its index, its
    column 'cd_2020' and its column 'adj'. *)
Abbreviation Row := (Z * Z * list Z)%type.

(** lines 27-37 of graph_from_json: the loop over [df.iterrows()], with
    its local [max_adjacent_vertices] *)
Definition load_rows (df : list Row) (max_adjacent_vertices : nat)
    (vs : gmap Z Vertex) : nat * gmap Z Vertex :=
  fold_left
    (λ (acc : nat * gmap Z Vertex) (row : Row),
       let '(index, cd_2020, adj) := row in
       let vertex := set_adj adj (Vertex_init index cd_2020) in
       let mx := if decide (acc.1 < length adj)%nat then length adj else acc.1 in
       (mx, <[index := vertex]> acc.2))
    df (max_adjacent_vertices, vs).

(** lines 44-50 of graph_from_json: one turn of the loop over
    [self.vertices.items()] *)
Definition fill_row (max_adjacent_vertices : nat) (item : Z * Vertex) : M unit :=
  let vertex_id := item.1 in
  let vertex := item.2 in
  state_setitem_col0 vertex_id (district_id vertex);;
  let adj := elements (adj_vertices vertex) in
  let len_adj := length adj in
  if decide (len_adj ≤ max_adjacent_vertices)%nat
  then state_setitem_cols vertex_id
         (adj ++ replicate (max_adjacent_vertices - len_adj) 0)
  else raise RuntimeError.

(** Graph.graph_from_json, from the rows of the loaded data frame *)
Definition graph_from_json (df : list Row) : M unit :=
  self ← get_self;
  let loaded := load_rows df 0%nat (vertices self) in
  let max_adjacent_vertices := loaded.1 in
  modify_self (with_vertices (λ _, loaded.2));;
  self ← get_self;
  modify_self (with_state (Some (zeros (size (vertices self)) max_adjacent_vertices)));;
  self ← get_self;
  for_each (map_to_list (vertices self)) (fill_row max_adjacent_vertices).

(** ** Reading the model *)

(** [self.state[k, 0]] for a row number [k] *)
Definition row_col0 (g : Graph) (k : nat) : option Z :=
  st ← state g; fst <$> st !! k.

(** [self.state[i, 0]] for a Python index [i] *)
Definition state_col0 (g : Graph) (i : Z) : option Z :=
  st ← state g; k ← py_index (length st) i; fst <$> st !! k.

(** the districts of the vertices whose ids are listed in [l] *)
Definition adj_district_ids (V : gmap Z Vertex) (l : list Z) : list Z :=
  omap (λ n, district_id <$> V !! n) l.

(** the districts, other than the vertex's own, found among the listed
    neighbours *)
Definition border_districts_of (V : gmap Z Vertex) (vx : Vertex) (l : list Z) : gset Z :=
  list_to_set (filter (λ d, d ≠ district_id vx) (adj_district_ids V l)).

(** the districts a vertex borders *)
Definition border_districts (V : gmap Z Vertex) (vx : Vertex) : gset Z :=
  border_districts_of V vx (elements (adj_vertices vx)).

(** a vertex is a border vertex when a neighbour is in another district *)
Definition on_border (V : gmap Z Vertex) (vx : Vertex) : bool :=
  bool_decide (border_districts V vx ≠ ∅).

(** update_border, computed: it needs the state tensor and a valid row *)
Definition update_border_result (vertex adj_vertex : Vertex) (k : nat) (st : Tensor)
    (g : Graph) : Graph :=
  let w := prescinct_id vertex in
  let d := district_id adj_vertex in
  mkGraph (<[(w, d) := [w; district_id vertex; d]]> (vertex_on_border g))
          (<[w := {[d]} ∪ default ∅ (district_id_on_border_of_vertex g !! w)]>
             (district_id_on_border_of_vertex g))
          (vertices g) (device g) (max_district_id g)
          (Some (alter (λ r, (- district_id vertex, r.2)) k st)).

(** ** Frames and the border entries of one vertex *)

(** [frame P g h]: [h] differs from [g] at most in the border entries
    and in column 0 of the rows of the vertices selected by [P]. *)
Definition frame (P : Z → Prop) (g h : Graph) : Prop :=
  vertices h = vertices g ∧ device h = device g ∧
  max_district_id h = max_district_id g ∧
  (∀ u d, ¬ P u → vertex_on_border h !! (u, d) = vertex_on_border g !! (u, d)) ∧
  (∀ u, ¬ P u →
     district_id_on_border_of_vertex h !! u = district_id_on_border_of_vertex g !! u) ∧
  ∃ st st', state g = Some st ∧ state h = Some st' ∧ length st' = length st ∧
    (∀ j, snd <$> st' !! j = snd <$> st !! j) ∧
    ∀ u, 0 ≤ u → ¬ P u → st' !! Z.to_nat u = st !! Z.to_nat u.

(** the two dictionaries agree on the districts recorded for [w] *)
Definition lockstep (g : Graph) (w : Z) : Prop :=
  ∀ d, is_Some (vertex_on_border g !! (w, d))
       ↔ d ∈ default ∅ (district_id_on_border_of_vertex g !! w).

(** a vertex without recorded districts has its district, unnegated, in
    column 0 of its row *)
Definition row_plain (g : Graph) (vx : Vertex) : Prop :=
  default ∅ (district_id_on_border_of_vertex g !! prescinct_id vx) = ∅ →
  row_col0 g (Z.to_nat (prescinct_id vx)) = Some (district_id vx).

(** nothing is recorded for the vertex *)
Definition blank_entry (g : Graph) (vx : Vertex) : Prop :=
  (∀ d, vertex_on_border g !! (prescinct_id vx, d) = None) ∧
  default ∅ (district_id_on_border_of_vertex g !! prescinct_id vx) = ∅ ∧
  row_col0 g (Z.to_nat (prescinct_id vx)) = Some (district_id vx).

(** what is recorded for the vertex is what its neighbours in [V] call for *)
Definition fresh_entry (V : gmap Z Vertex) (vx : Vertex) (g : Graph) : Prop :=
  (∀ d, vertex_on_border g !! (prescinct_id vx, d)
        = if decide (d ∈ border_districts V vx)
          then Some [prescinct_id vx; district_id vx; d] else None) ∧
  default ∅ (district_id_on_border_of_vertex g !! prescinct_id vx)
  = border_districts V vx ∧
  row_col0 g (Z.to_nat (prescinct_id vx))
  = Some (if decide (border_districts V vx = ∅)
          then district_id vx else - district_id vx).

(** keys of district_id_on_border_of_vertex are never deleted *)
Definition keys_kept (g h : Graph) : Prop :=
  ∀ u, is_Some (district_id_on_border_of_vertex g !! u) →
       is_Some (district_id_on_border_of_vertex h !! u).

(** ** Well-formed graphs and the border invariant *)

(** What the methods need of a vertex to run: it is stored under its own
    id, its id is a row of the state tensor, and its neighbours are
    vertices of the graph. *)
Definition wf_vertex (V : gmap Z Vertex) (rows : nat) (k : Z) (vx : Vertex) : Prop :=
  prescinct_id vx = k ∧ 0 ≤ k < Z.of_nat rows ∧
  ∀ n, n ∈ adj_vertices vx → is_Some (V !! n).

(** What the data model assumes of adjacency and the code does not
    enforce: if u lists v, then v lists u. *)
Definition symmetric (V : gmap Z Vertex) : Prop :=
  ∀ k vx n nx, V !! k = Some vx → n ∈ adj_vertices vx → V !! n = Some nx →
               k ∈ adj_vertices nx.

Definition wf_graph (g : Graph) : Prop :=
  ∃ st, state g = Some st ∧
    ∀ k vx, vertices g !! k = Some vx → wf_vertex (vertices g) (length st) k vx.

(** The border structures record, for every vertex, exactly the districts
    of its differing neighbours, and nothing for ids that are no vertex. *)
Definition border_inv (g : Graph) : Prop :=
  (∀ k vx, vertices g !! k = Some vx → fresh_entry (vertices g) vx g) ∧
  (∀ k, vertices g !! k = None →
     (∀ d, vertex_on_border g !! (k, d) = None) ∧
     district_id_on_border_of_vertex g !! k = None).

(** The part of the invariant that does not depend on the neighbours:
    for every vertex the two dictionaries record the same districts, the
    tensors stored for it carry its current district, and column 0 of its
    row is unnegated when nothing is recorded; nothing is recorded for
    ids that are no vertex. *)
Definition entries_current (g : Graph) : Prop :=
  (∀ k vx, vertices g !! k = Some vx →
     lockstep g k ∧ row_plain g vx ∧
     ∀ d t, vertex_on_border g !! (k, d) = Some t → t = [k; district_id vx; d]) ∧
  (∀ k, vertices g !! k = None →
     (∀ d, vertex_on_border g !! (k, d) = None) ∧
     district_id_on_border_of_vertex g !! k = None).

(** A graph as graph_from_json leaves it: nothing recorded, column 0 of
    each vertex's row holding its district. *)
Definition unmarked (g : Graph) : Prop :=
  vertex_on_border g = ∅ ∧ district_id_on_border_of_vertex g = ∅ ∧
  ∀ k vx, vertices g !! k = Some vx →
    row_col0 g (Z.to_nat k) = Some (district_id vx).

(** the check of [wf_vertex] on every vertex, as a boolean *)
Definition wf_vertices_b (V : gmap Z Vertex) (rows : nat) : bool :=
  forallb
    (λ kv : Z * Vertex,
       bool_decide (prescinct_id kv.2 = kv.1) &&
       bool_decide (0 ≤ kv.1 < Z.of_nat rows) &&
       forallb (λ n, bool_decide (is_Some (V !! n)))
               (elements (adj_vertices kv.2)))
    (map_to_list V).

(** [symmetric], as a boolean *)
Definition symmetric_b (V : gmap Z Vertex) : bool :=
  forallb
    (λ kv : Z * Vertex,
       forallb (λ n, match V !! n with
                     | Some nx => bool_decide (kv.1 ∈ adj_vertices nx)
                     | None => true
                     end)
               (elements (adj_vertices kv.2)))
    (map_to_list V).

(** the vertices graph_from_json builds from a data frame, starting from
    an empty graph *)
Definition vertices_of (df : list Row) : gmap Z Vertex := (load_rows df 0%nat ∅).2.

(** no row of the data frame has a negative index (a negative id would
    address a row of the state tensor from its end) *)
Definition nonneg_ids (df : list Row) : bool :=
  forallb (λ r : Row, bool_decide (0 ≤ r.1.1)) df.

(** What is assumed of a data frame: ids are not negative and adjacency
    is symmetric. *)
Definition wf_df (df : list Row) : bool :=
  nonneg_ids df && symmetric_b (vertices_of df).

(** ** Reachable graphs *)

(** The graphs a caller can hold: built by graph_from_json from a data
    frame on a new Graph, border discovery run, then any number of moves
    that returned. *)
Inductive reachable (df : list Row) : Graph → Prop :=
  | reachable_discovered dev g0 g1 :
      graph_from_json df (Graph_init dev) = (g0, Ok tt) →
      get_border_vertices g0 = (g1, Ok tt) →
      reachable df g1
  | reachable_moved g p d g' :
      reachable df g →
      change_vertex_district p d g = (g', Ok tt) →
      reachable df g'.

(** a graph after any completed operation: construction, discovery, move *)
Definition completed (df : list Row) (g : Graph) : Prop :=
  (∃ dev, graph_from_json df (Graph_init dev) = (g, Ok tt)) ∨ reachable df g.

(** Nothing past the two checks of change_vertex_district raises
    ValueError: the dictionary and tensor accesses raise KeyError,
    IndexError or TypeError only. *)
Definition no_ValueError {A} (m : M A) : Prop :=
  ∀ g msg, (m g).2 ≠ Raise (ValueError msg).

(** ** The scenario of the specification *)

(** The scenario of the specification, on ids 0..3: a path 0-1-2-3 with
    districts 1, 1, 2, 2. *)
Definition path_df : list Row :=
  [(0, 1, [1]); (1, 1, [0; 2]); (2, 2, [1; 3]); (3, 2, [2])].

(** The scenario graph after construction, after discovery, and after
    moving vertex 1 to district 2. *)
Definition path_g0 : Graph := (graph_from_json path_df (Graph_init "cpu")).1.
Definition path_g1 : Graph := (get_border_vertices path_g0).1.
Definition path_g2 : Graph := (change_vertex_district 1 2 path_g1).1.




(** A data frame whose adjacency is not symmetric: 0 lists 1, 1 lists 2
    and 2 lists 1, in districts 1, 1, 2; then the graph after
    construction, after discovery, and after moving vertex 1 to
    district 2. *)
Definition asym_df : list Row := [(0, 1, [1]); (1, 1, [2]); (2, 2, [1])].
Definition asym_g0 : Graph := (graph_from_json asym_df (Graph_init "cpu")).1.
Definition asym_g1 : Graph := (get_border_vertices asym_g0).1.
Definition asym_g2 : Graph := (change_vertex_district 1 2 asym_g1).1.

(** A data frame with a negative id: Python reads -1 as the last row of
    the tensor, the row of id 1 here; then the graph after construction
    and after discovery. *)
Definition wrap_df : list Row := [(1, 1, [-1]); (-1, 2, [1])].
Definition wrap_g0 : Graph := (graph_from_json wrap_df (Graph_init "cpu")).1.
Definition wrap_g1 : Graph := (get_border_vertices wrap_g0).1.

(** ** Further definitions *)

(** [keeps f m]: the method [m] leaves the reading [f] of the graph as it
    is, whether it returns or raises *)
Definition keeps {A X} (f : Graph → X) (m : M A) : Prop :=
  ∀ g, f (m g).1 = f g.

(** every id of the data frame is a Python index into the rows of the
    tensor graph_from_json allocates, [len(self.vertices)] of them *)
Definition ids_are_rows (df : list Row) : bool :=
  forallb (λ kv : Z * Vertex,
             bool_decide (is_Some (py_index (size (vertices_of df)) kv.1)))
          (map_to_list (vertices_of df)).

(** every neighbour listed by a vertex is a key of the vertices *)
Definition neighbours_present (V : gmap Z Vertex) (vx : Vertex) : bool :=
  forallb (λ n, bool_decide (is_Some (V !! n))) (elements (adj_vertices vx)).

Definition all_neighbours_present (V : gmap Z Vertex) : bool :=
  forallb (λ kv : Z * Vertex, neighbours_present V kv.2) (map_to_list V).

(** lines 47-49 of graph_from_json: the neighbours of a vertex followed by
    zeros, [max_adjacent_vertices] entries in all *)
Definition adj_row (max_adjacent_vertices : nat) (vertex : Vertex) : list Z :=
  elements (adj_vertices vertex)
  ++ replicate (max_adjacent_vertices - length (elements (adj_vertices vertex))) 0.

(** the longest 'adj' list of the data frame, repeated ids counted *)
Definition max_adj_len (df : list Row) : nat :=
  max_list ((λ r : Row, length r.2) <$> df).

(** The part of the state tensor that only graph_from_json writes, on a
    graph that descends from the data frame [df]: adjacency is that of the
    data frame, the tensor has a row per vertex of the data frame, columns
    1.. of the row of a vertex hold its neighbours and padding, and a row
    that belongs to no vertex is as torch.zeros made it. *)
Definition mirror_layout (df : list Row) (g : Graph) : Prop :=
  (∀ k, adj_vertices <$> vertices g !! k = adj_vertices <$> vertices_of df !! k) ∧
  ∃ st, state g = Some st ∧ length st = size (vertices_of df) ∧
    (∀ k vx, vertices g !! k = Some vx →
       snd <$> st !! Z.to_nat k = Some (adj_row (max_adj_len df) vx)) ∧
    (∀ j, vertices g !! Z.of_nat j = None →
       st !! j = zeros (size (vertices_of df)) (max_adj_len df) !! j).

(** the path graph with vertex 1 moved to district 2 and back *)
Definition path_g3 : Graph := (change_vertex_district 1 1 path_g2).1.

(** The loop over [vertex.adj_vertices] of lines 59-62, run in a given
    order. Python iterates a set in an order that its specification
    leaves open. *)
Definition scan_adjacent_in (adj_order : list Z) (vertex : Vertex) : M unit :=
  for_each adj_order (λ adj_vertex_id,
    adj_vertex ← vertices_getitem adj_vertex_id;
    if decide (district_id vertex ≠ district_id adj_vertex)
    then update_border vertex adj_vertex
    else mret tt).

(** Graph.get_border_vertices with both iteration orders given: the
    vertices in the order of [self.vertices.values()], each with its
    neighbours in the order of its set *)
Definition get_border_vertices_in (order : list (Vertex * list Z)) : M unit :=
  for_each order (λ item, scan_adjacent_in item.2 item.1).

(** [order] lists every vertex of the graph once, each with every one of
    its neighbours once *)
Definition iteration_order (g : Graph) (order : list (Vertex * list Z)) : Prop :=
  order.*1 ≡ₚ (map_to_list (vertices g)).*2 ∧
  ∀ item, item ∈ order → item.2 ≡ₚ elements (adj_vertices item.1).

(** what discovery records for a vertex with the districts [D] to border,
    when nothing was recorded for it before *)
Definition exact_entry (vx : Vertex) (D : gset Z) (h : Graph) : Prop :=
  (∀ d, vertex_on_border h !! (prescinct_id vx, d)
        = if decide (d ∈ D) then Some [prescinct_id vx; district_id vx; d] else None) ∧
  district_id_on_border_of_vertex h !! prescinct_id vx
  = (if decide (D = ∅) then None else Some D) ∧
  row_col0 h (Z.to_nat (prescinct_id vx))
  = Some (if decide (D = ∅) then district_id vx else - district_id vx).

(** the graph [h] is what discovery makes of the unmarked graph [g] *)
Definition discovered_from (g h : Graph) : Prop :=
  frame (λ u, is_Some (vertices g !! u)) g h ∧
  ∀ k vx, vertices g !! k = Some vx →
    exact_entry vx (border_districts (vertices g) vx) h.

(** the vertices of the path graph from last to first, each with its
    neighbours from last to first *)
Definition path_order_rev : list (Vertex * list Z) :=
  reverse ((λ v, (v, reverse (elements (adj_vertices v))))
             <$> (map_to_list (vertices path_g0)).*2).

(** Graph.graph_from_json with the order of [self.vertices.items()] in
    the loop of lines 43-50 given *)
Definition graph_from_json_in (items_order : list (Z * Vertex)) (df : list Row) : M unit :=
  self ← get_self;
  let loaded := load_rows df 0%nat (vertices self) in
  let max_adjacent_vertices := loaded.1 in
  modify_self (with_vertices (λ _, loaded.2));;
  self ← get_self;
  modify_self (with_state (Some (zeros (size (vertices self)) max_adjacent_vertices)));;
  for_each items_order (fill_row max_adjacent_vertices).

(** the items of the path graph from last to first *)
Definition path_items_rev : list (Z * Vertex) := reverse (map_to_list (vertices_of path_df)).

(** lines 88-93 of change_vertex_district, the copy of the set iterated
    in a given order *)
Definition clear_border_in (clear_order : gset Z → list Z) (vertex : Vertex) : M unit :=
  self ← get_self;
  match district_id_on_border_of_vertex self !! prescinct_id vertex with
  | Some s =>
      for_each (clear_order s) (λ adj_vertex_id,
        vertex_on_border_pop (prescinct_id vertex, adj_vertex_id);;
        district_id_on_border_of_vertex_remove (prescinct_id vertex) adj_vertex_id;;
        state_setitem_col0 (prescinct_id vertex) (district_id vertex))
  | None => mret tt
  end.

(** Graph.change_vertex_district with its three iteration orders given:
    the neighbours of the moved vertex in the comprehension of line 84,
    the recorded districts of a vertex in the loop of line 89, and the
    neighbours of a vertex in the loop of line 97 *)
Definition change_vertex_district_in (nbr_order : Vertex → list Z)
    (clear_order : Vertex → gset Z → list Z) (scan_order : Vertex → list Z)
    (prescinct_id new_district_id : Z) : M unit :=
  vertex ← vertices_getitem prescinct_id;
  let old_district_id := district_id vertex in
  if decide (new_district_id = old_district_id)
  then raise (ValueError "The vertex is already in the district you want to change to")
  else
    self ← get_self;
    if decide ((prescinct_id, new_district_id) ∉ dom (vertex_on_border self))
    then raise (ValueError
                  "The vertex is not on the border with the district you want to change to")
    else
      vertices_set_district prescinct_id new_district_id;;
      state_setitem_col0 prescinct_id new_district_id;;
      moved ← vertices_getitem prescinct_id;
      adjacent ← comprehension (nbr_order moved) vertices_getitem;
      moved' ← vertices_getitem prescinct_id;
      let list_to_check_possible_actions := adjacent ++ [moved'] in
      for_each list_to_check_possible_actions (λ vertex,
        clear_border_in (clear_order vertex) vertex;;
        scan_adjacent_in (scan_order vertex) vertex).

(** each order lists every element of its set once *)
Definition set_orders (nbr_order : Vertex → list Z)
    (clear_order : Vertex → gset Z → list Z) (scan_order : Vertex → list Z) : Prop :=
  (∀ v, nbr_order v ≡ₚ elements (adj_vertices v)) ∧
  (∀ v s, clear_order v s ≡ₚ elements s) ∧
  (∀ v, scan_order v ≡ₚ elements (adj_vertices v)).

(** what one turn of the loop of lines 86-100, started in [g], leaves of
    district_id_on_border_of_vertex for its vertex *)
Definition refreshed_set (V : gmap Z Vertex) (vx : Vertex) (g h : Graph) : Prop :=
  district_id_on_border_of_vertex h !! prescinct_id vx
  = if decide (border_districts V vx = ∅)
    then (λ _, ∅) <$> district_id_on_border_of_vertex g !! prescinct_id vx
    else Some (border_districts V vx).

(** * Proofs *)

(** ** The monad and its loops *)

Lemma bind_eq {A B} (m : M A) (k : A → M B) g :
  (m ≫= k) g = match m g with
               | (g', Ok a) => k a g'
               | (g', Raise e) => (g', Raise e)
               end.
Proof. reflexivity. Qed.

Lemma mret_eq {A} (a : A) (g : Graph) : (mret a : M A) g = (g, Ok a).
Proof. reflexivity. Qed.

Lemma bind_ok {A B} (m : M A) (k : A → M B) g g' a :
  m g = (g', Ok a) → (m ≫= k) g = k a g'.
Proof. intros H. rewrite bind_eq, H. done. Qed.

Lemma for_each_cons {A} (x : A) l body g :
  for_each (x :: l) body g = (body x ≫= λ _, for_each l body) g.
Proof. reflexivity. Qed.

Lemma for_each_noop {A} (l : list A) body g :
  (∀ x, x ∈ l → body x g = (g, Ok tt)) → for_each l body g = (g, Ok tt).
Proof.
  induction l as [|x l IH]; intros H; [done|].
  rewrite for_each_cons, (bind_ok _ _ _ g tt).
  - apply IH. intros y Hy. apply H. by right.
  - apply H. by left.
Qed.

Lemma for_each_preserves {A} (P : Graph → Prop) (body : A → M unit) l :
  (∀ x g, P g → P (body x g).1) →
  ∀ g, P g → P (for_each l body g).1.
Proof.
  intros Hbody. induction l as [|x l IH]; intros g Hg; [done|].
  rewrite for_each_cons, bind_eq.
  specialize (Hbody x g Hg).
  destruct (body x g) as [h [[]|e]]; simpl in *; [by apply IH|done].
Qed.

Lemma update_border_eq vertex adj_vertex g st k :
  state g = Some st →
  py_index (length st) (prescinct_id vertex) = Some k →
  update_border vertex adj_vertex g
  = (update_border_result vertex adj_vertex k st g, Ok tt).
Proof.
  intros Hst Hk. unfold update_border.
  rewrite bind_eq. unfold modify_self at 1.
  rewrite bind_eq. unfold state_setitem_col0 at 1. simpl. rewrite Hst, Hk.
  rewrite bind_eq. unfold get_self at 1.
  rewrite bind_eq. simpl.
  unfold update_border_result.
  destruct (district_id_on_border_of_vertex g !! prescinct_id vertex) as [s|] eqn:Hs.
  - unfold mret, M_ret, ret, district_id_on_border_of_vertex_add. simpl. rewrite Hs.
    unfold with_district_id_on_border_of_vertex. simpl. done.
  - unfold modify_self, district_id_on_border_of_vertex_add. simpl.
    rewrite lookup_insert_eq. unfold with_district_id_on_border_of_vertex. simpl.
    rewrite insert_insert_eq. done.
Qed.

(** ** Neighbouring districts *)

Lemma elem_of_adj_district_ids V l d :
  d ∈ adj_district_ids V l ↔ ∃ n nx, n ∈ l ∧ V !! n = Some nx ∧ district_id nx = d.
Proof.
  unfold adj_district_ids. rewrite list_elem_of_omap. split.
  - intros (n & Hn & Hd). destruct (V !! n) as [nx|] eqn:E; simplify_eq/=. eauto.
  - intros (n & nx & Hn & E & <-). exists n. by rewrite E.
Qed.

Lemma elem_of_border_districts_of V vx l d :
  d ∈ border_districts_of V vx l ↔
  d ≠ district_id vx ∧ ∃ n nx, n ∈ l ∧ V !! n = Some nx ∧ district_id nx = d.
Proof.
  unfold border_districts_of.
  by rewrite elem_of_list_to_set, list_elem_of_filter, elem_of_adj_district_ids.
Qed.

Lemma elem_of_border_districts V vx d :
  d ∈ border_districts V vx ↔
  d ≠ district_id vx ∧
  ∃ n nx, n ∈ adj_vertices vx ∧ V !! n = Some nx ∧ district_id nx = d.
Proof.
  unfold border_districts. rewrite elem_of_border_districts_of.
  by setoid_rewrite elem_of_elements.
Qed.

Lemma on_border_spec V vx :
  on_border V vx = true ↔
  ∃ n nx, n ∈ adj_vertices vx ∧ V !! n = Some nx ∧ district_id nx ≠ district_id vx.
Proof.
  unfold on_border. rewrite bool_decide_eq_true. split.
  - intros Hne. apply set_choose_L in Hne as [d Hd].
    apply elem_of_border_districts in Hd as (Hd & n & nx & Hn & Hnx & <-). eauto.
  - intros (n & nx & Hn & Hnx & Hne) HE.
    assert (district_id nx ∈ border_districts V vx) as Hd.
    { apply elem_of_border_districts. split; [done|]. by exists n, nx. }
    rewrite HE in Hd. set_solver.
Qed.

Lemma border_districts_of_nil V vx : border_districts_of V vx [] = ∅.
Proof. done. Qed.

Lemma border_districts_of_cons V vx n nx l :
  V !! n = Some nx →
  border_districts_of V vx (n :: l)
  = (if decide (district_id vx ≠ district_id nx) then {[district_id nx]} else ∅)
    ∪ border_districts_of V vx l.
Proof.
  intros E. apply set_eq. intros d.
  rewrite elem_of_union, !elem_of_border_districts_of.
  split.
  - intros (Hd & m & mx & Hm & Em & <-).
    apply elem_of_cons in Hm as [->|Hm].
    + simplify_eq. left. rewrite decide_True by done. set_solver.
    + right. eauto 10.
  - intros [Hd|(Hd & m & mx & Hm & Em & <-)].
    + case_decide; [|set_solver]. apply elem_of_singleton in Hd as ->.
      split; [done|]. exists n, nx. split; [by left|done].
    + split; [done|]. exists m, mx. split; [by right|done].
Qed.

(** ** Frames *)

Lemma frame_refl P g st : state g = Some st → frame P g g.
Proof. intros Hst. repeat split; try done. exists st, st. eauto. Qed.

Lemma frame_trans P g1 g2 g3 : frame P g1 g2 → frame P g2 g3 → frame P g1 g3.
Proof.
  intros (HV & Hd & Hm & Hb & Hs & st1 & st2 & E1 & E2 & Hl & Hc & Hr)
         (HV' & Hd' & Hm' & Hb' & Hs' & st2' & st3 & E2' & E3 & Hl' & Hc' & Hr').
  simplify_eq.
  split; [congruence|]. split; [congruence|]. split; [congruence|].
  split; [intros; rewrite Hb', Hb; done|].
  split; [intros; rewrite Hs', Hs; done|].
  exists st1, st3. split; [done|]. split; [done|]. split; [congruence|].
  split; [intros; rewrite Hc', Hc; done|].
  intros; rewrite Hr', Hr; done.
Qed.

Lemma frame_mono (P Q : Z → Prop) g h : (∀ u, P u → Q u) → frame P g h → frame Q g h.
Proof.
  intros HPQ (HV & Hd & Hm & Hb & Hs & st & st' & E & E' & Hl & Hc & Hr).
  repeat split; try done; [naive_solver..|].
  exists st, st'. repeat split; try done. naive_solver.
Qed.

Lemma py_index_in_range n i :
  0 ≤ i < Z.of_nat n → py_index n i = Some (Z.to_nat i).
Proof. intros H. unfold py_index. by rewrite decide_True. Qed.

Lemma row_col0_alter g st k x :
  state g = Some st → (k < length st)%nat →
  row_col0 (with_state (Some (alter (λ r, (x, r.2)) k st)) g) k = Some x.
Proof.
  intros Hst Hk. unfold row_col0. simpl. rewrite list_lookup_alter_eq.
  destruct (lookup_lt_is_Some_2 st k Hk) as [r ->]. done.
Qed.

(** ** The primitive updates and the two inner loops *)

(** [self.state[w, 0] = x] on a valid row *)
Lemma state_setitem_col0_spec w x g st :
  state g = Some st → 0 ≤ w < Z.of_nat (length st) →
  ∃ h, state_setitem_col0 w x g = (h, Ok tt) ∧ frame (λ u, u = w) g h ∧
       vertex_on_border h = vertex_on_border g ∧
       district_id_on_border_of_vertex h = district_id_on_border_of_vertex g ∧
       row_col0 h (Z.to_nat w) = Some x.
Proof.
  intros Hst Hw. unfold state_setitem_col0. rewrite Hst, py_index_in_range by done.
  eexists. split; [done|]. split; [|split; [done|split; [done|]]].
  - repeat split; try done.
    eexists _, _. split; [done|]. split; [done|].
    split; [by rewrite length_alter|]. split.
    + intros j. destruct (decide (j = Z.to_nat w)) as [->|].
      * rewrite list_lookup_alter_eq. by destruct (st !! _).
      * by rewrite list_lookup_alter_ne.
    + intros u Hu Hne. rewrite list_lookup_alter_ne; [done|]. lia.
  - apply row_col0_alter; [done|lia].
Qed.

(** update_border on a valid row: one entry added for the vertex, the
    rest of the graph as before *)
Lemma update_border_spec vx nx g st :
  state g = Some st → 0 ≤ prescinct_id vx < Z.of_nat (length st) →
  ∃ h, update_border vx nx g = (h, Ok tt) ∧ frame (λ u, u = prescinct_id vx) g h ∧
    (∀ d, vertex_on_border h !! (prescinct_id vx, d)
          = if decide (d = district_id nx)
            then Some [prescinct_id vx; district_id vx; d]
            else vertex_on_border g !! (prescinct_id vx, d)) ∧
    district_id_on_border_of_vertex h !! prescinct_id vx
    = Some ({[district_id nx]}
            ∪ default ∅ (district_id_on_border_of_vertex g !! prescinct_id vx)) ∧
    row_col0 h (Z.to_nat (prescinct_id vx)) = Some (- district_id vx).
Proof.
  intros Hst Hw.
  rewrite (update_border_eq _ _ _ st (Z.to_nat (prescinct_id vx)))
    by (done || by apply py_index_in_range).
  eexists. split; [done|]. unfold update_border_result.
  split; [|split; [|split]]; simpl.
  - repeat split; simpl; try done.
    + intros u d Hu. rewrite lookup_insert_ne; [done|]. congruence.
    + intros u Hu. by rewrite lookup_insert_ne.
    + eexists _, _. split; [done|]. split; [done|].
      split; [by rewrite length_alter|]. split.
      * intros j. destruct (decide (j = Z.to_nat (prescinct_id vx))) as [->|].
        -- rewrite list_lookup_alter_eq. by destruct (st !! _).
        -- by rewrite list_lookup_alter_ne.
      * intros u Hu Hne. rewrite list_lookup_alter_ne; [done|]. lia.
  - intros d. case_decide as Hd.
    + subst d. by rewrite lookup_insert_eq.
    + rewrite lookup_insert_ne; [done|]. congruence.
  - by rewrite lookup_insert_eq.
  - unfold row_col0. simpl. rewrite list_lookup_alter_eq.
    destruct (lookup_lt_is_Some_2 st (Z.to_nat (prescinct_id vx))) as [r ->]; [lia|done].
Qed.

(** The loop of scan_adjacent over any list of neighbour ids present in
    the graph: it adds an entry for each district of [border_districts_of]
    and touches nothing else. *)
Lemma scan_loop vx l : ∀ g st,
  state g = Some st → 0 ≤ prescinct_id vx < Z.of_nat (length st) →
  (∀ n, n ∈ l → is_Some (vertices g !! n)) →
  let D := border_districts_of (vertices g) vx l in
  ∃ h,
    for_each l (λ adj_vertex_id,
      adj_vertex ← vertices_getitem adj_vertex_id;
      if decide (district_id vx ≠ district_id adj_vertex)
      then update_border vx adj_vertex
      else mret tt) g = (h, Ok tt) ∧
    frame (λ u, u = prescinct_id vx) g h ∧
    (∀ d, vertex_on_border h !! (prescinct_id vx, d)
          = if decide (d ∈ D)
            then Some [prescinct_id vx; district_id vx; d]
            else vertex_on_border g !! (prescinct_id vx, d)) ∧
    district_id_on_border_of_vertex h !! prescinct_id vx
    = (if decide (D = ∅) then district_id_on_border_of_vertex g !! prescinct_id vx
       else Some (D ∪ default ∅ (district_id_on_border_of_vertex g !! prescinct_id vx))) ∧
    row_col0 h (Z.to_nat (prescinct_id vx))
    = (if decide (D = ∅) then row_col0 g (Z.to_nat (prescinct_id vx))
       else Some (- district_id vx)).
Proof.
  induction l as [|n l IH]; intros g st Hst Hw Hl D.
  - exists g. split; [done|]. split; [by eapply frame_refl|].
    subst D. rewrite border_districts_of_nil.
    split; [intros d; by rewrite decide_False by set_solver|].
    by rewrite !decide_True.
  - destruct (Hl n) as [nx Hn]; [by left|].
    subst D. rewrite (border_districts_of_cons _ _ _ nx) by done.
    rewrite for_each_cons, bind_eq, bind_eq.
    unfold vertices_getitem at 1. rewrite Hn.
    destruct (decide (district_id vx ≠ district_id nx)) as [Hne|Heq].
    + destruct (update_border_spec vx nx g st Hst Hw)
        as (g1 & -> & Hf1 & Hb1 & Hs1 & Hr1).
      pose proof Hf1 as (HV1 & _ & _ & _ & _ & st0 & st1 & E0 & E1 & Hlen & _).
      simplify_eq.
      destruct (IH g1 st1) as (h & -> & Hf & Hb & Hs & Hr);
        [done|lia|intros; rewrite HV1; apply Hl; by right|].
      rewrite HV1 in *.
      set (D := border_districts_of (vertices g) vx l) in *.
      exists h. split; [done|]. split; [by eapply frame_trans|].
      split; [|split].
      * intros d. rewrite Hb, Hb1.
        repeat case_decide; try done; set_solver.
      * rewrite Hs, Hs1. rewrite (decide_False (P := {[_]} ∪ _ = ∅)) by set_solver.
        simpl. case_decide as HD; f_equal; set_solver.
      * rewrite Hr, Hr1. rewrite (decide_False (P := _ ∪ _ = ∅)) by set_solver.
        by case_decide.
    + rewrite mret_eq.
      destruct (IH g st) as (h & -> & Hf & Hb & Hs & Hr);
        [done|done|intros; apply Hl; by right|].
      set (D := border_districts_of (vertices g) vx l) in *.
      exists h. split; [done|]. split; [done|].
      assert (∅ ∪ D = D) as -> by set_solver. done.
Qed.

(** One turn of the loop of clear_border (lines 91-93). *)
Lemma clear_step vx d g st s :
  state g = Some st → 0 ≤ prescinct_id vx < Z.of_nat (length st) →
  district_id_on_border_of_vertex g !! prescinct_id vx = Some s → d ∈ s →
  is_Some (vertex_on_border g !! (prescinct_id vx, d)) →
  ∃ h,
    (vertex_on_border_pop (prescinct_id vx, d);;
     district_id_on_border_of_vertex_remove (prescinct_id vx) d;;
     state_setitem_col0 (prescinct_id vx) (district_id vx)) g = (h, Ok tt) ∧
    frame (λ u, u = prescinct_id vx) g h ∧
    vertex_on_border h = delete (prescinct_id vx, d) (vertex_on_border g) ∧
    district_id_on_border_of_vertex h !! prescinct_id vx = Some (s ∖ {[d]}) ∧
    row_col0 h (Z.to_nat (prescinct_id vx)) = Some (district_id vx).
Proof.
  intros Hst Hw Hs Hd [t Ht].
  rewrite bind_eq. unfold vertex_on_border_pop at 1. rewrite Ht.
  rewrite bind_eq. unfold district_id_on_border_of_vertex_remove at 1. simpl.
  rewrite Hs, decide_True by done.
  set (g2 := with_district_id_on_border_of_vertex _ _).
  destruct (state_setitem_col0_spec (prescinct_id vx) (district_id vx) g2 st)
    as (h & -> & Hf & Hb & Hdb & Hr); [done..|].
  exists h. split; [done|].
  destruct Hf as (HV & Hdev & Hmx & Hfb & Hfs & st0 & st' & E0 & E' & Hlen & Hc & Hrow).
  simpl in *. simplify_eq.
  split; [|split; [done|split; [|done]]].
  - split; [done|]. split; [done|]. split; [done|].
    split; [|split].
    + intros u e Hu. rewrite Hb. simpl. rewrite lookup_delete_ne; [done|]. congruence.
    + intros u Hu. rewrite Hdb. simpl. by rewrite lookup_insert_ne.
    + eexists _, _. done.
  - rewrite Hdb. simpl. by rewrite lookup_insert_eq.
Qed.

(** The loop of clear_border over a duplicate-free list of districts that
    are recorded for the vertex in both dictionaries. *)
Lemma clear_loop vx l : ∀ g st s,
  state g = Some st → 0 ≤ prescinct_id vx < Z.of_nat (length st) →
  district_id_on_border_of_vertex g !! prescinct_id vx = Some s →
  NoDup l →
  (∀ d, d ∈ l → d ∈ s ∧ is_Some (vertex_on_border g !! (prescinct_id vx, d))) →
  ∃ h,
    for_each l (λ adj_vertex_id,
      vertex_on_border_pop (prescinct_id vx, adj_vertex_id);;
      district_id_on_border_of_vertex_remove (prescinct_id vx) adj_vertex_id;;
      state_setitem_col0 (prescinct_id vx) (district_id vx)) g = (h, Ok tt) ∧
    frame (λ u, u = prescinct_id vx) g h ∧
    (∀ d, vertex_on_border h !! (prescinct_id vx, d)
          = if decide (d ∈ l) then None
            else vertex_on_border g !! (prescinct_id vx, d)) ∧
    district_id_on_border_of_vertex h !! prescinct_id vx = Some (s ∖ list_to_set l) ∧
    row_col0 h (Z.to_nat (prescinct_id vx))
    = (if decide (l = []) then row_col0 g (Z.to_nat (prescinct_id vx))
       else Some (district_id vx)).
Proof.
  induction l as [|x l IH]; intros g st s Hst Hw Hs Hnd Hl.
  - exists g. split; [done|]. split; [by eapply frame_refl|].
    split; [intros d; by rewrite decide_False by set_solver|].
    split; [|done]. rewrite Hs. f_equal. set_solver.
  - apply NoDup_cons in Hnd as [Hx Hnd].
    destruct (Hl x) as [Hxs Hxb]; [by left|].
    rewrite for_each_cons, bind_eq.
    destruct (clear_step vx x g st s) as (g1 & -> & Hf1 & Hb1 & Hs1 & Hr1); [done..|].
    pose proof Hf1 as (_ & _ & _ & _ & _ & st0 & st1 & E0 & E1 & Hlen & _).
    simplify_eq.
    destruct (IH g1 st1 (s ∖ {[x]})) as (h & -> & Hf & Hb & Hs' & Hr);
      [done|lia|done|done| |].
    { intros d Hd. destruct (Hl d) as [? ?]; [by right|].
      assert (d ≠ x) by (intros ->; done).
      split; [set_solver|]. rewrite Hb1, lookup_delete_ne; [done|congruence]. }
    exists h. split; [done|]. split; [by eapply frame_trans|].
    split; [|split].
    + intros d. rewrite Hb, Hb1.
      destruct (decide (d = x)) as [->|Hne].
      * rewrite lookup_delete_eq, (decide_True (P := x ∈ x :: l)) by (by left).
        by destruct (decide (x ∈ l)).
      * rewrite lookup_delete_ne by congruence.
        repeat case_decide; try done; set_solver.
    + rewrite Hs'. f_equal. set_solver.
    + rewrite Hr, Hr1. rewrite (decide_False (P := x :: l = [])) by done.
      by case_decide.
Qed.

(** ** The border entries of one vertex *)

Lemma fresh_entry_lockstep V vx g :
  fresh_entry V vx g → lockstep g (prescinct_id vx).
Proof.
  intros (Hb & Hs & _) d. rewrite Hb, Hs.
  case_decide; split; try done; by intros [? ?].
Qed.

Lemma fresh_entry_row_plain V vx g : fresh_entry V vx g → row_plain g vx.
Proof. intros (_ & Hs & Hr) HE. rewrite Hr, decide_True; [done|]. by rewrite <- Hs. Qed.

Lemma row_col0_frame P g h u :
  frame P g h → 0 ≤ u → ¬ P u → row_col0 h (Z.to_nat u) = row_col0 g (Z.to_nat u).
Proof.
  intros (_ & _ & _ & _ & _ & st & st' & E & E' & _ & _ & Hr) Hu HP.
  unfold row_col0. rewrite E, E'. simpl. by rewrite Hr.
Qed.

Lemma fresh_entry_frame P V vx g h :
  frame P g h → 0 ≤ prescinct_id vx → ¬ P (prescinct_id vx) →
  fresh_entry V vx g → fresh_entry V vx h.
Proof.
  intros Hf Hw HP (Hb & Hs & Hr).
  pose proof (row_col0_frame _ _ _ _ Hf Hw HP) as Hrow.
  destruct Hf as (_ & _ & _ & Hfb & Hfs & _).
  split; [|split].
  - intros d. by rewrite Hfb.
  - by rewrite Hfs.
  - by rewrite Hrow.
Qed.

Lemma lockstep_frame P g h w : frame P g h → ¬ P w → lockstep g w → lockstep h w.
Proof.
  intros (_ & _ & _ & Hfb & Hfs & _) HP Hl d. by rewrite Hfb, Hfs.
Qed.

Lemma row_plain_frame P g h vx :
  frame P g h → 0 ≤ prescinct_id vx → ¬ P (prescinct_id vx) →
  row_plain g vx → row_plain h vx.
Proof.
  intros Hf Hw HP Hr. unfold row_plain.
  rewrite (row_col0_frame _ _ _ _ Hf Hw HP).
  destruct Hf as (_ & _ & _ & _ & Hfs & _). by rewrite Hfs.
Qed.

(** clear_border removes everything recorded for the vertex; the key of
    district_id_on_border_of_vertex stays, with the empty set. *)
Lemma clear_border_spec vx g st :
  state g = Some st → 0 ≤ prescinct_id vx < Z.of_nat (length st) →
  lockstep g (prescinct_id vx) → row_plain g vx →
  ∃ h, clear_border vx g = (h, Ok tt) ∧
    frame (λ u, u = prescinct_id vx) g h ∧ blank_entry h vx ∧
    district_id_on_border_of_vertex h !! prescinct_id vx
    = (λ _, ∅) <$> district_id_on_border_of_vertex g !! prescinct_id vx.
Proof.
  intros Hst Hw Hlock Hrow. unfold clear_border.
  rewrite bind_eq. unfold get_self at 1.
  destruct (district_id_on_border_of_vertex g !! prescinct_id vx) as [s|] eqn:Hs.
  - destruct (clear_loop vx (elements s) g st s) as (h & -> & Hf & Hb & Hs' & Hr);
      [done|done|done|apply NoDup_elements| |].
    { intros d Hd. apply elem_of_elements in Hd. split; [done|].
      apply Hlock. by rewrite Hs. }
    exists h. split; [done|]. split; [done|].
    assert (s ∖ list_to_set (elements s) = ∅) as HE.
    { apply set_eq. intros d. rewrite elem_of_difference, elem_of_list_to_set,
        elem_of_elements. set_solver. }
    rewrite HE in Hs'. split; [|done].
    split; [|split].
    + intros d. rewrite Hb. destruct (decide (d ∈ elements s)) as [|Hd]; [done|].
      rewrite elem_of_elements in Hd.
      destruct (vertex_on_border g !! (prescinct_id vx, d)) eqn:E; [|done].
      exfalso. apply Hd. specialize (Hlock d). rewrite Hs, E in Hlock.
      apply Hlock. eauto.
    + by rewrite Hs'.
    + rewrite Hr. destruct (decide (elements s = [])) as [Hel|]; [|done].
      apply Hrow. rewrite Hs. simpl. apply elements_empty_inv in Hel.
      by apply leibniz_equiv.
  - exists g. split; [done|]. split; [by eapply frame_refl|]. split; [|done].
    split; [|split].
    + intros d. destruct (vertex_on_border g !! (prescinct_id vx, d)) eqn:E; [|done].
      exfalso. specialize (Hlock d). rewrite Hs, E in Hlock.
      assert (d ∈ (∅ : gset Z)) by (apply Hlock; eauto). set_solver.
    + by rewrite Hs.
    + apply Hrow. by rewrite Hs.
Qed.

(** scan_adjacent on a vertex with nothing recorded: afterwards exactly
    the districts of its differing neighbours are recorded. *)
Lemma scan_adjacent_spec vx g st :
  state g = Some st → 0 ≤ prescinct_id vx < Z.of_nat (length st) →
  (∀ n, n ∈ adj_vertices vx → is_Some (vertices g !! n)) →
  blank_entry g vx →
  ∃ h, scan_adjacent vx g = (h, Ok tt) ∧
    frame (λ u, u = prescinct_id vx) g h ∧ fresh_entry (vertices g) vx h ∧
    (is_Some (district_id_on_border_of_vertex g !! prescinct_id vx) →
     is_Some (district_id_on_border_of_vertex h !! prescinct_id vx)).
Proof.
  intros Hst Hw Hadj (Hb0 & Hs0 & Hr0). unfold scan_adjacent.
  destruct (scan_loop vx (elements (adj_vertices vx)) g st)
    as (h & -> & Hf & Hb & Hs & Hr); [done|done| |].
  { intros n Hn. apply Hadj. by apply elem_of_elements. }
  fold (border_districts (vertices g) vx) in *.
  exists h. split; [done|]. split; [done|]. split.
  - split; [|split].
    + intros d. rewrite Hb, Hb0. done.
    + rewrite Hs. case_decide as HD.
      * by rewrite HD.
      * simpl. rewrite Hs0. set_solver.
    + rewrite Hr, Hr0. by case_decide.
  - rewrite Hs. case_decide; [done|]. eauto.
Qed.

Lemma keys_kept_trans g1 g2 g3 : keys_kept g1 g2 → keys_kept g2 g3 → keys_kept g1 g3.
Proof. intros H1 H2 u Hu. by apply H2, H1. Qed.

Lemma keys_kept_frame w g h :
  frame (λ u, u = w) g h →
  (is_Some (district_id_on_border_of_vertex g !! w) →
   is_Some (district_id_on_border_of_vertex h !! w)) →
  keys_kept g h.
Proof.
  intros (_ & _ & _ & _ & Hfs & _) Hw u Hu.
  destruct (decide (u = w)) as [->|Hne]; [by apply Hw|]. by rewrite Hfs.
Qed.

(** ** The loops over vertices *)

(** One turn of the loop of change_vertex_district (lines 86-100): the
    entries of the vertex are cleared and then rebuilt from its
    neighbours. *)
Lemma refresh_spec vx g st :
  state g = Some st → 0 ≤ prescinct_id vx < Z.of_nat (length st) →
  (∀ n, n ∈ adj_vertices vx → is_Some (vertices g !! n)) →
  lockstep g (prescinct_id vx) → row_plain g vx →
  ∃ h, (clear_border vx;; scan_adjacent vx) g = (h, Ok tt) ∧
    frame (λ u, u = prescinct_id vx) g h ∧ fresh_entry (vertices g) vx h ∧
    keys_kept g h.
Proof.
  intros Hst Hw Hadj Hlock Hrow.
  destruct (clear_border_spec vx g st) as (g1 & E1 & Hf1 & Hblank & Hk1); [done..|].
  pose proof Hf1 as (HV1 & _ & _ & _ & _ & st0 & st1 & E0 & Est1 & Hlen & _).
  simplify_eq.
  destruct (scan_adjacent_spec vx g1 st1) as (h & E2 & Hf2 & Hfresh & Hk2);
    [done|lia|by rewrite HV1|done|].
  exists h. rewrite bind_eq, E1, E2. split; [done|].
  split; [by eapply frame_trans|]. split; [by rewrite <- HV1|].
  eapply keys_kept_frame; [by eapply frame_trans|].
  intros Hs. apply Hk2. rewrite Hk1. by apply fmap_is_Some.
Qed.

(** The whole loop of change_vertex_district over a list of vertices of
    the graph. *)
Lemma refresh_loop L : ∀ g st,
  state g = Some st →
  (∀ vx, vx ∈ L →
     vertices g !! prescinct_id vx = Some vx ∧
     0 ≤ prescinct_id vx < Z.of_nat (length st) ∧
     (∀ n, n ∈ adj_vertices vx → is_Some (vertices g !! n)) ∧
     lockstep g (prescinct_id vx) ∧ row_plain g vx) →
  ∃ h, for_each L (λ vertex, clear_border vertex;; scan_adjacent vertex) g
       = (h, Ok tt) ∧
    frame (λ u, ∃ vx, vx ∈ L ∧ prescinct_id vx = u) g h ∧
    (∀ vx, vx ∈ L → fresh_entry (vertices g) vx h) ∧
    keys_kept g h.
Proof.
  induction L as [|x L IH]; intros g st Hst HL.
  - exists g. split; [done|]. split; [by eapply frame_refl|].
    split; [intros vx Hvx; by apply elem_of_nil in Hvx|]. by intros u.
  - destruct (HL x) as (Hx & Hw & Hadj & Hlock & Hrow); [by left|].
    destruct (refresh_spec x g st) as (g1 & E1 & Hf1 & Hfresh1 & Hk1); [done..|].
    pose proof Hf1 as (HV1 & _ & _ & _ & _ & st0 & st1 & E0 & Est1 & Hlen & _).
    simplify_eq.
    destruct (IH g1 st1) as (h & E2 & Hf2 & Hfresh2 & Hk2); [done| |].
    { intros vx Hvx. destruct (HL vx) as (Hvx' & Hw' & Hadj' & Hlock' & Hrow');
        [by right|].
      rewrite HV1, Hlen. split; [done|]. split; [done|]. split; [done|].
      destruct (decide (prescinct_id vx = prescinct_id x)) as [Heq|Hne].
      - assert (vx = x) as -> by congruence.
        split; [by eapply fresh_entry_lockstep|by eapply fresh_entry_row_plain].
      - split; [by eapply lockstep_frame|].
        eapply row_plain_frame; [done|lia|done|done]. }
    exists h. rewrite for_each_cons, bind_eq, E1, E2. split; [done|].
    split; [|split].
    + eapply frame_trans; (eapply frame_mono; [|done]); simpl.
      * intros u ->. exists x. split; [by left|done].
      * intros u (vx & Hvx & <-). exists vx. split; [by right|done].
    + intros vx Hvx. rewrite <- HV1.
      destruct (decide (vx ∈ L)) as [Hin|Hnin]; [by apply Hfresh2|].
      apply elem_of_cons in Hvx as [->|?]; [|done].
      destruct (decide (prescinct_id x ∈ prescinct_id <$> L)) as [Hid|Hno].
      * apply list_elem_of_fmap in Hid as (vy & Hid & Hvy).
        destruct (HL vy) as (Hvy' & _); [by right|].
        assert (vy = x) as -> by congruence. done.
      * eapply fresh_entry_frame; [exact Hf2|lia| |by rewrite HV1].
        intros (vy & Hvy & Hid). apply Hno, list_elem_of_fmap. eauto.
    + by eapply keys_kept_trans.
Qed.

Lemma blank_entry_frame P g h vx :
  frame P g h → 0 ≤ prescinct_id vx → ¬ P (prescinct_id vx) →
  blank_entry g vx → blank_entry h vx.
Proof.
  intros Hf Hw HP (Hb & Hs & Hr).
  pose proof (row_col0_frame _ _ _ _ Hf Hw HP) as Hrow.
  destruct Hf as (_ & _ & _ & Hfb & Hfs & _).
  split; [|split].
  - intros d. by rewrite Hfb.
  - by rewrite Hfs.
  - by rewrite Hrow.
Qed.

(** The loop of get_border_vertices over a list of vertices with distinct
    ids for which nothing is recorded yet. *)
Lemma discover_loop L : ∀ g st,
  state g = Some st → NoDup (prescinct_id <$> L) →
  (∀ vx, vx ∈ L →
     0 ≤ prescinct_id vx < Z.of_nat (length st) ∧
     (∀ n, n ∈ adj_vertices vx → is_Some (vertices g !! n)) ∧
     blank_entry g vx) →
  ∃ h, for_each L scan_adjacent g = (h, Ok tt) ∧
    frame (λ u, u ∈ prescinct_id <$> L) g h ∧
    (∀ vx, vx ∈ L → fresh_entry (vertices g) vx h).
Proof.
  induction L as [|x L IH]; intros g st Hst Hnd HL.
  - exists g. split; [done|]. split; [by eapply frame_refl|].
    intros vx Hvx; by apply elem_of_nil in Hvx.
  - rewrite fmap_cons in Hnd. apply NoDup_cons in Hnd as [Hx Hnd].
    destruct (HL x) as (Hw & Hadj & Hblank); [by left|].
    destruct (scan_adjacent_spec x g st) as (g1 & E1 & Hf1 & Hfresh1 & _); [done..|].
    pose proof Hf1 as (HV1 & _ & _ & _ & _ & st0 & st1 & E0 & Est1 & Hlen & _).
    simplify_eq.
    destruct (IH g1 st1) as (h & E2 & Hf2 & Hfresh2); [done|done| |].
    { intros vx Hvx. destruct (HL vx) as (Hw' & Hadj' & Hblank'); [by right|].
      rewrite HV1, Hlen. split; [done|]. split; [done|].
      eapply blank_entry_frame; [exact Hf1|lia| |done].
      simpl. intros Heq. apply Hx. rewrite <- Heq. by apply list_elem_of_fmap_2. }
    exists h. rewrite for_each_cons, bind_eq, E1, E2. split; [done|].
    split.
    + eapply frame_trans; (eapply frame_mono; [|done]); simpl.
      * intros u ->. by left.
      * intros u Hu. by right.
    + intros vx Hvx. rewrite <- HV1.
      apply elem_of_cons in Hvx as [->|?]; [|by apply Hfresh2].
      eapply fresh_entry_frame; [exact Hf2|lia|exact Hx|by rewrite HV1].
Qed.

(** ** Discovery and move keep the invariant *)

Lemma wf_graph_frame P g h : frame P g h → wf_graph g → wf_graph h.
Proof.
  intros (HV & _ & _ & _ & _ & st & st' & E & E' & Hlen & _) (st0 & E0 & Hwf).
  simplify_eq. exists st'. split; [done|]. rewrite HV, Hlen. done.
Qed.

Lemma wf_values_ids V rows :
  (∀ k vx, V !! k = Some vx → wf_vertex V rows k vx) →
  prescinct_id <$> (map_to_list V).*2 = (map_to_list V).*1.
Proof.
  intros Hwf. rewrite <- list_fmap_compose. apply list_fmap_ext.
  intros i [k vx] Hi. simpl.
  apply list_elem_of_lookup_2, elem_of_map_to_list in Hi.
  by destruct (Hwf k vx Hi).
Qed.

(** get_border_vertices on a well-formed graph with nothing recorded
    returns, and establishes the border invariant. *)
Lemma discover_spec g :
  wf_graph g → unmarked g →
  ∃ h, get_border_vertices g = (h, Ok tt) ∧
    frame (λ u, is_Some (vertices g !! u)) g h ∧ wf_graph h ∧ border_inv h.
Proof.
  intros Hwf (Hb0 & Hs0 & Hr0). pose proof Hwf as (st & Hst & HV).
  unfold get_border_vertices. rewrite bind_eq. unfold get_self at 1.
  destruct (discover_loop (map_to_list (vertices g)).*2 g st) as (h & -> & Hf & Hfresh).
  - done.
  - rewrite (wf_values_ids _ _ HV). apply NoDup_fst_map_to_list.
  - intros vx Hvx. apply list_elem_of_fmap in Hvx as ([k vx'] & -> & Hvx).
    apply elem_of_map_to_list in Hvx. simpl.
    destruct (HV k vx' Hvx) as (Hid & Hrange & Hadj). subst k.
    split; [done|]. split; [done|].
    split; [|split].
    + intros d. by rewrite Hb0.
    + by rewrite Hs0.
    + by apply Hr0.
  - assert (frame (λ u, is_Some (vertices g !! u)) g h) as Hf'.
    { eapply frame_mono; [|done]. simpl. intros u Hu.
      rewrite (wf_values_ids _ _ HV) in Hu.
      apply list_elem_of_fmap in Hu as ([k vx] & -> & Hu).
      apply elem_of_map_to_list in Hu. simpl. eauto. }
    exists h. split; [done|]. split; [done|].
    split; [by eapply wf_graph_frame|].
    pose proof Hf' as (HVh & _ & _ & Hfb & Hfs & _).
    unfold border_inv. rewrite HVh. split.
    + intros k vx Hk. apply Hfresh. apply list_elem_of_fmap.
      exists (k, vx). split; [done|]. by apply elem_of_map_to_list.
    + intros k Hk. split.
      * intros d. rewrite Hfb, Hb0; [done|]. rewrite Hk. by intros [? ?].
      * rewrite Hfs, Hs0; [done|]. rewrite Hk. by intros [? ?].
Qed.

Lemma comprehension_getitem l g :
  (∀ n, n ∈ l → is_Some (vertices g !! n)) →
  ∃ L, comprehension l vertices_getitem g = (g, Ok L) ∧
       Forall2 (λ n vx, vertices g !! n = Some vx) l L.
Proof.
  induction l as [|n l IH]; intros Hl.
  - exists []. split; [done|constructor].
  - destruct (Hl n) as [nx Hn]; [by left|].
    destruct IH as (L & E & HL); [intros; apply Hl; by right|].
    exists (nx :: L). split; [|by constructor].
    simpl. rewrite bind_eq. unfold vertices_getitem at 1. rewrite Hn.
    rewrite bind_eq, E. done.
Qed.

Lemma border_districts_ext V V' vx :
  (∀ n, n ∈ adj_vertices vx → V' !! n = V !! n) →
  border_districts V' vx = border_districts V vx.
Proof.
  intros H. apply set_eq. intros d. rewrite !elem_of_border_districts.
  split; intros (Hd & n & nx & Hn & E & <-); (split; [done|]); exists n, nx.
  - by rewrite <- H.
  - by rewrite H.
Qed.

Lemma wf_set_district V rows p d vx :
  V !! p = Some vx →
  (∀ k y, V !! k = Some y → wf_vertex V rows k y) →
  ∀ k y, <[p := set_district_id d vx]> V !! k = Some y →
         wf_vertex (<[p := set_district_id d vx]> V) rows k y.
Proof.
  intros Hp Hwf k y Hy.
  assert (∃ y0, V !! k = Some y0 ∧ prescinct_id y = prescinct_id y0 ∧
                adj_vertices y = adj_vertices y0) as (y0 & Hy0 & Hid & Hadj).
  { destruct (decide (p = k)) as [->|Hne].
    - rewrite lookup_insert_eq in Hy. simplify_eq. eauto.
    - rewrite lookup_insert_ne in Hy by done. eauto. }
  destruct (Hwf k y0 Hy0) as (Hk & Hr & Hn).
  split; [congruence|]. split; [done|].
  intros n Hin. rewrite Hadj in Hin. rewrite lookup_insert_is_Some'. right.
  by apply Hn.
Qed.

Lemma symmetric_set_district V p d vx :
  V !! p = Some vx → symmetric V → symmetric (<[p := set_district_id d vx]> V).
Proof.
  intros Hp Hsym k y n ny Hk Hn Hny.
  assert (∃ y0, V !! k = Some y0 ∧ adj_vertices y = adj_vertices y0)
    as (y0 & Hy0 & Hadj).
  { destruct (decide (p = k)) as [->|Hne].
    - rewrite lookup_insert_eq in Hk. simplify_eq. eauto.
    - rewrite lookup_insert_ne in Hk by done. eauto. }
  assert (∃ n0, V !! n = Some n0 ∧ adj_vertices ny = adj_vertices n0)
    as (n0 & Hn0 & Hadjn).
  { destruct (decide (p = n)) as [->|Hne].
    - rewrite lookup_insert_eq in Hny. simplify_eq. eauto.
    - rewrite lookup_insert_ne in Hny by done. eauto. }
  rewrite Hadjn. rewrite Hadj in Hn. by eapply Hsym.
Qed.

Lemma fresh_entry_current V vx g d t :
  fresh_entry V vx g →
  vertex_on_border g !! (prescinct_id vx, d) = Some t →
  t = [prescinct_id vx; district_id vx; d].
Proof. intros (Hb & _) Ht. rewrite Hb in Ht. case_decide; by simplify_eq. Qed.

Lemma border_inv_entries_current g :
  wf_graph g → border_inv g → entries_current g.
Proof.
  intros (st & _ & HV) (Hinv & Hnone). split; [|done].
  intros k vx Hk. destruct (HV k vx Hk) as (<- & _).
  pose proof (Hinv _ vx Hk) as Hfr.
  split; [exact (fresh_entry_lockstep _ _ _ Hfr)|].
  split; [exact (fresh_entry_row_plain _ _ _ Hfr)|].
  intros d t. by apply (fresh_entry_current _ _ _ _ _ Hfr).
Qed.

(** A move whose two checks pass, on a well-formed graph whose entries
    are current: it returns, the vertex has its new district, only the
    entries of the moved vertex and of its neighbours were touched, and
    these are rebuilt from their neighbours. Adjacency need not be
    symmetric. *)
Lemma move_run g p d vx :
  wf_graph g → entries_current g →
  vertices g !! p = Some vx → d ≠ district_id vx →
  (p, d) ∈ dom (vertex_on_border g) →
  ∃ h, change_vertex_district p d g = (h, Ok tt) ∧
    wf_graph h ∧ entries_current h ∧
    frame (λ u, u = p ∨ u ∈ adj_vertices vx)
          (with_vertices <[p := set_district_id d vx]> g) h ∧
    (∀ k y, vertices h !! k = Some y → k = p ∨ k ∈ adj_vertices vx →
            fresh_entry (vertices h) y h) ∧
    keys_kept g h.
Proof.
  intros (st & Hst & Hwf) (Hcur & Hnone) Hp Hd Hdom.
  destruct (Hwf p vx Hp) as (Hid & Hrange & Hclosed).
  set (vx' := set_district_id d vx).
  set (g1 := with_vertices <[p := vx']> g).
  assert (∀ k y, vertices g1 !! k = Some y →
                 wf_vertex (vertices g1) (length st) k y) as Hwf1.
  { by apply wf_set_district. }
  unfold change_vertex_district.
  rewrite bind_eq. unfold vertices_getitem at 1. rewrite Hp.
  rewrite decide_False by done.
  rewrite bind_eq. unfold get_self at 1.
  rewrite decide_False by (by intros H; apply H).
  rewrite bind_eq. unfold vertices_set_district at 1.
  rewrite bind_eq. unfold vertices_getitem at 1. rewrite Hp.
  unfold modify_self at 1. fold vx'. fold g1.
  destruct (state_setitem_col0_spec p d g1 st) as (g2 & E2 & Hf2 & Hb2 & Hs2 & Hr2);
    [done..|].
  rewrite bind_eq, E2.
  pose proof Hf2 as (HV2 & _ & _ & _ & _ & st1 & st2 & E1 & Est2 & Hlen & _).
  assert (st1 = st) as -> by (simpl in E1; congruence). clear E1.
  assert (vertices g2 !! p = Some vx') as Hp2.
  { rewrite HV2. simpl. by rewrite lookup_insert_eq. }
  rewrite bind_eq. unfold vertices_getitem at 1. rewrite Hp2.
  destruct (comprehension_getitem (elements (adj_vertices vx')) g2) as (L & EL & HL).
  { intros n Hn. apply elem_of_elements in Hn. rewrite HV2.
    destruct (Hwf1 p vx') as (_ & _ & Hadj1); [by simpl; rewrite lookup_insert_eq|].
    by apply Hadj1. }
  rewrite bind_eq, EL.
  rewrite bind_eq. unfold vertices_getitem at 1. rewrite Hp2.
  assert (∀ y, y ∈ L ++ [vx'] →
            vertices g1 !! prescinct_id y = Some y ∧
            (prescinct_id y = p ∨ prescinct_id y ∈ adj_vertices vx)) as HLin.
  { intros y Hy. apply elem_of_app in Hy as [Hy|Hy].
    - apply list_elem_of_lookup in Hy as [i Hi].
      destruct (Forall2_lookup_r _ _ _ _ _ HL Hi) as (n & Hn & Hny).
      rewrite HV2 in Hny. destruct (Hwf1 n y Hny) as (-> & _).
      split; [done|]. right.
      apply list_elem_of_lookup_2, elem_of_elements in Hn. done.
    - apply list_elem_of_singleton in Hy as ->. simpl.
      rewrite Hid, lookup_insert_eq. eauto. }
  destruct (refresh_loop (L ++ [vx']) g2 st2) as (h & -> & Hf & Hfresh & Hkeys);
    [done| |].
  { intros y Hy. destruct (HLin y Hy) as (Hy1 & _).
    destruct (Hwf1 _ y Hy1) as (_ & Hry & Hady).
    rewrite HV2, Hlen. split; [done|]. split; [done|]. split; [done|].
    assert (∃ y0, vertices g !! prescinct_id y = Some y0 ∧
                  prescinct_id y0 = prescinct_id y ∧
                  (prescinct_id y ≠ p → y0 = y)) as (y0 & Hy0 & Hid0 & Hsame).
    { simpl in Hy1. destruct (decide (p = prescinct_id y)) as [Heq|Hne].
      - rewrite <- Heq. exists vx. split; [done|]. split; [congruence|done].
      - rewrite lookup_insert_ne in Hy1 by done. eauto. }
    destruct (Hcur _ _ Hy0) as (Hlock0 & Hrow0 & _).
    split.
    - intros e. rewrite Hb2, Hs2. simpl. apply Hlock0.
    - destruct (decide (prescinct_id y = p)) as [Heq|Hne].
      + assert (y = vx') as ->.
        { rewrite Heq in Hy1. simpl in Hy1. rewrite lookup_insert_eq in Hy1. congruence. }
        intros _. simpl. rewrite Hid. done.
      + rewrite (Hsame Hne) in Hrow0.
        eapply row_plain_frame; [exact Hf2|lia|done|done]. }
  assert (frame (λ u, u = p ∨ u ∈ adj_vertices vx) g1 h) as Hframe.
  { eapply frame_trans; (eapply frame_mono; [|done]); simpl.
    - intros u ->. by left.
    - intros u (y & Hy & <-). by destruct (HLin y Hy). }
  pose proof Hframe as (HVh & _ & _ & Hfb & Hfs & _).
  assert (∀ k y, vertices h !! k = Some y → k = p ∨ k ∈ adj_vertices vx →
                 fresh_entry (vertices h) y h) as Haffected.
  { intros k y Hy Haff. rewrite HVh in Hy. rewrite HVh, <- HV2. apply Hfresh.
    destruct Haff as [->|Hk].
    - simpl in Hy. rewrite lookup_insert_eq in Hy. simplify_eq.
      apply elem_of_app. right. by apply list_elem_of_singleton.
    - apply elem_of_app. left.
      assert (k ∈ elements (adj_vertices vx')) as Hk' by by apply elem_of_elements.
      apply list_elem_of_lookup in Hk' as [i Hi].
      destruct (Forall2_lookup_l _ _ _ _ _ HL Hi) as (y' & Hy' & Hky').
      rewrite HV2 in Hky'. simplify_eq. by eapply list_elem_of_lookup_2. }
  exists h. split; [done|].
  split; [by eapply wf_graph_frame; [exact Hframe|exists st]|].
  split; [|split; [done|split; [done|]]].
  - split.
    + intros k y Hy. pose proof Hy as Hy'. rewrite HVh in Hy'.
      destruct (Hwf1 k y Hy') as (Hky & Hry & Hady).
      destruct (decide (k = p ∨ k ∈ adj_vertices vx)) as [Haff|Hno].
      * pose proof (Haffected k y Hy Haff) as Hfr. rewrite <- Hky.
        split; [exact (fresh_entry_lockstep _ _ _ Hfr)|].
        split; [exact (fresh_entry_row_plain _ _ _ Hfr)|].
        intros e t. by apply (fresh_entry_current _ _ _ _ _ Hfr).
      * assert (k ≠ p ∧ k ∉ adj_vertices vx) as [Hkp Hka] by tauto.
        simpl in Hy'. rewrite lookup_insert_ne in Hy' by done.
        destruct (Hcur k y Hy') as (Hlock0 & Hrow0 & Hdesc0).
        split; [by eapply (lockstep_frame _ g1 h)|].
        split; [eapply (row_plain_frame _ g1 h); [done|lia|by rewrite Hky|done]|].
        intros e t. rewrite Hfb by done. apply Hdesc0.
    + intros k Hk. rewrite HVh in Hk. simpl in Hk.
      assert (k ≠ p) as Hkp by (intros ->; by rewrite lookup_insert_eq in Hk).
      rewrite lookup_insert_ne in Hk by done.
      assert (¬ (k = p ∨ k ∈ adj_vertices vx)) as Hno.
      { intros [?|Hin]; [done|]. destruct (Hclosed k Hin) as [? ?]. congruence. }
      destruct (Hnone k Hk) as [Hbk Hsk].
      split; [intros e; by rewrite Hfb|by rewrite Hfs].
  - intros u Hu. apply Hkeys. by rewrite Hs2.
Qed.

(** With symmetric adjacency the move keeps the whole border invariant:
    a vertex that is neither the moved one nor one of its neighbours does
    not list the moved vertex, so its bordered districts are unchanged. *)
Lemma move_spec g p d vx :
  wf_graph g → symmetric (vertices g) → border_inv g →
  vertices g !! p = Some vx → d ≠ district_id vx →
  (p, d) ∈ dom (vertex_on_border g) →
  ∃ h, change_vertex_district p d g = (h, Ok tt) ∧
    wf_graph h ∧ symmetric (vertices h) ∧ border_inv h ∧
    frame (λ u, u = p ∨ u ∈ adj_vertices vx)
          (with_vertices <[p := set_district_id d vx]> g) h ∧
    keys_kept g h.
Proof.
  intros Hwfg Hsym Hinv Hp Hd Hdom.
  destruct (move_run g p d vx Hwfg (border_inv_entries_current g Hwfg Hinv) Hp Hd Hdom)
    as (h & E & Hwfh & (_ & Hnoneh) & Hframe & Haffected & Hkeys).
  destruct Hwfg as (st & Hst & Hwf). destruct Hinv as (Hinv & Hnone).
  exists h. split; [done|]. split; [done|].
  pose proof Hframe as (HVh & _).
  split; [rewrite HVh; simpl; by apply symmetric_set_district|].
  split; [|done].
  split; [|done].
  intros k y Hy.
  destruct (decide (k = p ∨ k ∈ adj_vertices vx)) as [Haff|Hno]; [by eapply Haffected|].
  assert (k ≠ p ∧ k ∉ adj_vertices vx) as [Hkp Hka] by tauto.
  rewrite HVh in Hy. simpl in Hy. rewrite lookup_insert_ne in Hy by done.
  destruct (Hwf k y Hy) as (Hky & Hry & _).
  eapply fresh_entry_frame; [exact Hframe|lia|by rewrite Hky|].
  pose proof (Hinv _ _ Hy) as Hfr.
  assert (border_districts (vertices h) y = border_districts (vertices g) y) as HBD.
  { apply border_districts_ext. intros n Hn. rewrite HVh. simpl.
    apply lookup_insert_ne. intros <-.
    apply Hka. by eapply (Hsym k y p vx). }
  unfold fresh_entry. rewrite HBD. exact Hfr.
Qed.

(** ** Discovery on a graph that already satisfies the invariant *)

Lemma update_border_noop vx nx g st :
  state g = Some st → 0 ≤ prescinct_id vx < Z.of_nat (length st) →
  vertex_on_border g !! (prescinct_id vx, district_id nx)
  = Some [prescinct_id vx; district_id vx; district_id nx] →
  district_id nx ∈ default ∅ (district_id_on_border_of_vertex g !! prescinct_id vx) →
  row_col0 g (Z.to_nat (prescinct_id vx)) = Some (- district_id vx) →
  update_border vx nx g = (g, Ok tt).
Proof.
  intros Hst Hw Hb Hs Hr.
  rewrite (update_border_eq _ _ _ st (Z.to_nat (prescinct_id vx)))
    by (done || by apply py_index_in_range).
  f_equal. unfold update_border_result. destruct g as [vob dob V dev mx sta].
  simpl in *. subst sta. f_equal.
  - by apply insert_id.
  - destruct (dob !! prescinct_id vx) as [s|] eqn:E; simpl in *; [|set_solver].
    apply insert_id. rewrite E. f_equal. set_solver.
  - f_equal. apply list_eq. intros j.
    destruct (decide (j = Z.to_nat (prescinct_id vx))) as [->|Hne].
    + rewrite list_lookup_alter_eq. unfold row_col0 in Hr. simpl in Hr.
      destruct (st !! Z.to_nat (prescinct_id vx)) as [[c0 cs]|]; simpl in *; [|done].
      congruence.
    + by rewrite list_lookup_alter_ne.
Qed.

Lemma scan_adjacent_noop vx g st :
  state g = Some st → 0 ≤ prescinct_id vx < Z.of_nat (length st) →
  (∀ n, n ∈ adj_vertices vx → is_Some (vertices g !! n)) →
  fresh_entry (vertices g) vx g →
  scan_adjacent vx g = (g, Ok tt).
Proof.
  intros Hst Hw Hadj (Hb & Hs & Hr). unfold scan_adjacent.
  apply for_each_noop. intros n Hn. apply elem_of_elements in Hn.
  destruct (Hadj n Hn) as [nx Hnx].
  rewrite bind_eq. unfold vertices_getitem. rewrite Hnx.
  destruct (decide (district_id vx ≠ district_id nx)) as [Hne|]; [|done].
  assert (district_id nx ∈ border_districts (vertices g) vx) as HD.
  { apply elem_of_border_districts. split; [done|]. eauto. }
  eapply update_border_noop; [done|done| | |].
  - by rewrite Hb, decide_True.
  - by rewrite Hs.
  - rewrite Hr, decide_False; [done|]. set_solver.
Qed.

(** get_border_vertices changes nothing once the invariant holds. *)
Lemma discover_noop g :
  wf_graph g → border_inv g → get_border_vertices g = (g, Ok tt).
Proof.
  intros (st & Hst & Hwf) (Hinv & _).
  unfold get_border_vertices. rewrite bind_eq. unfold get_self at 1.
  apply for_each_noop. intros vx Hvx.
  apply list_elem_of_fmap in Hvx as ([k vx'] & -> & Hvx).
  apply elem_of_map_to_list in Hvx. simpl.
  destruct (Hwf k vx' Hvx) as (Hid & Hrange & Hadj). subst k.
  eapply scan_adjacent_noop; [done|done|done|by eapply Hinv].
Qed.

(** A move that returns has passed the lookup and both checks. *)
Lemma move_ok_inv p d g g' :
  change_vertex_district p d g = (g', Ok tt) →
  ∃ vx, vertices g !! p = Some vx ∧ d ≠ district_id vx ∧
        (p, d) ∈ dom (vertex_on_border g).
Proof.
  unfold change_vertex_district. rewrite bind_eq.
  unfold vertices_getitem at 1.
  destruct (vertices g !! p) as [vx|]; [|done].
  destruct (decide (d = district_id vx)) as [Hd|Hd]; [by unfold raise|].
  rewrite bind_eq. unfold get_self at 1.
  destruct (decide ((p, d) ∉ dom (vertex_on_border g))) as [Hdom|Hdom];
    [by unfold raise|].
  intros _. exists vx. split; [done|]. split; [done|].
  by apply dec_stable.
Qed.

(** ** Construction *)

Lemma wf_vertices_b_spec V rows :
  wf_vertices_b V rows = true ↔ ∀ k vx, V !! k = Some vx → wf_vertex V rows k vx.
Proof.
  unfold wf_vertices_b. rewrite forallb_forall. split.
  - intros H k vx Hk.
    specialize (H (k, vx)). simpl in H.
    rewrite <- list_elem_of_In, elem_of_map_to_list in H. specialize (H Hk).
    rewrite !andb_true_iff, !bool_decide_eq_true, forallb_forall in H.
    destruct H as [[Hid Hr] Hadj]. split; [done|]. split; [done|].
    intros n Hn. specialize (Hadj n).
    rewrite <- list_elem_of_In, elem_of_elements in Hadj. specialize (Hadj Hn).
    by apply bool_decide_eq_true in Hadj.
  - intros H [k vx] Hk. simpl.
    rewrite <- list_elem_of_In, elem_of_map_to_list in Hk.
    destruct (H k vx Hk) as (Hid & Hr & Hadj).
    rewrite !andb_true_iff, !bool_decide_eq_true, forallb_forall.
    split; [done|]. intros n Hn.
    rewrite <- list_elem_of_In, elem_of_elements in Hn.
    apply bool_decide_eq_true. by apply Hadj.
Qed.

Lemma symmetric_b_spec V : symmetric_b V = true ↔ symmetric V.
Proof.
  unfold symmetric_b. rewrite forallb_forall. split.
  - intros H k vx n nx Hk Hn Hnx.
    specialize (H (k, vx)). simpl in H.
    rewrite <- list_elem_of_In, elem_of_map_to_list in H. specialize (H Hk).
    rewrite forallb_forall in H. specialize (H n).
    rewrite <- list_elem_of_In, elem_of_elements in H. specialize (H Hn).
    rewrite Hnx in H. by apply bool_decide_eq_true in H.
  - intros H [k vx] Hk. simpl.
    rewrite <- list_elem_of_In, elem_of_map_to_list in Hk.
    rewrite forallb_forall. intros n Hn.
    rewrite <- list_elem_of_In, elem_of_elements in Hn.
    destruct (V !! n) as [nx|] eqn:Hnx; [|done].
    apply bool_decide_eq_true. by eapply (H k vx n nx).
Qed.

Lemma set_adj_fields l : ∀ v,
  prescinct_id (set_adj l v) = prescinct_id v ∧
  district_id (set_adj l v) = district_id v ∧
  (size (adj_vertices (set_adj l v)) ≤ length l + size (adj_vertices v))%nat.
Proof.
  induction l as [|x l IH]; intros v; [simpl; lia|].
  destruct (IH (mkVertex (prescinct_id v) (district_id v) ({[x]} ∪ adj_vertices v)))
    as (Hid & Hd & Hs).
  simpl in *. fold (set_adj l) in *. split; [done|]. split; [done|].
  etrans; [exact Hs|].
  rewrite size_union_alt, size_singleton.
  assert (size (adj_vertices v ∖ {[x]}) ≤ size (adj_vertices v))%nat as Hsub
    by (apply subseteq_size; set_solver).
  lia.
Qed.

Lemma load_rows_cons index cd_2020 adj df mx V :
  load_rows ((index, cd_2020, adj) :: df) mx V
  = load_rows df (if decide (mx < length adj)%nat then length adj else mx)
      (<[index := set_adj adj (Vertex_init index cd_2020)]> V).
Proof. reflexivity. Qed.

(** every vertex built by the first loop has at most
    [max_adjacent_vertices] neighbours *)
Lemma load_rows_bound df : ∀ mx V,
  (∀ k vx, V !! k = Some vx → (size (adj_vertices vx) ≤ mx)%nat) →
  ∀ k vx, (load_rows df mx V).2 !! k = Some vx →
          (size (adj_vertices vx) ≤ (load_rows df mx V).1)%nat.
Proof.
  induction df as [|[[index cd] adj] df IH]; intros mx V HV k vx; [by apply HV|].
  rewrite load_rows_cons. apply IH. clear k vx. intros k vx Hk.
  destruct (decide (index = k)) as [->|Hne].
  - rewrite lookup_insert_eq in Hk. simplify_eq.
    destruct (set_adj_fields adj (Vertex_init k cd)) as (_ & _ & Hs).
    change (adj_vertices (Vertex_init k cd)) with (∅ : gset Z) in Hs.
    rewrite size_empty in Hs. case_decide; lia.
  - rewrite lookup_insert_ne in Hk by done. specialize (HV k vx Hk).
    case_decide; lia.
Qed.

(** One turn of the loop that fills the state tensor, on a valid row. *)
Lemma fill_row_spec mx k vx g st :
  state g = Some st → 0 ≤ k < Z.of_nat (length st) →
  (∀ j r, st !! j = Some r → length r.2 = mx) →
  (size (adj_vertices vx) ≤ mx)%nat →
  ∃ t, fill_row mx (k, vx) g
       = (with_state (Some (<[Z.to_nat k := (district_id vx, t)]> st)) g, Ok tt) ∧
       length t = mx.
Proof.
  intros Hst Hk Hrows Hsize. unfold fill_row. simpl.
  rewrite bind_eq. unfold state_setitem_col0. rewrite Hst, py_index_in_range by done.
  change (length (elements (adj_vertices vx))) with (size (adj_vertices vx)).
  rewrite decide_True by done.
  destruct (lookup_lt_is_Some_2 st (Z.to_nat k)) as [r Hr]; [lia|].
  unfold state_setitem_cols. simpl.
  rewrite length_alter, py_index_in_range by done.
  rewrite list_lookup_alter_eq, Hr. simpl.
  set (t := elements (adj_vertices vx) ++ replicate (mx - size (adj_vertices vx)) 0).
  assert (length t = mx) as Ht.
  { unfold t. rewrite length_app, length_replicate.
    change (length (elements (adj_vertices vx))) with (size (adj_vertices vx)). lia. }
  rewrite decide_True by (rewrite Ht; by eapply Hrows).
  exists t. split; [|done]. unfold with_state. simpl. do 3 f_equal.
  apply list_eq. intros j. destruct (decide (j = Z.to_nat k)) as [->|Hne].
  - rewrite !list_lookup_insert_eq; [done|lia|rewrite length_alter; lia].
  - rewrite !list_lookup_insert_ne by done. by rewrite list_lookup_alter_ne.
Qed.

(** The loop that fills the state tensor, over items with distinct ids
    that are valid rows. *)
Lemma fill_loop mx L : ∀ g st,
  state g = Some st →
  (∀ j r, st !! j = Some r → length r.2 = mx) →
  NoDup L.*1 →
  (∀ k vx, (k, vx) ∈ L →
     0 ≤ k < Z.of_nat (length st) ∧ (size (adj_vertices vx) ≤ mx)%nat) →
  ∃ st', for_each L (fill_row mx) g = (with_state (Some st') g, Ok tt) ∧
    length st' = length st ∧
    (∀ k vx, (k, vx) ∈ L → fst <$> st' !! Z.to_nat k = Some (district_id vx)) ∧
    (∀ j, (∀ k vx, (k, vx) ∈ L → Z.to_nat k ≠ j) → st' !! j = st !! j).
Proof.
  induction L as [|[k vx] L IH]; intros g st Hst Hrows Hnd HL.
  - exists st. split; [|split; [done|split; [|done]]].
    + simpl. rewrite mret_eq. f_equal. destruct g. simpl in *. by subst.
    + intros k vx Hk. by apply elem_of_nil in Hk.
  - rewrite fmap_cons in Hnd. apply NoDup_cons in Hnd as [Hk Hnd]. simpl in Hk.
    destruct (HL k vx) as [Hr Hs]; [by left|].
    destruct (fill_row_spec mx k vx g st) as (t & E1 & Ht); [done..|].
    set (st1 := <[Z.to_nat k := (district_id vx, t)]> st) in *.
    destruct (IH (with_state (Some st1) g) st1) as (st' & E2 & Hlen & Hcol & Hfr).
    + done.
    + intros j r Hj. unfold st1 in Hj.
      destruct (decide (j = Z.to_nat k)) as [->|Hne].
      * rewrite list_lookup_insert_eq in Hj by lia. by simplify_eq.
      * rewrite list_lookup_insert_ne in Hj by done. by eapply Hrows.
    + done.
    + intros k' vx' Hk'. unfold st1. rewrite length_insert. apply HL. by right.
    + exists st'. rewrite for_each_cons, bind_eq, E1, E2.
      split; [done|]. unfold st1 in *. rewrite length_insert in Hlen.
      split; [done|]. split.
      * intros k' vx' Hk'. apply elem_of_cons in Hk' as [Heq|Hin]; [|by eapply Hcol].
        simplify_eq. rewrite Hfr.
        -- rewrite list_lookup_insert_eq by lia. done.
        -- intros k' vx' Hin Heq. destruct (HL k' vx') as [? _]; [by right|].
           assert (k' = k) as -> by lia.
           apply Hk. apply list_elem_of_fmap. by exists (k, vx').
      * intros j Hj. rewrite Hfr.
        -- rewrite list_lookup_insert_ne; [done|]. eapply Hj. by left.
        -- intros k' vx' Hin. eapply Hj. by right.
Qed.

(** graph_from_json, on a data frame whose ids are rows of the tensor it
    allocates, returns a graph with nothing recorded. *)
Lemma construct_spec dev df :
  (∀ k vx, vertices_of df !! k = Some vx →
           0 ≤ k < Z.of_nat (size (vertices_of df))) →
  ∃ g st, graph_from_json df (Graph_init dev) = (g, Ok tt) ∧
    vertices g = vertices_of df ∧
    state g = Some st ∧ length st = size (vertices_of df) ∧ unmarked g.
Proof.
  intros Hrange.
  unfold graph_from_json. rewrite bind_eq. unfold get_self at 1.
  rewrite bind_eq. unfold modify_self at 1.
  rewrite bind_eq. unfold get_self at 1.
  rewrite bind_eq. unfold modify_self at 1.
  rewrite bind_eq. unfold get_self at 1. simpl.
  fold (vertices_of df).
  set (mx := (load_rows df 0%nat ∅).1).
  set (V := vertices_of df) in *.
  set (g1 := with_state _ _).
  destruct (fill_loop mx (map_to_list V) g1 (zeros (size V) mx))
    as (st' & -> & Hlen & Hcol & _).
  - done.
  - intros j r Hj. unfold zeros in Hj. apply lookup_replicate in Hj as [-> _].
    simpl. by rewrite length_replicate.
  - apply NoDup_fst_map_to_list.
  - intros k vx Hk. apply elem_of_map_to_list in Hk.
    unfold zeros. rewrite length_replicate. split; [by eapply Hrange|].
    unfold mx. eapply (load_rows_bound df 0%nat ∅); [|exact Hk].
    intros k' vx' Hk'. by rewrite lookup_empty in Hk'.
  - unfold zeros in Hlen. rewrite length_replicate in Hlen.
    eexists _, st'. split; [done|]. split; [done|]. split; [done|].
    split; [done|]. split; [done|]. split; [done|].
    intros k vx Hk. unfold row_col0. simpl. apply Hcol.
    by apply elem_of_map_to_list.
Qed.

(** *** What a run that returned tells about the data frame *)

Lemma for_each_ok_inv {A} (I : Graph → Prop) (body : A → M unit) l :
  (∀ x g, I g → I (body x g).1) →
  ∀ g, I g → (for_each l body g).2 = Ok tt →
  ∀ x, x ∈ l → ∃ g', I g' ∧ (body x g').2 = Ok tt.
Proof.
  intros Hbody. induction l as [|y l IH]; intros g Hg Hok x Hx.
  - by apply elem_of_nil in Hx.
  - rewrite for_each_cons, bind_eq in Hok.
    pose proof (Hbody y g Hg) as Hh.
    destruct (body y g) as [h [[]|e]] eqn:E; simpl in *; [|done].
    apply elem_of_cons in Hx as [->|Hx].
    + exists g. split; [done|]. by rewrite E.
    + by eapply IH.
Qed.

Lemma py_index_Some n i k : py_index n i = Some k → - Z.of_nat n ≤ i < Z.of_nat n.
Proof. unfold py_index. repeat case_decide; intros; simplify_eq; lia. Qed.

Lemma fill_row_state_length mx item g st :
  state g = Some st →
  ∃ st', state (fill_row mx item g).1 = Some st' ∧ length st' = length st.
Proof.
  intros Hst. unfold fill_row. rewrite bind_eq. unfold state_setitem_col0.
  rewrite Hst. destruct (py_index (length st) item.1) as [k|] eqn:Hk; [|eauto].
  assert (∀ st' : Tensor, length st' = length st →
            ∃ st'', Some st' = Some st'' ∧ length st'' = length st) as Hex by eauto.
  case_decide; [|apply Hex, length_alter].
  unfold state_setitem_cols. simpl. rewrite length_alter, Hk.
  destruct (alter _ k st !! k); [|apply Hex, length_alter].
  case_decide; simpl; apply Hex; [rewrite length_insert|]; apply length_alter.
Qed.

(** the ids of a data frame that graph_from_json accepted are indices
    into the rows of the state tensor *)
Lemma construct_ok_range dev df g0 :
  graph_from_json df (Graph_init dev) = (g0, Ok tt) →
  ∀ k vx, vertices_of df !! k = Some vx →
          - Z.of_nat (size (vertices_of df)) ≤ k < Z.of_nat (size (vertices_of df)).
Proof.
  unfold graph_from_json. rewrite bind_eq. unfold get_self at 1.
  rewrite bind_eq. unfold modify_self at 1.
  rewrite bind_eq. unfold get_self at 1.
  rewrite bind_eq. unfold modify_self at 1.
  rewrite bind_eq. unfold get_self at 1. simpl.
  fold (vertices_of df).
  set (mx := (load_rows df 0%nat ∅).1).
  set (V := vertices_of df) in *.
  set (g1 := with_state _ _).
  intros E k vx Hk.
  destruct (for_each_ok_inv
              (λ g, ∃ st, state g = Some st ∧ length st = size V)
              (fill_row mx) (map_to_list V)) with (g := g1) (x := (k, vx))
    as (g' & (st & Hst & Hlen) & Hok).
  - intros x g (st & Hst & Hlen).
    destruct (fill_row_state_length mx x g st Hst) as (st' & ? & ?).
    exists st'. split; [done|congruence].
  - eexists. split; [done|]. unfold zeros. by rewrite length_replicate.
  - by rewrite E.
  - by apply elem_of_map_to_list.
  - unfold fill_row in Hok. rewrite bind_eq in Hok. unfold state_setitem_col0 in Hok.
    rewrite Hst in Hok. simpl in Hok.
    destruct (py_index (length st) k) as [j|] eqn:Hj; [|done].
    apply py_index_Some in Hj. by rewrite Hlen in Hj.
Qed.

Lemma load_rows_keys df : ∀ mx V,
  (∀ k vx, V !! k = Some vx → prescinct_id vx = k ∧ 0 ≤ k) →
  nonneg_ids df = true →
  ∀ k vx, (load_rows df mx V).2 !! k = Some vx → prescinct_id vx = k ∧ 0 ≤ k.
Proof.
  induction df as [|[[index cd] adj] df IH]; intros mx V HV Hnn k vx; [by apply HV|].
  simpl in Hnn. apply andb_true_iff in Hnn as [Hi Hnn].
  apply bool_decide_eq_true in Hi. simpl in Hi.
  rewrite load_rows_cons. apply IH; [|done]. clear k vx. intros k vx Hk.
  destruct (decide (index = k)) as [->|Hne].
  - rewrite lookup_insert_eq in Hk. simplify_eq.
    destruct (set_adj_fields adj (Vertex_init k cd)) as (Hid & _). done.
  - rewrite lookup_insert_ne in Hk by done. by apply HV.
Qed.

Lemma update_border_vertices vx nx g :
  vertices (update_border vx nx g).1 = vertices g.
Proof.
  unfold update_border. rewrite bind_eq. unfold modify_self at 1.
  rewrite bind_eq. unfold state_setitem_col0. simpl.
  destruct (state g) as [st|]; [|done].
  destruct (py_index _ _) as [k|]; [|done].
  rewrite bind_eq. unfold get_self at 1. rewrite bind_eq. simpl.
  destruct (district_id_on_border_of_vertex g !! prescinct_id vx) as [s|] eqn:Hs.
  - rewrite mret_eq. unfold district_id_on_border_of_vertex_add. simpl. by rewrite Hs.
  - unfold modify_self, district_id_on_border_of_vertex_add. simpl.
    by rewrite lookup_insert_eq.
Qed.

Lemma scan_body_vertices vx n g :
  vertices ((adj_vertex ← vertices_getitem n;
             if decide (district_id vx ≠ district_id adj_vertex)
             then update_border vx adj_vertex else mret tt) g).1
  = vertices g.
Proof.
  rewrite bind_eq. unfold vertices_getitem.
  destruct (vertices g !! n) as [nx|]; [|done].
  case_decide; [apply update_border_vertices|done].
Qed.

Lemma scan_adjacent_vertices vx g : vertices (scan_adjacent vx g).1 = vertices g.
Proof.
  unfold scan_adjacent.
  apply (for_each_preserves (λ h, vertices h = vertices g)); [|done].
  intros n h Hh. by rewrite scan_body_vertices.
Qed.

(** every neighbour listed in a graph on which get_border_vertices
    returned is a vertex of the graph *)
Lemma discover_ok_closed g0 g1 :
  get_border_vertices g0 = (g1, Ok tt) →
  ∀ k vx, vertices g0 !! k = Some vx →
  ∀ n, n ∈ adj_vertices vx → is_Some (vertices g0 !! n).
Proof.
  unfold get_border_vertices. rewrite bind_eq. unfold get_self at 1.
  intros E k vx Hk n Hn.
  destruct (for_each_ok_inv (λ g, vertices g = vertices g0) scan_adjacent
              (map_to_list (vertices g0)).*2) with (g := g0) (x := vx)
    as (g' & HV' & Hok).
  - intros x g Hg. by rewrite scan_adjacent_vertices.
  - done.
  - by rewrite E.
  - apply list_elem_of_fmap. exists (k, vx). split; [done|].
    by apply elem_of_map_to_list.
  - unfold scan_adjacent in Hok.
    destruct (for_each_ok_inv (λ g, vertices g = vertices g0)
                (λ adj_vertex_id,
                   adj_vertex ← vertices_getitem adj_vertex_id;
                   if decide (district_id vx ≠ district_id adj_vertex)
                   then update_border vx adj_vertex else mret tt)
                (elements (adj_vertices vx))) with (g := g') (x := n)
      as (g'' & HV'' & Hok'').
    + intros x g Hg. by rewrite scan_body_vertices.
    + done.
    + done.
    + by apply elem_of_elements.
    + rewrite bind_eq in Hok''. unfold vertices_getitem in Hok''.
      rewrite HV'' in Hok''. by destruct (vertices g0 !! n).
Qed.

(** ** Reachable graphs *)

Lemma fill_row_border mx item g :
  vertex_on_border (fill_row mx item g).1 = vertex_on_border g.
Proof.
  unfold fill_row. rewrite bind_eq. unfold state_setitem_col0.
  destruct (state g) as [st|] eqn:Hst; [|done].
  destruct (py_index (length st) item.1) as [k|] eqn:Hk; [|done].
  case_decide; [|done].
  unfold state_setitem_cols. simpl. rewrite length_alter, Hk.
  destruct (alter _ k st !! k); [|done]. by case_decide.
Qed.

(** graph_from_json records nothing in vertex_on_border *)
Lemma graph_from_json_border df g :
  vertex_on_border (graph_from_json df g).1 = vertex_on_border g.
Proof.
  unfold graph_from_json. rewrite bind_eq. unfold get_self at 1.
  rewrite bind_eq. unfold modify_self at 1.
  rewrite bind_eq. unfold get_self at 1.
  rewrite bind_eq. unfold modify_self at 1.
  rewrite bind_eq. unfold get_self at 1. simpl.
  apply (for_each_preserves (λ h, vertex_on_border h = vertex_on_border g)); [|done].
  intros x h Hh. by rewrite fill_row_border.
Qed.

Lemma nonneg_constructed_wf dev df g0 g1 :
  nonneg_ids df = true →
  graph_from_json df (Graph_init dev) = (g0, Ok tt) →
  get_border_vertices g0 = (g1, Ok tt) →
  vertices g0 = vertices_of df ∧ wf_graph g0 ∧ unmarked g0.
Proof.
  intros Hnn E0 E1.
  assert (∀ k vx, vertices_of df !! k = Some vx → prescinct_id vx = k ∧ 0 ≤ k)
    as Hkeys.
  { apply load_rows_keys; [|done]. intros k vx Hk. by rewrite lookup_empty in Hk. }
  destruct (construct_spec dev df) as (g0' & st & E0' & HV & Hst & Hlen & Hun).
  { intros k vx Hk. destruct (Hkeys k vx Hk) as [_ Hk0].
    pose proof (construct_ok_range dev df g0 E0 k vx Hk). lia. }
  assert (g0' = g0) as -> by congruence.
  split; [done|]. split; [|done].
  exists st. split; [done|]. intros k vx Hk.
  rewrite HV in Hk. destruct (Hkeys k vx Hk) as [Hid Hk0].
  split; [done|]. split.
  - pose proof (construct_ok_range dev df g0 E0 k vx Hk). lia.
  - rewrite <- HV in Hk. by eapply discover_ok_closed.
Qed.

Lemma wf_df_symmetric df : wf_df df = true → symmetric (vertices_of df).
Proof.
  unfold wf_df. rewrite andb_true_iff. intros [_ H]. by apply symmetric_b_spec.
Qed.

Lemma wf_df_nonneg df : wf_df df = true → nonneg_ids df = true.
Proof. unfold wf_df. rewrite andb_true_iff. by intros [H _]. Qed.

(** what holds of every reachable graph, symmetric adjacency or not *)
Lemma reachable_current df g :
  nonneg_ids df = true → reachable df g → wf_graph g ∧ entries_current g.
Proof.
  intros Hnn Hr.
  induction Hr as [dev g0 g1 E0 E1|g p d g' Hr (IHwf & IHcur) E].
  - destruct (nonneg_constructed_wf dev df g0 g1 Hnn E0 E1) as (HV & Hwf0 & Hun).
    destruct (discover_spec g0 Hwf0 Hun) as (h & Eh & _ & Hwfh & Hinvh).
    assert (h = g1) as -> by congruence.
    split; [done|]. by apply border_inv_entries_current.
  - destruct (move_ok_inv _ _ _ _ E) as (vx & Hp & Hd & Hdom).
    destruct (move_run g p d vx IHwf IHcur Hp Hd Hdom) as (h & Eh & Hwfh & Hcurh & _).
    assert (h = g') as -> by congruence. done.
Qed.

(** what holds of every reachable graph when adjacency is symmetric *)
Lemma reachable_inv df g :
  wf_df df = true → reachable df g →
  wf_graph g ∧ symmetric (vertices g) ∧ border_inv g.
Proof.
  intros Hwf Hr.
  induction Hr as [dev g0 g1 E0 E1|g p d g' Hr (IHwf & IHsym & IHinv) E].
  - destruct (nonneg_constructed_wf dev df g0 g1 (wf_df_nonneg df Hwf) E0 E1)
      as (HV & Hwf0 & Hun).
    destruct (discover_spec g0 Hwf0 Hun) as (h & Eh & (HVh & _) & Hwfh & Hinvh).
    assert (h = g1) as -> by congruence.
    split; [done|]. split; [|done]. rewrite HVh, HV. by apply wf_df_symmetric.
  - destruct (move_ok_inv _ _ _ _ E) as (vx & Hp & Hd & Hdom).
    destruct (move_spec g p d vx IHwf IHsym IHinv Hp Hd Hdom)
      as (h & Eh & Hwfh & Hsymh & Hinvh & _).
    assert (h = g') as -> by congruence. done.
Qed.

(** Construction and discovery return on every data frame whose ids are
    the rows 0..n-1 and whose neighbours are vertices. *)
Lemma discovery_returns dev df :
  wf_vertices_b (vertices_of df) (size (vertices_of df)) = true →
  ∃ g0 g1, graph_from_json df (Graph_init dev) = (g0, Ok tt) ∧
           get_border_vertices g0 = (g1, Ok tt).
Proof.
  intros Hwf. pose proof (proj1 (wf_vertices_b_spec _ _) Hwf) as HV.
  destruct (construct_spec dev df) as (g0 & st & E0 & HV0 & Hst & Hlen & Hun).
  { intros k vx Hk. by destruct (HV k vx Hk) as (_ & ? & _). }
  destruct (discover_spec g0) as (g1 & E1 & _); [|done|by eauto].
  exists st. split; [done|]. by rewrite HV0, Hlen.
Qed.

Lemma path_df_wf : wf_df path_df = true.
Proof. vm_compute. reflexivity. Qed.

Lemma path_g0_constructed :
  graph_from_json path_df (Graph_init "cpu") = (path_g0, Ok tt).
Proof. vm_compute. reflexivity. Qed.

Lemma path_g1_reachable : reachable path_df path_g1.
Proof.
  eapply reachable_discovered; [exact path_g0_constructed|].
  vm_compute. reflexivity.
Qed.

Lemma path_g2_moved : change_vertex_district 1 2 path_g1 = (path_g2, Ok tt).
Proof. vm_compute. reflexivity. Qed.

Lemma path_g2_reachable : reachable path_df path_g2.
Proof. eapply reachable_moved; [exact path_g1_reachable|exact path_g2_moved]. Qed.

(** ** Exceptions past the checks of a move *)

Lemma no_ValueError_bind {A B} (m : M A) (k : A → M B) :
  no_ValueError m → (∀ a, no_ValueError (k a)) → no_ValueError (m ≫= k).
Proof.
  intros Hm Hk g msg. rewrite bind_eq. specialize (Hm g msg).
  destruct (m g) as [h [a|e]]; [apply Hk|].
  simpl in *. intros [= ->]. by apply Hm.
Qed.

Lemma no_ValueError_for_each {A} (l : list A) body :
  (∀ x, no_ValueError (body x)) → no_ValueError (for_each l body).
Proof.
  intros Hb. induction l as [|x l IH]; [done|].
  apply no_ValueError_bind; [apply Hb|done].
Qed.

Lemma no_ValueError_comprehension {A B} (l : list A) (f : A → M B) :
  (∀ x, no_ValueError (f x)) → no_ValueError (comprehension l f).
Proof.
  intros Hf. induction l as [|x l IH]; [done|].
  apply no_ValueError_bind; [apply Hf|]. intros y.
  apply no_ValueError_bind; [done|]. by intros ys.
Qed.

Lemma no_ValueError_vertices_getitem k : no_ValueError (vertices_getitem k).
Proof. intros g msg. unfold vertices_getitem. by destruct (vertices g !! k). Qed.

Lemma no_ValueError_state_setitem_col0 i x : no_ValueError (state_setitem_col0 i x).
Proof.
  intros g msg. unfold state_setitem_col0.
  destruct (state g) as [st|]; [|done]. by destruct (py_index _ _).
Qed.

Lemma no_ValueError_update_border vx nx : no_ValueError (update_border vx nx).
Proof.
  unfold update_border.
  apply no_ValueError_bind; [done|]. intros _.
  apply no_ValueError_bind; [apply no_ValueError_state_setitem_col0|]. intros _.
  apply no_ValueError_bind; [done|]. intros self.
  apply no_ValueError_bind; [by destruct (_ !! _)|]. intros _.
  intros g msg. unfold district_id_on_border_of_vertex_add. by destruct (_ !! _).
Qed.

Lemma no_ValueError_scan_adjacent vx : no_ValueError (scan_adjacent vx).
Proof.
  apply no_ValueError_for_each. intros n.
  apply no_ValueError_bind; [apply no_ValueError_vertices_getitem|]. intros nx.
  case_decide; [apply no_ValueError_update_border|done].
Qed.

Lemma no_ValueError_clear_border vx : no_ValueError (clear_border vx).
Proof.
  apply no_ValueError_bind; [done|]. intros self.
  destruct (_ !! _) as [s|]; [|done].
  apply no_ValueError_for_each. intros e.
  apply no_ValueError_bind.
  { intros g msg. unfold vertex_on_border_pop. by destruct (_ !! _). }
  intros _. apply no_ValueError_bind.
  { intros g msg. unfold district_id_on_border_of_vertex_remove.
    destruct (_ !! _) as [t|]; [|done]. by case_decide. }
  intros _. apply no_ValueError_state_setitem_col0.
Qed.

(** ** Rows that share an id *)

Lemma fill_row_vertices mx item g : vertices (fill_row mx item g).1 = vertices g.
Proof.
  unfold fill_row. rewrite bind_eq. unfold state_setitem_col0.
  destruct (state g) as [st|] eqn:Hst; [|done].
  destruct (py_index (length st) item.1) as [k|] eqn:Hk; [|done].
  case_decide; [|done].
  unfold state_setitem_cols. simpl. rewrite length_alter, Hk.
  destruct (alter _ k st !! k); [|done]. by case_decide.
Qed.

(** whatever the outcome of graph_from_json, self.vertices is what the
    first loop built *)
Lemma graph_from_json_vertices df g :
  vertices (graph_from_json df g).1 = (load_rows df 0%nat (vertices g)).2.
Proof.
  unfold graph_from_json. rewrite bind_eq. unfold get_self at 1.
  rewrite bind_eq. unfold modify_self at 1.
  rewrite bind_eq. unfold get_self at 1.
  rewrite bind_eq. unfold modify_self at 1.
  rewrite bind_eq. unfold get_self at 1. simpl.
  set (V := (load_rows df 0%nat (vertices g)).2).
  apply (for_each_preserves (λ h, vertices h = V)); [|done].
  intros x h Hh. by rewrite fill_row_vertices.
Qed.

Lemma load_rows_app df1 df2 mx V :
  load_rows (df1 ++ df2) mx V
  = load_rows df2 (load_rows df1 mx V).1 (load_rows df1 mx V).2.
Proof.
  unfold load_rows. rewrite fold_left_app. by destruct (fold_left _ df1 _).
Qed.

Lemma load_rows_other df k : ∀ mx V,
  (∀ r, r ∈ df → r.1.1 ≠ k) → (load_rows df mx V).2 !! k = V !! k.
Proof.
  induction df as [|[[index cd] adj] df IH]; intros mx V Hdf; [done|].
  rewrite load_rows_cons, IH.
  - apply lookup_insert_ne. apply (Hdf (index, cd, adj)). by left.
  - intros r Hr. apply Hdf. by right.
Qed.

(** ** The scenario of the specification *)














(** the keys of vertex_on_border under the invariant *)
Lemma border_inv_dom g v d :
  wf_graph g → border_inv g →
  (v, d) ∈ dom (vertex_on_border g)
  ↔ ∃ vx, vertices g !! v = Some vx ∧ d ∈ border_districts (vertices g) vx.
Proof.
  intros (st & _ & HV) (Hinv & Hnone). rewrite elem_of_dom.
  destruct (vertices g !! v) as [vx|] eqn:Hv.
  - destruct (HV v vx Hv) as (Hid & _). destruct (Hinv v vx Hv) as (Hb & _).
    rewrite <- Hid, Hb. case_decide as HD.
    + split; [eauto|by eexists].
    + split; [by intros [? ?]|]. intros (vy & ? & ?). by simplify_eq.
  - destruct (Hnone v Hv) as [Hb _]. rewrite Hb.
    split; [by intros [? ?]|]. by intros (? & ? & _).
Qed.

(** the set recorded for a vertex under the invariant *)
Lemma border_inv_set g v vx :
  wf_graph g → border_inv g → vertices g !! v = Some vx →
  default ∅ (district_id_on_border_of_vertex g !! v) = border_districts (vertices g) vx.
Proof.
  intros (st & _ & HV) (Hinv & _) Hv.
  destruct (HV v vx Hv) as (Hid & _). destruct (Hinv v vx Hv) as (_ & Hs & _).
  by rewrite <- Hid.
Qed.

(** ** The claims *)

(** C1, as the code has it. On a graph built by graph_from_json from a
    data frame with ids that are not negative and symmetric adjacency,
    after border discovery and any sequence of moves that returned: for
    every vertex v of the graph and every neighbour n of v, the pair
    (v.prescinct_id, n.district_id) is a key of vertex_on_border iff n's
    district differs from v's. This holds for all vertices, not only
    those a move touched. The code checks neither condition on the data
    frame; without symmetric adjacency the invariant is lost at the first
    move, as the example after the witness shows. *)
Theorem border_index_invariant df g v vx n nx :
  wf_df df = true → reachable df g →
  vertices g !! v = Some vx → n ∈ adj_vertices vx → vertices g !! n = Some nx →
  prescinct_id vx = v ∧
  ((v, district_id nx) ∈ dom (vertex_on_border g)
   ↔ district_id nx ≠ district_id vx).
Proof.
  intros Hwf Hr Hv Hn Hnx.
  destruct (reachable_inv df g Hwf Hr) as ((st & _ & HV) & _ & Hinv & _).
  destruct (HV v vx Hv) as (Hid & _).
  destruct (Hinv v vx Hv) as (Hb & _). split; [done|].
  rewrite elem_of_dom, <- Hid, Hb. case_decide as HD.
  - apply elem_of_border_districts in HD as [Hne _]. split; [done|by eexists].
  - split; [by intros [? ?]|]. intros Hne. exfalso. apply HD.
    apply elem_of_border_districts. split; [done|]. by exists n, nx.
Qed.

Lemma border_index_invariant_witness :
  ((1, 1) ∈ dom (vertex_on_border path_g2) ↔ 1 ≠ 2) ∧
  ((1, 2) ∈ dom (vertex_on_border path_g2) ↔ 2 ≠ 2).
Proof.
  split.
  - refine (proj2 (border_index_invariant path_df path_g2 1
                     (mkVertex 1 2 {[0; 2]}) 0 (mkVertex 0 1 {[1]}) _ _ _ _ _)).
    + exact path_df_wf.
    + exact path_g2_reachable.
    + vm_compute. reflexivity.
    + vm_compute. reflexivity.
    + vm_compute. reflexivity.
  - refine (proj2 (border_index_invariant path_df path_g2 1
                     (mkVertex 1 2 {[0; 2]}) 2 (mkVertex 2 2 {[1; 3]}) _ _ _ _ _)).
    + exact path_df_wf.
    + exact path_g2_reachable.
    + vm_compute. reflexivity.
    + vm_compute. reflexivity.
    + vm_compute. reflexivity.
Defined.

(** C1 fails when adjacency is not symmetric. With 0 listing 1, 1
    listing 2 and 2 listing 1, in districts 1, 1, 2, construction and
    discovery return and so does the move of vertex 1 to district 2. The
    move refreshes vertices 2 and 1 only: afterwards vertex 0 (district 1)
    has its neighbour 1 in district 2, and (0, 2) is no key of
    vertex_on_border. *)
Lemma asymmetric_adjacency_misses_entry :
  graph_from_json asym_df (Graph_init "cpu") = (asym_g0, Ok tt) ∧
  get_border_vertices asym_g0 = (asym_g1, Ok tt) ∧
  change_vertex_district 1 2 asym_g1 = (asym_g2, Ok tt) ∧
  reachable asym_df asym_g2 ∧
  vertices asym_g2 !! 0 = Some (mkVertex 0 1 {[1]}) ∧
  vertices asym_g2 !! 1 = Some (mkVertex 1 2 {[2]}) ∧
  (0, 2) ∉ dom (vertex_on_border asym_g2).
Proof.
  assert (graph_from_json asym_df (Graph_init "cpu") = (asym_g0, Ok tt)) as E0
    by (vm_compute; reflexivity).
  assert (get_border_vertices asym_g0 = (asym_g1, Ok tt)) as E1
    by (vm_compute; reflexivity).
  assert (change_vertex_district 1 2 asym_g1 = (asym_g2, Ok tt)) as E2
    by (vm_compute; reflexivity).
  split; [done|]. split; [done|]. split; [done|]. split.
  { eapply reachable_moved; [|exact E2]. by eapply reachable_discovered. }
  split; [vm_compute; reflexivity|]. split; [vm_compute; reflexivity|].
  vm_compute. intros H. discriminate H.
Qed.

(** C2, as the code has it. On a graph built from a data frame with ids
    that are not negative and symmetric adjacency, after discovery and
    after every move that returned (not after construction alone, which
    records nothing), a vertex is a key of district_id_on_border_of_vertex
    with a non-empty set iff it has a neighbour in another district; and a
    move deletes no key of that dictionary: a vertex whose set has become
    empty stays as a key, with the empty set. *)
Theorem border_set_nonempty_iff df g :
  wf_df df = true → reachable df g →
  (∀ v vx, vertices g !! v = Some vx →
     ((∃ s, district_id_on_border_of_vertex g !! v = Some s ∧ s ≠ ∅)
      ↔ ∃ n nx, n ∈ adj_vertices vx ∧ vertices g !! n = Some nx ∧
                district_id nx ≠ district_id vx)) ∧
  (∀ p d g', change_vertex_district p d g = (g', Ok tt) →
     ∀ u, is_Some (district_id_on_border_of_vertex g !! u) →
          is_Some (district_id_on_border_of_vertex g' !! u)).
Proof.
  intros Hwf Hr.
  destruct (reachable_inv df g Hwf Hr) as (Hwfg & Hsymg & Hinv).
  split.
  - intros v vx Hv. destruct Hwfg as (st & _ & HV).
    destruct (HV v vx Hv) as (Hid & _).
    destruct Hinv as (Hinv & _). destruct (Hinv v vx Hv) as (_ & Hs & _).
    rewrite Hid in Hs. split.
    + intros (s & Es & Hne). rewrite Es in Hs. simpl in Hs. subst s.
      apply set_choose_L in Hne as [d Hd].
      apply elem_of_border_districts in Hd as (Hd & n & nx & Hn & Hnx & <-).
      eauto.
    + intros (n & nx & Hn & Hnx & Hne).
      assert (district_id nx ∈ border_districts (vertices g) vx) as Hd.
      { apply elem_of_border_districts. split; [done|]. by exists n, nx. }
      rewrite <- Hs in Hd.
      destruct (district_id_on_border_of_vertex g !! v) as [s|]; simpl in Hd;
        [|set_solver].
      exists s. split; [done|]. set_solver.
  - intros p d g' E.
    destruct (move_ok_inv _ _ _ _ E) as (vx & Hp & Hd & Hdom).
    destruct (move_spec g p d vx Hwfg Hsymg Hinv Hp Hd Hdom)
      as (h & Eh & _ & _ & _ & _ & Hk).
    assert (h = g') as -> by congruence. exact Hk.
Qed.

Lemma border_set_nonempty_iff_witness :
  (∀ v vx, vertices path_g1 !! v = Some vx →
     ((∃ s, district_id_on_border_of_vertex path_g1 !! v = Some s ∧ s ≠ ∅)
      ↔ ∃ n nx, n ∈ adj_vertices vx ∧ vertices path_g1 !! n = Some nx ∧
                district_id nx ≠ district_id vx)) ∧
  (∀ p d g', change_vertex_district p d path_g1 = (g', Ok tt) →
     ∀ u, is_Some (district_id_on_border_of_vertex path_g1 !! u) →
          is_Some (district_id_on_border_of_vertex g' !! u)).
Proof.
  refine (border_set_nonempty_iff path_df path_g1 _ _).
  - exact path_df_wf.
  - exact path_g1_reachable.
Defined.

(** C2 fails on the scenario. After construction vertex 1 (district 1)
    has neighbour 2 in district 2 and is no key of
    district_id_on_border_of_vertex; after discovery and the move of
    vertex 1 to district 2, vertex 2 is a key mapped to the empty set. *)
Lemma empty_border_set_kept :
  completed path_df path_g0 ∧
  vertices path_g0 !! 1 = Some (mkVertex 1 1 {[0; 2]}) ∧
  vertices path_g0 !! 2 = Some (mkVertex 2 2 {[1; 3]}) ∧
  district_id_on_border_of_vertex path_g0 !! 1 = None ∧
  reachable path_df path_g2 ∧
  district_id_on_border_of_vertex path_g2 !! 2 = Some ∅.
Proof.
  split; [left; exists "cpu"; exact path_g0_constructed|].
  split; [vm_compute; reflexivity|].
  split; [vm_compute; reflexivity|].
  split; [vm_compute; reflexivity|].
  split; [exact path_g2_reachable|].
  vm_compute. reflexivity.
Qed.

(** C3. For a vertex id present in the graph, change_vertex_district
    raises ValueError (the code's InvalidMove) iff the new district is the
    vertex's current one or the pair (id, new district) is no key of
    vertex_on_border; in that case the graph is left exactly as it was
    (vertices, both dictionaries, state tensor); on a reachable graph the
    call returns otherwise. Adjacency need not be symmetric. *)
Theorem move_rejected_iff g p d vx :
  vertices g !! p = Some vx →
  ((∃ msg, (change_vertex_district p d g).2 = Raise (ValueError msg))
   ↔ (d = district_id vx ∨ (p, d) ∉ dom (vertex_on_border g))) ∧
  ((d = district_id vx ∨ (p, d) ∉ dom (vertex_on_border g)) →
   (change_vertex_district p d g).1 = g) ∧
  (∀ df, nonneg_ids df = true → reachable df g →
     ¬ (d = district_id vx ∨ (p, d) ∉ dom (vertex_on_border g)) →
     ∃ g', change_vertex_district p d g = (g', Ok tt)).
Proof.
  intros Hp.
  destruct (decide (d = district_id vx)) as [Hd|Hd].
  { assert (change_vertex_district p d g = (g, Raise (ValueError
      "The vertex is already in the district you want to change to"))) as E.
    { unfold change_vertex_district. rewrite bind_eq.
      unfold vertices_getitem at 1. rewrite Hp. by rewrite decide_True. }
    rewrite E. simpl. split; [|split].
    - split; [eauto|]. intros _. eauto.
    - done.
    - intros df _ _ H. exfalso. apply H. eauto. }
  destruct (decide ((p, d) ∉ dom (vertex_on_border g))) as [Hdom|Hdom].
  { assert (change_vertex_district p d g = (g, Raise (ValueError
      "The vertex is not on the border with the district you want to change to")))
      as E.
    { unfold change_vertex_district. rewrite bind_eq.
      unfold vertices_getitem at 1. rewrite Hp. rewrite decide_False by done.
      rewrite bind_eq. unfold get_self at 1. by rewrite decide_True. }
    rewrite E. simpl. split; [|split].
    - split; [eauto|]. intros _. eauto.
    - done.
    - intros df _ _ H. exfalso. apply H. eauto. }
  split; [|split].
  - split; [|intros [?|?]; done].
    intros [msg E]. exfalso. revert E.
    unfold change_vertex_district. rewrite bind_eq.
    unfold vertices_getitem at 1. rewrite Hp. rewrite decide_False by done.
    rewrite bind_eq. unfold get_self at 1. rewrite decide_False by done.
    apply no_ValueError_bind.
    { apply no_ValueError_bind; [apply no_ValueError_vertices_getitem|done]. }
    intros _. apply no_ValueError_bind; [apply no_ValueError_state_setitem_col0|].
    intros _. apply no_ValueError_bind; [apply no_ValueError_vertices_getitem|].
    intros moved. apply no_ValueError_bind.
    { apply no_ValueError_comprehension, no_ValueError_vertices_getitem. }
    intros adjacent. apply no_ValueError_bind; [apply no_ValueError_vertices_getitem|].
    intros moved'. apply no_ValueError_for_each. intros y.
    apply no_ValueError_bind; [apply no_ValueError_clear_border|].
    intros _. apply no_ValueError_scan_adjacent.
  - intros [?|?]; done.
  - intros df Hnn Hr _.
    destruct (reachable_current df g Hnn Hr) as (Hwfg & Hcur).
    apply dec_stable in Hdom.
    destruct (move_run g p d vx Hwfg Hcur Hp Hd Hdom) as (h & E & _). eauto.
Qed.

Lemma move_rejected_iff_witness :
  ((∃ msg, (change_vertex_district 0 2 path_g1).2 = Raise (ValueError msg))
   ↔ (2 = 1 ∨ (0, 2) ∉ dom (vertex_on_border path_g1))) ∧
  ((2 = 1 ∨ (0, 2) ∉ dom (vertex_on_border path_g1)) →
   (change_vertex_district 0 2 path_g1).1 = path_g1) ∧
  (∀ df, nonneg_ids df = true → reachable df path_g1 →
     ¬ (2 = 1 ∨ (0, 2) ∉ dom (vertex_on_border path_g1)) →
     ∃ g', change_vertex_district 0 2 path_g1 = (g', Ok tt)).
Proof.
  refine (move_rejected_iff path_g1 0 2 (mkVertex 0 1 {[1]}) _).
  vm_compute. reflexivity.
Defined.

(** C4. A move that returns leaves, for every id other than the moved
    vertex and its direct neighbours, the set of bordered districts and
    every entry of vertex_on_border (key and tensor) as they were.
    Adjacency need not be symmetric. *)
Theorem move_frame df g p d g' vx :
  nonneg_ids df = true → reachable df g →
  vertices g !! p = Some vx →
  change_vertex_district p d g = (g', Ok tt) →
  ∀ u, u ≠ p → u ∉ adj_vertices vx →
    district_id_on_border_of_vertex g' !! u = district_id_on_border_of_vertex g !! u ∧
    ∀ e, vertex_on_border g' !! (u, e) = vertex_on_border g !! (u, e).
Proof.
  intros Hnn Hr Hp E u Hup Hua.
  destruct (reachable_current df g Hnn Hr) as (Hwfg & Hcur).
  destruct (move_ok_inv _ _ _ _ E) as (vx' & Hp' & Hd & Hdom).
  assert (vx' = vx) as -> by congruence.
  destruct (move_run g p d vx Hwfg Hcur Hp Hd Hdom)
    as (h & Eh & _ & _ & (_ & _ & _ & Hfb & Hfs & _) & _).
  assert (h = g') as -> by congruence.
  split; [|intros e]; [rewrite Hfs|rewrite Hfb]; try done; tauto.
Qed.

Lemma move_frame_witness :
  district_id_on_border_of_vertex path_g2 !! 3
  = district_id_on_border_of_vertex path_g1 !! 3 ∧
  ∀ e, vertex_on_border path_g2 !! (3, e) = vertex_on_border path_g1 !! (3, e).
Proof.
  refine (move_frame path_df path_g1 1 2 path_g2 (mkVertex 1 1 {[0; 2]}) _ _ _ _ 3 _ _).
  - vm_compute. reflexivity.
  - exact path_g1_reachable.
  - vm_compute. reflexivity.
  - exact path_g2_moved.
  - lia.
  - vm_compute. intros H. discriminate H.
Defined.




(** C6, as the code has it. graph_from_json has no check for rows that
    share an id: of the rows with a given index, the last one iterated
    decides the vertex stored under that id, whatever came before. *)
Theorem duplicate_id_keeps_last dev df1 index cd_2020 adj df2 :
  (∀ r, r ∈ df2 → r.1.1 ≠ index) →
  vertices (graph_from_json (df1 ++ (index, cd_2020, adj) :: df2) (Graph_init dev)).1
    !! index
  = Some (set_adj adj (Vertex_init index cd_2020)).
Proof.
  intros Hdf2. rewrite graph_from_json_vertices, load_rows_app, load_rows_cons.
  rewrite load_rows_other by done. apply lookup_insert_eq.
Qed.

Lemma duplicate_id_keeps_last_witness :
  vertices (graph_from_json ([(0, 1, [1])] ++ (0, 2, []) :: [(1, 1, [0])])
              (Graph_init "cpu")).1
    !! 0
  = Some (set_adj [] (Vertex_init 0 2)).
Proof.
  refine (duplicate_id_keeps_last "cpu" [(0, 1, [1])] 0 2 [] [(1, 1, [0])] _).
  intros r Hr. apply list_elem_of_singleton in Hr as ->. simpl. lia.
Defined.

(** C6 fails: a data frame with two rows of index 0 is accepted, and the
    graph holds the vertex of the second row only. *)
Lemma duplicate_id_accepted :
  ∃ g, graph_from_json [(0, 1, []); (0, 2, [])] (Graph_init "cpu") = (g, Ok tt) ∧
       vertices g = {[0 := mkVertex 0 2 ∅]}.
Proof. eexists. split; vm_compute; reflexivity. Qed.

(** C7. After every completed operation (construction, discovery, a move
    that returned), the tensor stored at vertex_on_border[(v, d)] is
    [v, district, d] with the current district of vertex v in the middle.
    Adjacency need not be symmetric. *)
Theorem descriptor_current df g v d t :
  nonneg_ids df = true → completed df g →
  vertex_on_border g !! (v, d) = Some t →
  ∃ vx, vertices g !! v = Some vx ∧
        t !! 1%nat = Some (district_id vx) ∧
        t = [v; district_id vx; d].
Proof.
  intros Hwf [(dev & E)|Hr] Ht.
  - pose proof (graph_from_json_border df (Graph_init dev)) as Hb.
    rewrite E in Hb. simpl in Hb. by rewrite Hb in Ht.
  - destruct (reachable_current df g Hwf Hr) as (_ & Hcur & Hnone).
    destruct (vertices g !! v) as [vx|] eqn:Hv.
    + exists vx. split; [done|].
      destruct (Hcur v vx Hv) as (_ & _ & Hdesc).
      by rewrite (Hdesc d t Ht).
    + destruct (Hnone v Hv) as [Hb _]. by rewrite Hb in Ht.
Qed.

Lemma descriptor_current_witness :
  ∃ vx, vertices path_g2 !! 1 = Some vx ∧
        [1; 2; 1] !! 1%nat = Some (district_id vx) ∧
        [1; 2; 1] = [1; district_id vx; 1].
Proof.
  refine (descriptor_current path_df path_g2 1 1 [1; 2; 1] _ _ _).
  - vm_compute. reflexivity.
  - right. exact path_g2_reachable.
  - vm_compute. reflexivity.
Defined.

(** C8. On a graph built by graph_from_json (ids not negative) and not
    moved yet, a second run of get_border_vertices returns and leaves the
    graph of the first run as it is: same vertex_on_border, same
    district_id_on_border_of_vertex (and same state tensor). Adjacency
    need not be symmetric. *)
Theorem discovery_idempotent dev df g0 g1 :
  nonneg_ids df = true →
  graph_from_json df (Graph_init dev) = (g0, Ok tt) →
  get_border_vertices g0 = (g1, Ok tt) →
  get_border_vertices g1 = (g1, Ok tt).
Proof.
  intros Hnn E0 E1.
  destruct (nonneg_constructed_wf dev df g0 g1 Hnn E0 E1) as (_ & Hwf0 & Hun).
  destruct (discover_spec g0 Hwf0 Hun) as (h & Eh & _ & Hwfh & Hinvh).
  assert (h = g1) as -> by congruence.
  by apply discover_noop.
Qed.

Lemma discovery_idempotent_witness :
  get_border_vertices path_g1 = (path_g1, Ok tt).
Proof.
  refine (discovery_idempotent "cpu" path_df path_g0 path_g1 _ _ _).
  - vm_compute. reflexivity.
  - exact path_g0_constructed.
  - vm_compute. reflexivity.
Defined.

(** C9, as the code has it. On a graph built from a data frame with ids
    that are not negative and symmetric adjacency, after discovery and
    after every move that returned, column 0 of row i of the state tensor
    is the district of vertex i, negated when vertex i is a border vertex
    (it has a neighbour in another district) and unnegated otherwise.
    Tensor entries are read as exact integers. The code checks neither
    condition on the data frame, and the mirror is wrong without either,
    as the two examples after the witness show. *)
Theorem state_mirror df g i vx :
  wf_df df = true → reachable df g → vertices g !! i = Some vx →
  state_col0 g i
  = Some (if on_border (vertices g) vx then - district_id vx else district_id vx) ∧
  (on_border (vertices g) vx = true ↔
   ∃ n nx, n ∈ adj_vertices vx ∧ vertices g !! n = Some nx ∧
           district_id nx ≠ district_id vx).
Proof.
  intros Hwf Hr Hi. split; [|apply on_border_spec].
  destruct (reachable_inv df g Hwf Hr) as ((st & Hst & HV) & _ & Hinv & _).
  destruct (HV i vx Hi) as (Hid & Hrange & _).
  destruct (Hinv i vx Hi) as (_ & _ & Hrow).
  unfold state_col0. rewrite Hst. simpl. rewrite py_index_in_range by done. simpl.
  unfold row_col0 in Hrow. rewrite Hst, Hid in Hrow. simpl in Hrow. rewrite Hrow.
  unfold on_border. f_equal. case_decide as HD.
  - by rewrite bool_decide_eq_false_2 by (by intros H; apply H).
  - by rewrite bool_decide_eq_true_2.
Qed.

Lemma state_mirror_witness :
  state_col0 path_g2 0 = Some (- 1) ∧ state_col0 path_g2 2 = Some 2.
Proof.
  split.
  - refine (proj1 (state_mirror path_df path_g2 0 (mkVertex 0 1 {[1]}) _ _ _)).
    + exact path_df_wf.
    + exact path_g2_reachable.
    + vm_compute. reflexivity.
  - refine (proj1 (state_mirror path_df path_g2 2 (mkVertex 2 2 {[1; 3]}) _ _ _)).
    + exact path_df_wf.
    + exact path_g2_reachable.
    + vm_compute. reflexivity.
Defined.

(** C9 fails when adjacency is not symmetric. With 0 listing 1, 1
    listing 2 and 2 listing 1, in districts 1, 1, 2, after discovery and
    the move of vertex 1 to district 2 (both return), vertex 0 of
    district 1 has its neighbour 1 in district 2, so it is a border
    vertex, and column 0 of its row holds 1, not -1. *)
Lemma asymmetric_adjacency_stale_mirror :
  reachable asym_df asym_g2 ∧
  vertices asym_g2 !! 0 = Some (mkVertex 0 1 {[1]}) ∧
  vertices asym_g2 !! 1 = Some (mkVertex 1 2 {[2]}) ∧
  on_border (vertices asym_g2) (mkVertex 0 1 {[1]}) = true ∧
  state_col0 asym_g2 0 = Some 1.
Proof.
  split.
  { apply (reachable_moved asym_df asym_g1 1 2); [|vm_compute; reflexivity].
    apply (reachable_discovered asym_df "cpu" asym_g0); vm_compute; reflexivity. }
  split; [vm_compute; reflexivity|]. split; [vm_compute; reflexivity|].
  split; vm_compute; reflexivity.
Qed.

(** A negative id breaks the mirror as well. With the ids 1 and -1, in
    districts 1 and 2 and listing each other, construction and discovery
    return; both vertices are border vertices and both read the same row
    of the two-row tensor, so that column 0 cannot hold -1 for the one and
    -2 for the other. *)
Lemma negative_id_shares_row :
  reachable wrap_df wrap_g1 ∧
  vertices wrap_g1 !! 1 = Some (mkVertex 1 1 {[-1]}) ∧
  vertices wrap_g1 !! (-1) = Some (mkVertex (-1) 2 {[1]}) ∧
  state_col0 wrap_g1 1 = state_col0 wrap_g1 (-1).
Proof.
  split.
  { apply (reachable_discovered wrap_df "cpu" wrap_g0); vm_compute; reflexivity. }
  split; [vm_compute; reflexivity|]. split; vm_compute; reflexivity.
Qed.

(** C10. change_vertex_district with an id that is no key of
    self.vertices raises KeyError at the first lookup, before any check
    or assignment: the graph is left as it was. *)
Theorem move_unknown_vertex g p d :
  vertices g !! p = None →
  change_vertex_district p d g = (g, Raise KeyError).
Proof.
  intros Hp. unfold change_vertex_district. rewrite bind_eq.
  unfold vertices_getitem. by rewrite Hp.
Qed.

Lemma move_unknown_vertex_witness :
  change_vertex_district 7 2 path_g1 = (path_g1, Raise KeyError).
Proof.
  refine (move_unknown_vertex path_g1 7 2 _).
  vm_compute. reflexivity.
Defined.

(** * Further properties of the code *)

(** ** What the methods never assign *)

Lemma keeps_bind {A B X} (f : Graph → X) (m : M A) (k : A → M B) :
  keeps f m → (∀ a, keeps f (k a)) → keeps f (m ≫= k).
Proof.
  intros Hm Hk g. rewrite bind_eq. specialize (Hm g).
  destruct (m g) as [h [a|e]]; simpl in *; [|done].
  by rewrite Hk.
Qed.

Lemma keeps_for_each {A X} (f : Graph → X) (l : list A) body :
  (∀ x, keeps f (body x)) → keeps f (for_each l body).
Proof.
  intros Hb. induction l as [|x l IH]; [done|].
  apply keeps_bind; [apply Hb|done].
Qed.

Lemma keeps_comprehension {A B X} (f : Graph → X) (l : list A) (g : A → M B) :
  (∀ x, keeps f (g x)) → keeps f (comprehension l g).
Proof.
  intros Hg. induction l as [|x l IH]; [done|].
  apply keeps_bind; [apply Hg|]. intros y.
  apply keeps_bind; [done|]. by intros ys.
Qed.

Lemma keeps_vertices_getitem {X} (f : Graph → X) k : keeps f (vertices_getitem k).
Proof. intros g. unfold vertices_getitem. by destruct (vertices g !! k). Qed.

Section border_methods_keep.
Context {X : Type} (f : Graph → X).
Hypothesis f_border : ∀ h g, f (with_vertex_on_border h g) = f g.
Hypothesis f_sets : ∀ h g, f (with_district_id_on_border_of_vertex h g) = f g.
Hypothesis f_state : ∀ s g, f (with_state s g) = f g.

Lemma keeps_state_setitem_col0 i x : keeps f (state_setitem_col0 i x).
Proof.
  intros g. unfold state_setitem_col0.
  destruct (state g) as [st|]; [|done].
  destruct (py_index _ _); [apply f_state|done].
Qed.

Lemma keeps_state_setitem_cols i t : keeps f (state_setitem_cols i t).
Proof.
  intros g. unfold state_setitem_cols.
  destruct (state g) as [st|]; [|done].
  destruct (py_index _ _) as [k|]; [|done].
  destruct (st !! k); [|done]. case_decide; [apply f_state|done].
Qed.

Lemma keeps_fill_row mx item : keeps f (fill_row mx item).
Proof.
  apply keeps_bind; [apply keeps_state_setitem_col0|]. intros _.
  simpl. case_decide; [apply keeps_state_setitem_cols|done].
Qed.

Lemma keeps_update_border vx nx : keeps f (update_border vx nx).
Proof.
  unfold update_border.
  apply keeps_bind; [intros g; apply f_border|]. intros _.
  apply keeps_bind; [apply keeps_state_setitem_col0|]. intros _.
  apply keeps_bind; [done|]. intros self.
  apply keeps_bind.
  { destruct (_ !! _); [done|]. intros g. apply f_sets. }
  intros _ g. unfold district_id_on_border_of_vertex_add.
  destruct (_ !! _); [apply f_sets|done].
Qed.

Lemma keeps_scan_adjacent vx : keeps f (scan_adjacent vx).
Proof.
  apply keeps_for_each. intros n.
  apply keeps_bind; [apply keeps_vertices_getitem|]. intros nx.
  case_decide; [apply keeps_update_border|done].
Qed.

Lemma keeps_clear_border vx : keeps f (clear_border vx).
Proof.
  apply keeps_bind; [done|]. intros self.
  destruct (_ !! _) as [s|]; [|done].
  apply keeps_for_each. intros e.
  apply keeps_bind.
  { intros g. unfold vertex_on_border_pop. destruct (_ !! _); [apply f_border|done]. }
  intros _. apply keeps_bind; [|intros _; apply keeps_state_setitem_col0].
  intros g. unfold district_id_on_border_of_vertex_remove.
  destruct (_ !! _) as [t|]; [|done]. case_decide; [apply f_sets|done].
Qed.

Lemma keeps_get_border_vertices : keeps f get_border_vertices.
Proof.
  apply keeps_bind; [done|]. intros self.
  apply keeps_for_each, keeps_scan_adjacent.
Qed.

(** what follows the assignment of the new district in
    change_vertex_district (lines 82-100) *)
Lemma keeps_move_tail p d :
  keeps f (state_setitem_col0 p d;;
           moved ← vertices_getitem p;
           adjacent ← comprehension (elements (adj_vertices moved)) vertices_getitem;
           moved' ← vertices_getitem p;
           for_each (adjacent ++ [moved']) (λ vertex,
             clear_border vertex;; scan_adjacent vertex)).
Proof.
  apply keeps_bind; [apply keeps_state_setitem_col0|]. intros _.
  apply keeps_bind; [apply keeps_vertices_getitem|]. intros moved.
  apply keeps_bind; [apply keeps_comprehension, keeps_vertices_getitem|].
  intros adjacent. apply keeps_bind; [apply keeps_vertices_getitem|].
  intros moved'. apply keeps_for_each. intros y.
  apply keeps_bind; [apply keeps_clear_border|]. intros _.
  apply keeps_scan_adjacent.
Qed.
End border_methods_keep.

(** X1. max_district_id and device are set by __init__ and assigned by
    no method: graph_from_json, get_border_vertices and
    change_vertex_district leave both as they are, whether they return or
    raise. *)
Theorem max_district_id_never_assigned g df p d :
  (max_district_id (graph_from_json df g).1 = max_district_id g ∧
   device (graph_from_json df g).1 = device g) ∧
  (max_district_id (get_border_vertices g).1 = max_district_id g ∧
   device (get_border_vertices g).1 = device g) ∧
  (max_district_id (change_vertex_district p d g).1 = max_district_id g ∧
   device (change_vertex_district p d g).1 = device g).
Proof.
  set (meta := λ g : Graph, (max_district_id g, device g)).
  assert (∀ {A} (m : M A), keeps meta m →
            max_district_id (m g).1 = max_district_id g ∧ device (m g).1 = device g)
    as Hsplit.
  { intros A m Hm. specialize (Hm g). unfold meta in Hm. by simplify_eq. }
  split; [|split]; apply Hsplit.
  - unfold graph_from_json.
    apply keeps_bind; [done|]. intros self.
    apply keeps_bind; [done|]. intros _.
    apply keeps_bind; [done|]. intros self'.
    apply keeps_bind; [done|]. intros _.
    apply keeps_bind; [done|]. intros self''.
    apply keeps_for_each. intros item. by apply keeps_fill_row.
  - by apply keeps_get_border_vertices.
  - unfold change_vertex_district.
    apply keeps_bind; [apply keeps_vertices_getitem|]. intros vertex.
    case_decide; [done|].
    apply keeps_bind; [done|]. intros self.
    case_decide; [done|].
    apply keeps_bind.
    { apply keeps_bind; [apply keeps_vertices_getitem|done]. }
    intros _. by apply keeps_move_tail.
Qed.

(** X2. A move never adds or removes a vertex or a neighbour: for an id
    present in the graph, self.vertices after change_vertex_district is as
    before when one of the two checks fails, and otherwise differs only in
    the district of the moved vertex. This holds whatever the outcome: a
    move that raises after its checks has already assigned the new
    district and does not take it back. *)
Theorem move_changes_one_district g p d vx :
  vertices g !! p = Some vx →
  vertices (change_vertex_district p d g).1
  = if decide (d = district_id vx ∨ (p, d) ∉ dom (vertex_on_border g))
    then vertices g
    else <[p := set_district_id d vx]> (vertices g).
Proof.
  intros Hp. unfold change_vertex_district.
  rewrite bind_eq. unfold vertices_getitem at 1. rewrite Hp.
  destruct (decide (d = district_id vx)) as [Hd|Hd].
  { rewrite decide_True by eauto. done. }
  rewrite bind_eq. unfold get_self at 1.
  destruct (decide ((p, d) ∉ dom (vertex_on_border g))) as [Hdom|Hdom].
  { rewrite decide_True by eauto. done. }
  rewrite decide_False by tauto.
  rewrite bind_eq. unfold vertices_set_district at 1.
  rewrite bind_eq. unfold vertices_getitem at 1. rewrite Hp.
  unfold modify_self at 1.
  by rewrite (keeps_move_tail vertices).
Qed.

Lemma move_changes_one_district_witness :
  vertices (change_vertex_district 1 2 path_g1).1
  = (if decide (2 = 1 ∨ (1, 2) ∉ dom (vertex_on_border path_g1))
     then vertices path_g1
     else <[1 := set_district_id 2 (mkVertex 1 1 {[0; 2]})]> (vertices path_g1)).
Proof.
  refine (move_changes_one_district path_g1 1 2 (mkVertex 1 1 {[0; 2]}) _).
  vm_compute. reflexivity.
Defined.

(** ** Vertex.set_adj *)

(** X3. set_adj adds the listed ids to the neighbours the vertex already
    has (it does not replace them), a repeated id counts once, and the id
    and the district of the vertex are untouched. *)
Theorem set_adj_adds l v :
  prescinct_id (set_adj l v) = prescinct_id v ∧
  district_id (set_adj l v) = district_id v ∧
  ∀ n, n ∈ adj_vertices (set_adj l v) ↔ n ∈ l ∨ n ∈ adj_vertices v.
Proof.
  revert v. induction l as [|x l IH]; intros v.
  - split; [done|]. split; [done|]. intros n. set_solver.
  - destruct (IH (mkVertex (prescinct_id v) (district_id v) ({[x]} ∪ adj_vertices v)))
      as (Hid & Hd & Hadj).
    simpl in *. fold (set_adj l) in *. split; [done|]. split; [done|].
    intros n. rewrite Hadj. set_solver.
Qed.

(** ** Which exception a loop raises *)

(** A loop whose turns either return and keep [J], or raise [e], by a test
    [ok] on the element: it returns when every element passes the test
    and raises [e] otherwise. *)
Lemma for_each_result {A} (J : Graph → Prop) (ok : A → bool) (e : exn)
    (body : A → M unit) l :
  (∀ x g, x ∈ l → J g →
     if ok x then (body x g).2 = Ok tt ∧ J (body x g).1
     else (body x g).2 = Raise e) →
  ∀ g, J g →
    (for_each l body g).2 = (if forallb ok l then Ok tt else Raise e) ∧
    (forallb ok l = true → J (for_each l body g).1).
Proof.
  induction l as [|x l IH]; intros Hbody g Hg; [done|].
  rewrite for_each_cons, bind_eq. simpl.
  pose proof (Hbody x g ltac:(by left) Hg) as Hx.
  destruct (ok x); simpl.
  - destruct Hx as [Hr HJ]. destruct (body x g) as [h r]. simpl in *. subst r.
    apply IH; [|done]. intros y g' Hy. apply Hbody. by right.
  - destruct (body x g) as [h r]. simpl in *. by subst r.
Qed.

Lemma py_index_lt n i j : py_index n i = Some j → (j < n)%nat.
Proof. unfold py_index. repeat case_decide; intros; simplify_eq; lia. Qed.

(** One turn of the loop that fills the state tensor, on any valid Python
    index. *)
Lemma fill_row_exact mx k vx g st j :
  state g = Some st → py_index (length st) k = Some j →
  (∀ i r, st !! i = Some r → length r.2 = mx) →
  (size (adj_vertices vx) ≤ mx)%nat →
  fill_row mx (k, vx) g
  = (with_state (Some (<[j := (district_id vx, adj_row mx vx)]> st)) g, Ok tt).
Proof.
  intros Hst Hk Hrows Hsize. pose proof (py_index_lt _ _ _ Hk) as Hj.
  unfold fill_row. simpl.
  rewrite bind_eq. unfold state_setitem_col0. rewrite Hst, Hk.
  rewrite decide_True by exact Hsize.
  destruct (lookup_lt_is_Some_2 st j Hj) as [r Hr].
  unfold state_setitem_cols. simpl.
  rewrite length_alter, Hk, list_lookup_alter_eq, Hr. simpl.
  change (elements (adj_vertices vx)
          ++ replicate (mx - length (elements (adj_vertices vx))) 0)
    with (adj_row mx vx).
  assert (length (adj_row mx vx) = mx) as Ht.
  { unfold adj_row. rewrite length_app, length_replicate.
    change (length (elements (adj_vertices vx))) with (size (adj_vertices vx)). lia. }
  rewrite decide_True by (rewrite Ht; by eapply Hrows).
  unfold with_state. simpl. do 3 f_equal.
  apply list_eq. intros i. destruct (decide (i = j)) as [->|Hne].
  - rewrite !list_lookup_insert_eq; [done|lia|rewrite length_alter; lia].
  - rewrite !list_lookup_insert_ne by done. by rewrite list_lookup_alter_ne.
Qed.

Lemma fill_row_bad_index mx k vx g st :
  state g = Some st → py_index (length st) k = None →
  fill_row mx (k, vx) g = (g, Raise IndexError).
Proof.
  intros Hst Hk. unfold fill_row. simpl.
  rewrite bind_eq. unfold state_setitem_col0. by rewrite Hst, Hk.
Qed.

(** X4. graph_from_json on a new Graph returns exactly when every id of
    the data frame is a Python index into len(self.vertices) rows (from
    -n to n-1 for n vertices); otherwise it raises IndexError, from the
    assignment to self.state[vertex_id, 0]. *)
Theorem construction_result dev df :
  (graph_from_json df (Graph_init dev)).2
  = if ids_are_rows df then Ok tt else Raise IndexError.
Proof.
  unfold graph_from_json. rewrite bind_eq. unfold get_self at 1.
  rewrite bind_eq. unfold modify_self at 1.
  rewrite bind_eq. unfold get_self at 1.
  rewrite bind_eq. unfold modify_self at 1.
  rewrite bind_eq. unfold get_self at 1. simpl.
  fold (vertices_of df).
  set (mx := (load_rows df 0%nat ∅).1).
  set (V := vertices_of df) in *.
  set (g1 := with_state _ _).
  unfold ids_are_rows. fold V.
  apply (for_each_result
           (λ g, ∃ st, state g = Some st ∧ length st = size V ∧
                       ∀ i r, st !! i = Some r → length r.2 = mx)).
  - intros [k vx] g Hx (st & Hst & Hlen & Hrows). simpl.
    apply elem_of_map_to_list in Hx.
    assert (size (adj_vertices vx) ≤ mx)%nat as Hsize.
    { unfold mx. eapply (load_rows_bound df 0%nat ∅); [|exact Hx].
      intros k' vx' Hk'. by rewrite lookup_empty in Hk'. }
    rewrite <- Hlen.
    destruct (py_index (length st) k) as [j|] eqn:Hk.
    + rewrite bool_decide_eq_true_2 by eauto.
      rewrite (fill_row_exact mx k vx g st j) by done. split; [done|]. simpl.
      eexists. split; [done|]. rewrite length_insert. split; [done|].
      intros i r Hi. destruct (decide (i = j)) as [->|Hne].
      * rewrite list_lookup_insert_eq in Hi by (by eapply py_index_lt).
        simplify_eq. simpl. unfold adj_row. rewrite length_app, length_replicate.
        change (length (elements (adj_vertices vx))) with (size (adj_vertices vx)). lia.
      * rewrite list_lookup_insert_ne in Hi by done. by eapply Hrows.
    + rewrite bool_decide_eq_false_2 by (by intros [? ?]).
      by rewrite (fill_row_bad_index mx k vx g st).
  - eexists. split; [done|]. unfold zeros. rewrite length_replicate. split; [done|].
    intros i r Hi. apply lookup_replicate in Hi as [-> _]. simpl.
    by rewrite length_replicate.
Qed.

(** ** Discovery and dangling neighbours *)

(** what graph_from_json leaves when it returns on a new Graph, for ids
    that are not negative *)
Lemma constructed_facts dev df g0 :
  nonneg_ids df = true →
  graph_from_json df (Graph_init dev) = (g0, Ok tt) →
  vertices g0 = vertices_of df ∧ unmarked g0 ∧
  ∃ st, state g0 = Some st ∧ length st = size (vertices_of df) ∧
    ∀ k vx, vertices_of df !! k = Some vx →
            prescinct_id vx = k ∧ 0 ≤ k < Z.of_nat (length st).
Proof.
  intros Hnn E0.
  assert (∀ k vx, vertices_of df !! k = Some vx → prescinct_id vx = k ∧ 0 ≤ k)
    as Hkeys.
  { apply load_rows_keys; [|done]. intros k vx Hk. by rewrite lookup_empty in Hk. }
  assert (∀ k vx, vertices_of df !! k = Some vx →
                  0 ≤ k < Z.of_nat (size (vertices_of df))) as Hrange.
  { intros k vx Hk. destruct (Hkeys k vx Hk) as [_ Hk0].
    pose proof (construct_ok_range dev df g0 E0 k vx Hk). lia. }
  destruct (construct_spec dev df Hrange) as (g0' & st & E0' & HV & Hst & Hlen & Hun).
  assert (g0' = g0) as -> by congruence.
  split; [done|]. split; [done|]. exists st. split; [done|]. split; [done|].
  intros k vx Hk. destruct (Hkeys k vx Hk) as [Hid _]. split; [done|].
  rewrite Hlen. by eapply Hrange.
Qed.

Lemma forallb_snd {A B} (ok : B → bool) (l : list (A * B)) :
  forallb ok l.*2 = forallb (λ kv, ok kv.2) l.
Proof. induction l as [|x l IH]; [done|]. rewrite fmap_cons. simpl. by f_equal. Qed.

(** X5. On a graph that graph_from_json has just built (ids not
    negative), get_border_vertices returns exactly when every neighbour
    listed by a vertex is itself a vertex; otherwise it raises KeyError,
    from the lookup self.vertices[adj_vertex_id]. *)
Theorem discovery_result dev df g0 :
  nonneg_ids df = true →
  graph_from_json df (Graph_init dev) = (g0, Ok tt) →
  (get_border_vertices g0).2
  = if all_neighbours_present (vertices_of df) then Ok tt else Raise KeyError.
Proof.
  intros Hnn E0.
  destruct (constructed_facts dev df g0 Hnn E0) as (HV & _ & st0 & Hst0 & Hlen0 & Hids).
  set (V := vertices_of df) in *.
  set (J := λ g : Graph, vertices g = V ∧
                         ∃ st, state g = Some st ∧ length st = length st0).
  unfold get_border_vertices. rewrite bind_eq. unfold get_self at 1.
  unfold all_neighbours_present. rewrite HV, <- (forallb_snd (neighbours_present V)).
  apply (for_each_result J); [|split; [done|eauto]].
  intros vx g Hvx HJ.
  apply list_elem_of_fmap in Hvx as ([k vx'] & -> & Hvx).
  apply elem_of_map_to_list in Hvx. simpl.
  destruct (Hids k vx' Hvx) as (Hid & Hrange). subst k.
  unfold neighbours_present, scan_adjacent.
  cut ((for_each (elements (adj_vertices vx'))
          (λ adj_vertex_id,
             adj_vertex ← vertices_getitem adj_vertex_id;
             if decide (district_id vx' ≠ district_id adj_vertex)
             then update_border vx' adj_vertex else mret tt) g).2
       = (if forallb (λ n, bool_decide (is_Some (V !! n)))
                     (elements (adj_vertices vx'))
          then Ok tt else Raise KeyError) ∧
       (forallb (λ n, bool_decide (is_Some (V !! n)))
                (elements (adj_vertices vx')) = true →
        J (for_each (elements (adj_vertices vx'))
             (λ adj_vertex_id,
                adj_vertex ← vertices_getitem adj_vertex_id;
                if decide (district_id vx' ≠ district_id adj_vertex)
                then update_border vx' adj_vertex else mret tt) g).1)).
  { intros [Hr HJ']. destruct (forallb _ _); [|done]. split; [done|by apply HJ']. }
  apply (for_each_result J); [|done].
  clear g HJ. intros n g _ (HVg & st & Hst & Hlen).
  rewrite bind_eq. unfold vertices_getitem. rewrite HVg.
  destruct (V !! n) as [nx|] eqn:Hn.
  - rewrite bool_decide_eq_true_2 by eauto.
    case_decide.
    + destruct (update_border_spec vx' nx g st) as (h & -> & Hf & _); [done|lia|].
      split; [done|]. simpl.
      destruct Hf as (HVh & _ & _ & _ & _ & st1 & st2 & E1 & E2 & Hl & _).
      split; [congruence|]. exists st2. split; [done|]. congruence.
    + split; [done|]. split; [done|]. eauto.
  - by rewrite bool_decide_eq_false_2 by (by intros [? ?]).
Qed.

Lemma discovery_result_witness :
  (get_border_vertices path_g0).2
  = (if all_neighbours_present (vertices_of path_df) then Ok tt else Raise KeyError) ∧
  (get_border_vertices
     (graph_from_json [(0, 1, [1; 5]); (1, 2, [0])] (Graph_init "cpu")).1).2
  = (if all_neighbours_present (vertices_of [(0, 1, [1; 5]); (1, 2, [0])])
     then Ok tt else Raise KeyError).
Proof.
  split.
  - refine (discovery_result "cpu" path_df path_g0 _ _).
    + vm_compute. reflexivity.
    + exact path_g0_constructed.
  - refine (discovery_result "cpu" [(0, 1, [1; 5]); (1, 2, [0])] _ _ _).
    + vm_compute. reflexivity.
    + vm_compute. reflexivity.
Defined.

(** ** The state tensor after construction *)

Lemma load_rows_width df : ∀ mx V,
  (load_rows df mx V).1 = (mx `max` max_list ((λ r : Row, length r.2) <$> df))%nat.
Proof.
  induction df as [|[[index cd] adj] df IH]; intros mx V; [simpl; lia|].
  rewrite load_rows_cons, IH, fmap_cons. simpl. case_decide; lia.
Qed.

(** The loop that fills the state tensor, with the rows it writes. *)
Lemma fill_loop_exact mx L : ∀ g st,
  state g = Some st →
  (∀ j r, st !! j = Some r → length r.2 = mx) →
  NoDup L.*1 →
  (∀ k vx, (k, vx) ∈ L →
     0 ≤ k < Z.of_nat (length st) ∧ (size (adj_vertices vx) ≤ mx)%nat) →
  ∃ st', for_each L (fill_row mx) g = (with_state (Some st') g, Ok tt) ∧
    length st' = length st ∧
    (∀ k vx, (k, vx) ∈ L →
       st' !! Z.to_nat k = Some (district_id vx, adj_row mx vx)) ∧
    (∀ j, (∀ k vx, (k, vx) ∈ L → Z.to_nat k ≠ j) → st' !! j = st !! j).
Proof.
  induction L as [|[k vx] L IH]; intros g st Hst Hrows Hnd HL.
  - exists st. split; [|split; [done|split; [|done]]].
    + simpl. rewrite mret_eq. f_equal. destruct g. simpl in *. by subst.
    + intros k vx Hk. by apply elem_of_nil in Hk.
  - rewrite fmap_cons in Hnd. apply NoDup_cons in Hnd as [Hk Hnd]. simpl in Hk.
    destruct (HL k vx) as [Hr Hs]; [by left|].
    pose proof (fill_row_exact mx k vx g st (Z.to_nat k) Hst
                  (py_index_in_range _ _ Hr) Hrows Hs) as E1.
    set (st1 := <[Z.to_nat k := (district_id vx, adj_row mx vx)]> st) in *.
    assert (length (adj_row mx vx) = mx) as Ht.
    { unfold adj_row. rewrite length_app, length_replicate.
      change (length (elements (adj_vertices vx))) with (size (adj_vertices vx)). lia. }
    destruct (IH (with_state (Some st1) g) st1) as (st' & E2 & Hlen & Hcol & Hfr).
    + done.
    + intros j r Hj. unfold st1 in Hj.
      destruct (decide (j = Z.to_nat k)) as [->|Hne].
      * rewrite list_lookup_insert_eq in Hj by lia. by simplify_eq.
      * rewrite list_lookup_insert_ne in Hj by done. by eapply Hrows.
    + done.
    + intros k' vx' Hk'. unfold st1. rewrite length_insert. apply HL. by right.
    + exists st'. rewrite for_each_cons, bind_eq, E1, E2.
      split; [done|]. unfold st1 in *. rewrite length_insert in Hlen.
      split; [done|]. split.
      * intros k' vx' Hk'. apply elem_of_cons in Hk' as [Heq|Hin]; [|by eapply Hcol].
        simplify_eq. rewrite Hfr.
        -- rewrite list_lookup_insert_eq by lia. done.
        -- intros k' vx' Hin Heq. destruct (HL k' vx') as [? _]; [by right|].
           assert (k' = k) as -> by lia.
           apply Hk. apply list_elem_of_fmap. by exists (k, vx').
      * intros j Hj. rewrite Hfr.
        -- rewrite list_lookup_insert_ne; [done|]. eapply Hj. by left.
        -- intros k' vx' Hin. eapply Hj. by right.
Qed.

(** the rows of the state tensor when graph_from_json has returned *)
Lemma constructed_rows dev df g :
  nonneg_ids df = true →
  graph_from_json df (Graph_init dev) = (g, Ok tt) →
  vertices g = vertices_of df ∧
  ∃ st, state g = Some st ∧ length st = size (vertices_of df) ∧
    (∀ k vx, vertices_of df !! k = Some vx →
       st !! Z.to_nat k = Some (district_id vx, adj_row (max_adj_len df) vx)) ∧
    (∀ j, vertices_of df !! Z.of_nat j = None →
       st !! j = zeros (size (vertices_of df)) (max_adj_len df) !! j).
Proof.
  intros Hnn E.
  destruct (constructed_facts dev df g Hnn E) as (HV & _ & st0 & Hst0 & Hlen0 & Hids).
  split; [done|]. revert E.
  unfold graph_from_json. rewrite bind_eq. unfold get_self at 1.
  rewrite bind_eq. unfold modify_self at 1.
  rewrite bind_eq. unfold get_self at 1.
  rewrite bind_eq. unfold modify_self at 1.
  rewrite bind_eq. unfold get_self at 1. simpl.
  fold (vertices_of df).
  assert ((load_rows df 0%nat ∅).1 = max_adj_len df) as ->.
  { rewrite load_rows_width. unfold max_adj_len. lia. }
  set (mx := max_adj_len df).
  set (V := vertices_of df) in *.
  set (g1 := with_state _ _).
  destruct (fill_loop_exact mx (map_to_list V) g1 (zeros (size V) mx))
    as (st' & -> & Hlen & Hrow & Hfr).
  - done.
  - intros j r Hj. unfold zeros in Hj. apply lookup_replicate in Hj as [-> _].
    simpl. by rewrite length_replicate.
  - apply NoDup_fst_map_to_list.
  - intros k vx Hk. apply elem_of_map_to_list in Hk.
    destruct (Hids k vx Hk) as (_ & Hr). rewrite Hlen0 in Hr.
    unfold zeros. rewrite length_replicate. split; [done|].
    assert ((load_rows df 0%nat ∅).1 = mx) as <-.
    { rewrite load_rows_width. unfold mx, max_adj_len. lia. }
    eapply (load_rows_bound df 0%nat ∅); [|exact Hk].
    intros k' vx' Hk'. by rewrite lookup_empty in Hk'.
  - intros E. injection E as <-. simpl.
    unfold zeros in Hlen. rewrite length_replicate in Hlen.
    exists st'. split; [done|]. split; [done|]. split.
    + intros k vx Hk. apply Hrow. by apply elem_of_map_to_list.
    + intros j Hj. apply Hfr. intros k vx Hk Heq.
      apply elem_of_map_to_list in Hk. destruct (Hids k vx Hk) as (_ & Hr).
      assert (k = Z.of_nat j) as -> by lia. congruence.
Qed.



(** ** What only graph_from_json writes *)

Lemma adj_row_ext mx vx vy :
  adj_vertices vx = adj_vertices vy → adj_row mx vx = adj_row mx vy.
Proof. unfold adj_row. by intros ->. Qed.

Lemma constructed_mirror dev df g :
  nonneg_ids df = true →
  graph_from_json df (Graph_init dev) = (g, Ok tt) →
  mirror_layout df g.
Proof.
  intros Hnn E.
  destruct (constructed_rows dev df g Hnn E) as (HV & st & Hst & Hlen & Hrow & Hzero).
  split; [by rewrite HV|].
  exists st. split; [done|]. split; [done|]. rewrite HV. split; [|done].
  intros k vx Hk. by rewrite (Hrow k vx Hk).
Qed.

(** The layout survives a step that leaves adjacency alone and writes
    column 0 of rows of vertices only. *)
Lemma mirror_layout_step df g g1 h (P : Z → Prop) :
  mirror_layout df g →
  (∀ k, adj_vertices <$> vertices g1 !! k = adj_vertices <$> vertices g !! k) →
  state g1 = state g →
  frame P g1 h →
  (∀ u, P u → is_Some (vertices g !! u)) →
  mirror_layout df h.
Proof.
  intros (Hadj & st & Hst & Hlen & Hrow & Hzero) Hadj1 Hst1 Hfr HP.
  destruct Hfr as (HV & _ & _ & _ & _ & st0 & st' & Hs0 & Hs' & Hlen' & Hsnd & Hkeep).
  assert (st0 = st) as -> by congruence.
  split; [intros k; by rewrite HV, Hadj1|].
  exists st'. split; [done|]. split; [congruence|]. split.
  - intros k vx Hk. rewrite HV in Hk.
    pose proof (Hadj1 k) as Ha. rewrite Hk in Ha. simpl in Ha.
    destruct (vertices g !! k) as [vy|] eqn:Hy; [|done].
    simpl in Ha. injection Ha as Ha.
    rewrite Hsnd, (Hrow k vy Hy). f_equal. by apply adj_row_ext.
  - intros j Hj. rewrite HV in Hj.
    pose proof (Hadj1 (Z.of_nat j)) as Ha. rewrite Hj in Ha. simpl in Ha.
    destruct (vertices g !! Z.of_nat j) as [vy|] eqn:Hy; [done|].
    rewrite <- (Hzero j Hy), <- (Nat2Z.id j). apply Hkeep; [lia|].
    intros HPj. apply HP in HPj. rewrite Hy in HPj. by destruct HPj.
Qed.

Lemma reachable_mirror df g :
  nonneg_ids df = true → reachable df g → mirror_layout df g.
Proof.
  intros Hnn Hr. induction Hr as [dev g0 g1 E0 E1|g p d g' Hr IH E].
  - destruct (nonneg_constructed_wf dev df g0 g1 Hnn E0 E1) as (_ & Hwf & Hum).
    destruct (discover_spec g0 Hwf Hum) as (h & E & Hfr & _).
    assert (h = g1) as -> by congruence.
    eapply (mirror_layout_step df g0 g0 g1); [by eapply constructed_mirror|done|done|exact Hfr|done].
  - destruct (reachable_current df g Hnn Hr) as (Hwf & Hcur).
    destruct (move_ok_inv p d g g' E) as (vx & Hp & Hd & Hkey).
    destruct (move_run g p d vx Hwf Hcur Hp Hd Hkey) as (h & E' & _ & _ & Hfr & _).
    assert (h = g') as -> by congruence.
    eapply (mirror_layout_step df g _ g'); [exact IH| | |exact Hfr|].
    + intros k. simpl. destruct (decide (k = p)) as [->|Hne].
      * by rewrite lookup_insert_eq, Hp.
      * by rewrite lookup_insert_ne.
    + done.
    + intros u [->|Hu]; [by rewrite Hp|].
      destruct Hwf as (st & _ & Hwv). destruct (Hwv p vx Hp) as (_ & _ & Hn).
      by apply Hn.
Qed.



(** ** The border structures are a function of the districts *)

Lemma row_from_parts (st : Tensor) j c a :
  fst <$> st !! j = Some c → snd <$> st !! j = Some a → st !! j = Some (c, a).
Proof.
  destruct (st !! j) as [[c' a']|]; simpl; [|done]. by intros [= ->] [= ->].
Qed.

(** two reachable graphs with the same vertices agree on all the rest *)
Lemma reachable_determined df g h :
  wf_df df = true → reachable df g → reachable df h →
  vertices g = vertices h →
  vertex_on_border g = vertex_on_border h ∧
  state g = state h ∧
  ∀ u, default ∅ (district_id_on_border_of_vertex g !! u)
       = default ∅ (district_id_on_border_of_vertex h !! u).
Proof.
  intros Hwf Hg Hh HV.
  pose proof (wf_df_nonneg df Hwf) as Hnn.
  destruct (reachable_inv df g Hwf Hg) as (Hwg & _ & Hig & Hng).
  destruct (reachable_inv df h Hwf Hh) as (Hwh & _ & Hih & Hnh).
  destruct (reachable_mirror df g Hnn Hg) as (Hag & sg & Hsg & Hlg & Hrg & Hzg).
  destruct (reachable_mirror df h Hnn Hh) as (Hah & sh & Hsh & Hlh & Hrh & Hzh).
  assert (∀ k vx, vertices g !! k = Some vx → prescinct_id vx = k) as Hid.
  { intros k vx Hk. destruct Hwg as (? & _ & Hwg). by destruct (Hwg k vx Hk). }
  split; [|split].
  - apply map_eq. intros [k d].
    destruct (vertices g !! k) as [vx|] eqn:Hx.
    + destruct (Hig k vx Hx) as (E1 & _).
      assert (vertices h !! k = Some vx) as Hy by (by rewrite <- HV).
      destruct (Hih k vx Hy) as (E2 & _).
      rewrite (Hid k vx Hx) in E1, E2. by rewrite E1, E2, HV.
    + destruct (Hng k Hx) as (E1 & _).
      assert (vertices h !! k = None) as Hy by (by rewrite <- HV).
      destruct (Hnh k Hy) as (E2 & _). by rewrite E1, E2.
  - rewrite Hsg, Hsh. f_equal. apply list_eq. intros j.
    destruct (vertices g !! Z.of_nat j) as [vx|] eqn:Hx.
    + assert (vertices h !! Z.of_nat j = Some vx) as Hy by (by rewrite <- HV).
      destruct (Hig _ vx Hx) as (_ & _ & E1). destruct (Hih _ vx Hy) as (_ & _ & E2).
      rewrite (Hid _ vx Hx), Nat2Z.id in E1, E2.
      unfold row_col0 in E1, E2. rewrite Hsg in E1. rewrite Hsh in E2. simpl in E1, E2.
      pose proof (Hrg _ vx Hx) as R1. pose proof (Hrh _ vx Hy) as R2.
      rewrite Nat2Z.id in R1, R2.
      rewrite (row_from_parts sg j _ _ E1 R1), (row_from_parts sh j _ _ E2 R2).
      by rewrite HV.
    + assert (vertices h !! Z.of_nat j = None) as Hy by (by rewrite <- HV).
      by rewrite (Hzg j Hx), (Hzh j Hy).
  - intros u. destruct (vertices g !! u) as [vx|] eqn:Hx.
    + assert (vertices h !! u = Some vx) as Hy by (by rewrite <- HV).
      rewrite (border_inv_set g u vx Hwg (conj Hig Hng) Hx).
      rewrite (border_inv_set h u vx Hwh (conj Hih Hnh) Hy). by rewrite HV.
    + assert (vertices h !! u = None) as Hy by (by rewrite <- HV).
      destruct (Hng u Hx) as (_ & ->). destruct (Hnh u Hy) as (_ & ->). done.
Qed.

(** X8. What discovery and moves leave behind depends on the current
    districts only, not on the moves that led there: two graphs reachable
    from the same data frame (ids not negative, adjacency symmetric) in
    which every vertex has the same district have the same vertices, the
    same vertex_on_border, the same state tensor and record the same
    districts for every id. *)
Theorem border_state_history_independent df g h :
  wf_df df = true → reachable df g → reachable df h →
  (∀ k, district_id <$> vertices g !! k = district_id <$> vertices h !! k) →
  vertices g = vertices h ∧
  vertex_on_border g = vertex_on_border h ∧
  state g = state h ∧
  ∀ u, default ∅ (district_id_on_border_of_vertex g !! u)
       = default ∅ (district_id_on_border_of_vertex h !! u).
Proof.
  intros Hwf Hg Hh Hd.
  pose proof (wf_df_nonneg df Hwf) as Hnn.
  destruct (reachable_current df g Hnn Hg) as ((? & _ & Hwg) & _).
  destruct (reachable_current df h Hnn Hh) as ((? & _ & Hwh) & _).
  destruct (reachable_mirror df g Hnn Hg) as (Hag & _).
  destruct (reachable_mirror df h Hnn Hh) as (Hah & _).
  assert (vertices g = vertices h) as HV.
  { apply map_eq. intros k. specialize (Hd k).
    pose proof (Hag k) as Ha. rewrite <- (Hah k) in Ha.
    destruct (vertices g !! k) as [vx|] eqn:Hx, (vertices h !! k) as [vy|] eqn:Hy;
      simpl in *; try done.
    destruct (Hwg k vx Hx) as (Hix & _). destruct (Hwh k vy Hy) as (Hiy & _).
    destruct vx, vy. simpl in *. congruence. }
  split; [done|]. by apply (reachable_determined df).
Qed.

Lemma path_g3_moved : change_vertex_district 1 1 path_g2 = (path_g3, Ok tt).
Proof. vm_compute. reflexivity. Qed.

Lemma path_g3_reachable : reachable path_df path_g3.
Proof. eapply reachable_moved; [exact path_g2_reachable|exact path_g3_moved]. Qed.

Lemma border_state_history_independent_witness :
  vertices path_g3 = vertices path_g1 ∧
  vertex_on_border path_g3 = vertex_on_border path_g1 ∧
  state path_g3 = state path_g1 ∧
  ∀ u, default ∅ (district_id_on_border_of_vertex path_g3 !! u)
       = default ∅ (district_id_on_border_of_vertex path_g1 !! u).
Proof.
  refine (border_state_history_independent path_df path_g3 path_g1 _ _ _ _).
  - vm_compute. reflexivity.
  - exact path_g3_reachable.
  - exact path_g1_reachable.
  - intros k. assert (vertices path_g3 = vertices path_g1) as ->; [|done].
    vm_compute. reflexivity.
Defined.

(** ** Discovery, moves and the keys of vertex_on_border *)

(** X9. get_border_vertices can be called again at any time: on every
    reachable graph (ids not negative, adjacency symmetric), also after
    moves, it returns and leaves the whole Graph as it was. *)
Theorem rediscovery_changes_nothing df g :
  wf_df df = true → reachable df g →
  get_border_vertices g = (g, Ok tt).
Proof.
  intros Hwf Hr. destruct (reachable_inv df g Hwf Hr) as (Hwg & _ & Hinv).
  by apply discover_noop.
Qed.

Lemma rediscovery_changes_nothing_witness :
  get_border_vertices path_g2 = (path_g2, Ok tt).
Proof.
  refine (rediscovery_changes_nothing path_df path_g2 _ _).
  - vm_compute. reflexivity.
  - exact path_g2_reachable.
Defined.

(** no key of vertex_on_border names the district its vertex is in *)
Lemma reachable_keys_differ df g :
  nonneg_ids df = true → reachable df g →
  ∀ k vx d, vertices g !! k = Some vx →
    is_Some (vertex_on_border g !! (k, d)) → d ≠ district_id vx.
Proof.
  intros Hnn Hr. induction Hr as [dev g0 g1 E0 E1|g p d g' Hr IH E].
  - destruct (nonneg_constructed_wf dev df g0 g1 Hnn E0 E1) as (_ & Hwf & Hum).
    destruct (discover_spec g0 Hwf Hum) as (h & E & _ & (st & _ & Hwh) & Hinv & _).
    assert (h = g1) as -> by congruence.
    intros k vx d Hk Hd. destruct (Hinv k vx Hk) as (Hb & _).
    destruct (Hwh k vx Hk) as (Hid & _). rewrite Hid in Hb. rewrite Hb in Hd.
    destruct (decide (d ∈ border_districts (vertices g1) vx)) as [Hin|]; [|by destruct Hd].
    by apply elem_of_border_districts in Hin as (? & _).
  - destruct (reachable_current df g Hnn Hr) as (Hwf & Hcur).
    destruct (move_ok_inv p d g g' E) as (vx & Hp & Hd & Hkey).
    destruct (move_run g p d vx Hwf Hcur Hp Hd Hkey)
      as (h & E' & (st & _ & Hwh) & _ & Hfr & Hfresh & _).
    assert (h = g') as -> by congruence.
    intros k vy e Hk He.
    destruct (decide (k = p ∨ k ∈ adj_vertices vx)) as [Haff|Hnot].
    + destruct (Hfresh k vy Hk Haff) as (Hb & _).
      destruct (Hwh k vy Hk) as (Hid & _). rewrite Hid in Hb. rewrite Hb in He.
      destruct (decide (e ∈ border_districts (vertices g') vy)) as [Hin|]; [|by destruct He].
      by apply elem_of_border_districts in Hin as (? & _).
    + destruct Hfr as (HV & _ & _ & Hvob & _).
      rewrite (Hvob k e Hnot) in He. simpl in He.
      rewrite HV in Hk. simpl in Hk.
      rewrite lookup_insert_ne in Hk by (intros ->; apply Hnot; by left).
      by eapply IH.
Qed.

(** X10. On every reachable graph (ids not negative) the keys of
    vertex_on_border are exactly the moves that return: a call
    change_vertex_district(p, d) returns iff (p, d) is a key. In
    particular no key names the district its vertex is in, so the first
    check of the method can fail only when the second does. *)
Theorem border_keys_are_the_moves df g p d :
  nonneg_ids df = true → reachable df g →
  ((∃ g', change_vertex_district p d g = (g', Ok tt))
   ↔ (p, d) ∈ dom (vertex_on_border g)) ∧
  (∀ vx, vertices g !! p = Some vx → (p, district_id vx) ∉ dom (vertex_on_border g)).
Proof.
  intros Hnn Hr. destruct (reachable_current df g Hnn Hr) as (Hwf & Hcur).
  pose proof (reachable_keys_differ df g Hnn Hr) as Hkeys.
  split.
  - split.
    + intros (g' & E). by destruct (move_ok_inv p d g g' E) as (vx & _ & _ & Hkey).
    + intros Hkey. destruct (vertices g !! p) as [vx|] eqn:Hp.
      * assert (d ≠ district_id vx) as Hd.
        { eapply Hkeys; [done|]. by apply elem_of_dom. }
        destruct (move_run g p d vx Hwf Hcur Hp Hd Hkey) as (h & E & _). by exists h.
      * destruct Hcur as (_ & Hnone). destruct (Hnone p Hp) as (Hb & _).
        apply elem_of_dom in Hkey. rewrite Hb in Hkey. by destruct Hkey.
  - intros vx Hp Hkey. apply elem_of_dom in Hkey. by eapply Hkeys.
Qed.

Lemma border_keys_are_the_moves_witness :
  ((∃ g', change_vertex_district 2 1 path_g1 = (g', Ok tt))
   ↔ (2, 1) ∈ dom (vertex_on_border path_g1)) ∧
  (∀ vx, vertices path_g1 !! 2 = Some vx →
     (2, district_id vx) ∉ dom (vertex_on_border path_g1)).
Proof.
  refine (border_keys_are_the_moves path_df path_g1 2 1 _ _).
  - vm_compute. reflexivity.
  - exact path_g1_reachable.
Defined.

(** X11. A vertex only moves next to its new district: when
    change_vertex_district(p, d) returns on a reachable graph (ids not
    negative, adjacency symmetric), p is in district d afterwards and so
    is a neighbour of p other than p itself, as it was before the call. *)
Theorem move_joins_adjacent_district df g p d g' :
  wf_df df = true → reachable df g →
  change_vertex_district p d g = (g', Ok tt) →
  ∃ vx n nx,
    vertices g' !! p = Some vx ∧ district_id vx = d ∧
    n ∈ adj_vertices vx ∧ n ≠ p ∧
    vertices g !! n = Some nx ∧ vertices g' !! n = Some nx ∧ district_id nx = d.
Proof.
  intros Hwf Hr E. destruct (reachable_inv df g Hwf Hr) as (Hwg & Hsym & Hinv).
  destruct (move_ok_inv p d g g' E) as (vx & Hp & Hd & Hkey).
  apply (border_inv_dom g p d Hwg Hinv) in Hkey as (vy & Hp' & Hin).
  assert (vy = vx) as -> by congruence.
  apply elem_of_border_districts in Hin as (_ & n & nx & Hn & Hnx & Hdn).
  assert ((p, d) ∈ dom (vertex_on_border g)) as Hkey.
  { apply (border_inv_dom g p d Hwg Hinv). exists vx. split; [done|].
    apply elem_of_border_districts. split; [done|]. by exists n, nx. }
  destruct (move_spec g p d vx Hwg Hsym Hinv Hp Hd Hkey) as (h & E' & _ & _ & _ & Hfr & _).
  assert (h = g') as -> by congruence.
  destruct Hfr as (HV & _). simpl in HV.
  assert (n ≠ p) as Hne by (intros ->; congruence).
  exists (set_district_id d vx), n, nx. rewrite HV.
  rewrite lookup_insert_eq, lookup_insert_ne by done.
  by destruct vx.
Qed.

Lemma move_joins_adjacent_district_witness :
  ∃ vx n nx,
    vertices path_g2 !! 1 = Some vx ∧ district_id vx = 2 ∧
    n ∈ adj_vertices vx ∧ n ≠ 1 ∧
    vertices path_g1 !! n = Some nx ∧ vertices path_g2 !! n = Some nx ∧
    district_id nx = 2.
Proof.
  refine (move_joins_adjacent_district path_df path_g1 1 2 path_g2 _ _ _).
  - vm_compute. reflexivity.
  - exact path_g1_reachable.
  - exact path_g2_moved.
Defined.

(** X12. Taking a move back. After change_vertex_district(p, d) has
    returned on a reachable graph (ids not negative, adjacency symmetric),
    the call that moves p to its former district returns iff p has a
    neighbour other than itself in that district; and when it returns,
    the vertices, vertex_on_border, the state tensor and the districts
    recorded for every id are as they were before the first move. *)
Theorem move_undone df g p d vx g' :
  wf_df df = true → reachable df g →
  vertices g !! p = Some vx →
  change_vertex_district p d g = (g', Ok tt) →
  ((∃ g'', change_vertex_district p (district_id vx) g' = (g'', Ok tt))
   ↔ ∃ n nx, n ∈ adj_vertices vx ∧ n ≠ p ∧ vertices g !! n = Some nx ∧
             district_id nx = district_id vx) ∧
  ∀ g'', change_vertex_district p (district_id vx) g' = (g'', Ok tt) →
    vertices g'' = vertices g ∧
    vertex_on_border g'' = vertex_on_border g ∧
    state g'' = state g ∧
    ∀ u, default ∅ (district_id_on_border_of_vertex g'' !! u)
         = default ∅ (district_id_on_border_of_vertex g !! u).
Proof.
  intros Hwf Hr Hp E.
  destruct (reachable_inv df g Hwf Hr) as (Hwg & Hsym & Hinv).
  destruct (move_ok_inv p d g g' E) as (vy & Hp' & Hd & Hkey).
  assert (vy = vx) as -> by congruence. clear Hp'.
  destruct (move_spec g p d vx Hwg Hsym Hinv Hp Hd Hkey) as (h & E' & _ & _ & _ & Hfr & _).
  assert (h = g') as -> by congruence. clear E'.
  destruct Hfr as (HV & _). simpl in HV.
  assert (reachable df g') as Hr' by (by eapply reachable_moved).
  destruct (reachable_inv df g' Hwf Hr') as (Hwg' & Hsym' & Hinv').
  assert (vertices g' !! p = Some (set_district_id d vx)) as Hp'.
  { by rewrite HV, lookup_insert_eq. }
  split.
  - split.
    + intros (g'' & E2).
      destruct (move_ok_inv p _ g' g'' E2) as (vy & Hpy & _ & Hkey2).
      apply (border_inv_dom g' p _ Hwg' Hinv') in Hkey2 as (vz & Hpz & Hin).
      assert (vz = set_district_id d vx) as -> by congruence.
      apply elem_of_border_districts in Hin as (_ & n & nx & Hn & Hnx & Hdn).
      destruct vx as [i c a]. simpl in *.
      assert (n ≠ p) as Hne.
      { intros ->. rewrite Hp' in Hnx. injection Hnx as <-. simpl in Hdn. done. }
      exists n, nx. rewrite HV, lookup_insert_ne in Hnx by done. done.
    + intros (n & nx & Hn & Hne & Hnx & Hdn).
      assert ((p, district_id vx) ∈ dom (vertex_on_border g')) as Hkey2.
      { apply (border_inv_dom g' p _ Hwg' Hinv'). exists (set_district_id d vx).
        split; [done|]. apply elem_of_border_districts.
        destruct vx as [i c a]. simpl in *. split; [done|].
        exists n, nx. rewrite HV, lookup_insert_ne by done. done. }
      destruct (move_spec g' p (district_id vx) (set_district_id d vx)
                  Hwg' Hsym' Hinv' Hp') as (h & E2 & _); [|done|by exists h].
      destruct vx. simpl in *. done.
  - intros g'' E2.
    assert (reachable df g'') as Hr'' by (by eapply reachable_moved).
    assert (vertices g'' = vertices g) as HVg.
    { destruct (move_ok_inv p _ g' g'' E2) as (vy & Hpy & Hd2 & Hkey2).
      assert (vy = set_district_id d vx) as -> by congruence.
      destruct (move_spec g' p (district_id vx) (set_district_id d vx)
                  Hwg' Hsym' Hinv' Hp' Hd2 Hkey2) as (h & E3 & _ & _ & _ & (HV2 & _) & _).
      assert (h = g'') as -> by congruence.
      apply map_eq. intros k. rewrite HV2. simpl. rewrite HV.
      destruct (decide (k = p)) as [->|Hne].
      + rewrite lookup_insert_eq, Hp. by destruct vx.
      + by rewrite !lookup_insert_ne. }
    split; [done|]. by apply (reachable_determined df).
Qed.

Lemma move_undone_witness :
  ((∃ g'', change_vertex_district 1 (district_id (mkVertex 1 1 {[0; 2]})) path_g2
           = (g'', Ok tt))
   ↔ ∃ n nx, n ∈ adj_vertices (mkVertex 1 1 {[0; 2]}) ∧ n ≠ 1 ∧
             vertices path_g1 !! n = Some nx ∧
             district_id nx = district_id (mkVertex 1 1 {[0; 2]})) ∧
  ∀ g'', change_vertex_district 1 (district_id (mkVertex 1 1 {[0; 2]})) path_g2
         = (g'', Ok tt) →
    vertices g'' = vertices path_g1 ∧
    vertex_on_border g'' = vertex_on_border path_g1 ∧
    state g'' = state path_g1 ∧
    ∀ u, default ∅ (district_id_on_border_of_vertex g'' !! u)
         = default ∅ (district_id_on_border_of_vertex path_g1 !! u).
Proof.
  refine (move_undone path_df path_g1 1 2 (mkVertex 1 1 {[0; 2]}) path_g2 _ _ _ _).
  - vm_compute. reflexivity.
  - exact path_g1_reachable.
  - vm_compute. reflexivity.
  - exact path_g2_moved.
Defined.

(** ** Loading into a graph that is already in use *)

(** X13. graph_from_json starts no new graph: whether it returns or
    raises, it leaves vertex_on_border and district_id_on_border_of_vertex
    as they were, and keeps every vertex whose id is not an index of the
    data frame. *)
Theorem reload_keeps_old_graph df g k :
  (∀ r, r ∈ df → r.1.1 ≠ k) →
  vertices (graph_from_json df g).1 !! k = vertices g !! k ∧
  vertex_on_border (graph_from_json df g).1 = vertex_on_border g ∧
  district_id_on_border_of_vertex (graph_from_json df g).1
  = district_id_on_border_of_vertex g.
Proof.
  intros Hk. split; [|split].
  - rewrite graph_from_json_vertices. by apply load_rows_other.
  - apply graph_from_json_border.
  - revert g. change (keeps district_id_on_border_of_vertex (graph_from_json df)).
    unfold graph_from_json.
    apply keeps_bind; [done|]. intros self.
    apply keeps_bind; [done|]. intros _.
    apply keeps_bind; [done|]. intros self'.
    apply keeps_bind; [done|]. intros _.
    apply keeps_bind; [done|]. intros self''.
    apply keeps_for_each. intros item. by apply keeps_fill_row.
Qed.

Lemma reload_keeps_old_graph_witness :
  vertices (graph_from_json [(0, 7, [])] path_g2).1 !! 3 = vertices path_g2 !! 3 ∧
  vertex_on_border (graph_from_json [(0, 7, [])] path_g2).1 = vertex_on_border path_g2 ∧
  district_id_on_border_of_vertex (graph_from_json [(0, 7, [])] path_g2).1
  = district_id_on_border_of_vertex path_g2.
Proof.
  refine (reload_keeps_old_graph [(0, 7, [])] path_g2 3 _).
  intros r Hr. apply list_elem_of_singleton in Hr as ->. simpl. lia.
Defined.

(** X14. No move is possible before get_border_vertices has run: on the
    graph that graph_from_json leaves from a new Graph, every call of
    change_vertex_district raises, KeyError for an id that is no vertex
    and ValueError otherwise, and changes nothing. *)
Theorem no_move_before_discovery dev df p d :
  ∃ e, change_vertex_district p d (graph_from_json df (Graph_init dev)).1
       = ((graph_from_json df (Graph_init dev)).1, Raise e) ∧
       if decide (is_Some (vertices_of df !! p))
       then ∃ msg, e = ValueError msg else e = KeyError.
Proof.
  set (g0 := (graph_from_json df (Graph_init dev)).1).
  assert (vertices g0 = vertices_of df) as HV by apply graph_from_json_vertices.
  assert (vertex_on_border g0 = ∅) as Hb by apply graph_from_json_border.
  unfold change_vertex_district. rewrite bind_eq. unfold vertices_getitem at 1.
  rewrite HV. destruct (vertices_of df !! p) as [vx|] eqn:Hp.
  - destruct (decide (d = district_id vx)) as [Hd|Hd].
    { eexists. split; [done|]. rewrite decide_True by done. by eexists. }
    rewrite bind_eq. unfold get_self at 1.
    destruct (decide ((p, d) ∉ dom (vertex_on_border g0))) as [Hk|Hk].
    { eexists. split; [done|]. rewrite decide_True by done. by eexists. }
    exfalso. apply Hk. rewrite Hb. set_solver.
  - exists KeyError. split; [done|]. rewrite decide_False; [done|]. by intros [? ?].
Qed.

(** X15. On every reachable graph (ids not negative) the two border
    dictionaries agree: (v, d) is a key of vertex_on_border iff d is in
    the set district_id_on_border_of_vertex[v], for every id v and every
    d; and only vertices are keys of either. *)
Theorem border_dictionaries_agree df g v d :
  nonneg_ids df = true → reachable df g →
  ((v, d) ∈ dom (vertex_on_border g)
   ↔ ∃ s, district_id_on_border_of_vertex g !! v = Some s ∧ d ∈ s) ∧
  ((v, d) ∈ dom (vertex_on_border g) → is_Some (vertices g !! v)) ∧
  (is_Some (district_id_on_border_of_vertex g !! v) → is_Some (vertices g !! v)).
Proof.
  intros Hnn Hr. destruct (reachable_current df g Hnn Hr) as (_ & Hcur & Hnone).
  rewrite elem_of_dom.
  destruct (vertices g !! v) as [vx|] eqn:Hv.
  - destruct (Hcur v vx Hv) as (Hlock & _). split; [|by eauto].
    rewrite (Hlock d).
    destruct (district_id_on_border_of_vertex g !! v) as [s|]; simpl.
    + split; [by eauto|]. by intros (s' & [= <-] & ?).
    + split; [set_solver|]. by intros (? & ? & _).
  - destruct (Hnone v Hv) as (Hb & Hs). rewrite Hb, Hs.
    split; [|split]; [|by intros [? ?]..].
    split; [by intros [? ?]|]. by intros (? & ? & _).
Qed.

Lemma border_dictionaries_agree_witness :
  ((0, 2) ∈ dom (vertex_on_border path_g2)
   ↔ ∃ s, district_id_on_border_of_vertex path_g2 !! 0 = Some s ∧ 2 ∈ s) ∧
  ((0, 2) ∈ dom (vertex_on_border path_g2) → is_Some (vertices path_g2 !! 0)) ∧
  (is_Some (district_id_on_border_of_vertex path_g2 !! 0) →
   is_Some (vertices path_g2 !! 0)).
Proof.
  refine (border_dictionaries_agree path_df path_g2 0 2 _ _).
  - vm_compute. reflexivity.
  - exact path_g2_reachable.
Defined.

(** ** Iteration order *)

Lemma exact_entry_frame P vx D g h :
  frame P g h → 0 ≤ prescinct_id vx → ¬ P (prescinct_id vx) →
  exact_entry vx D g → exact_entry vx D h.
Proof.
  intros Hf Hw HP (Hb & Hs & Hr).
  pose proof (row_col0_frame _ _ _ _ Hf Hw HP) as Hrow.
  destruct Hf as (_ & _ & _ & Hfb & Hfs & _).
  split; [|split].
  - intros d. by rewrite Hfb.
  - by rewrite Hfs.
  - by rewrite Hrow.
Qed.

(** The loop of get_border_vertices in any order, over vertices with
    distinct ids for which nothing is recorded yet. *)
Lemma discover_in_loop order : ∀ g st,
  state g = Some st → NoDup (prescinct_id <$> order.*1) →
  (∀ item, item ∈ order →
     0 ≤ prescinct_id item.1 < Z.of_nat (length st) ∧
     (∀ n, n ∈ item.2 → is_Some (vertices g !! n)) ∧
     exact_entry item.1 ∅ g) →
  ∃ h, get_border_vertices_in order g = (h, Ok tt) ∧
    frame (λ u, u ∈ prescinct_id <$> order.*1) g h ∧
    (∀ item, item ∈ order →
       exact_entry item.1 (border_districts_of (vertices g) item.1 item.2) h).
Proof.
  unfold get_border_vertices_in.
  induction order as [|[x ids] L IH]; intros g st Hst Hnd HL.
  - exists g. split; [done|]. split; [by eapply frame_refl|].
    intros it Hit; by apply elem_of_nil in Hit.
  - rewrite !fmap_cons in Hnd. simpl in Hnd. apply NoDup_cons in Hnd as [Hx Hnd].
    destruct (HL (x, ids)) as (Hw & Hadj & Hb0 & Hs0 & Hr0); [by left|].
    simpl in Hw, Hadj, Hb0, Hs0, Hr0.
    destruct (scan_loop x ids g st Hst Hw Hadj) as (g1 & E1 & Hf1 & Hb1 & Hs1 & Hr1).
    pose proof Hf1 as (HV1 & _ & _ & _ & _ & st0 & st1 & E0 & Est1 & Hlen & _).
    assert (st0 = st) as -> by congruence.
    destruct (IH g1 st1) as (h & E2 & Hf2 & Hex2); [done|done| |].
    { intros it Hit. destruct (HL it) as (Hw' & Hadj' & Hblank'); [by right|].
      rewrite HV1, Hlen. split; [done|]. split; [done|].
      eapply exact_entry_frame; [exact Hf1|lia| |done].
      simpl. intros Heq. apply Hx. rewrite <- Heq.
      apply list_elem_of_fmap_2. by apply list_elem_of_fmap_2. }
    exists h. rewrite for_each_cons, bind_eq.
    change (scan_adjacent_in (x, ids).2 (x, ids).1 g) with (scan_adjacent_in ids x g).
    unfold scan_adjacent_in at 1. rewrite E1, E2. split; [done|].
    split.
    + rewrite !fmap_cons. simpl.
      eapply frame_trans; (eapply frame_mono; [|done]); simpl.
      * intros u ->. by left.
      * intros u Hu. by right.
    + intros it Hit. rewrite <- HV1.
      apply elem_of_cons in Hit as [->|?]; [|by apply Hex2].
      simpl. eapply exact_entry_frame; [exact Hf2|lia|exact Hx|].
      rewrite HV1. split; [|split].
      * intros d. rewrite Hb1, Hb0.
        by rewrite (decide_False (P := d ∈ (∅ : gset Z))) by set_solver.
      * rewrite Hs1, Hs0. rewrite (decide_True (P := (∅ : gset Z) = ∅)) by done.
        case_decide; [done|]. simpl. f_equal. set_solver.
      * rewrite Hr1, Hr0. rewrite (decide_True (P := (∅ : gset Z) = ∅)) by done.
        by case_decide.
Qed.

Lemma border_districts_of_perm V vx l1 l2 :
  l1 ≡ₚ l2 → border_districts_of V vx l1 = border_districts_of V vx l2.
Proof.
  intros Hp. apply set_eq. intros d. rewrite !elem_of_border_districts_of.
  by setoid_rewrite Hp.
Qed.

(** discovery in any order, on a well-formed graph with nothing recorded *)
Lemma discover_in_spec g order :
  wf_graph g → unmarked g → iteration_order g order →
  ∃ h, get_border_vertices_in order g = (h, Ok tt) ∧ discovered_from g h.
Proof.
  intros (st & Hst & HV) (Hb0 & Hs0 & Hr0) (Hord & Hadj).
  assert (prescinct_id <$> order.*1 ≡ₚ (map_to_list (vertices g)).*1) as Hids.
  { rewrite Hord. by rewrite (wf_values_ids _ _ HV). }
  assert (∀ vx, vx ∈ order.*1 ↔ ∃ k, vertices g !! k = Some vx) as Hmem.
  { intros vx. rewrite Hord, list_elem_of_fmap. split.
    - intros ([k vy] & -> & Hk). apply elem_of_map_to_list in Hk. by exists k.
    - intros (k & Hk). exists (k, vx). split; [done|]. by apply elem_of_map_to_list. }
  destruct (discover_in_loop order g st) as (h & E & Hf & Hex).
  - done.
  - rewrite Hids. apply NoDup_fst_map_to_list.
  - intros it Hit.
    assert (it.1 ∈ order.*1) as Hin by (by apply list_elem_of_fmap_2).
    apply Hmem in Hin as (k & Hk).
    destruct (HV k _ Hk) as (Hid & Hrange & Hnb). rewrite Hid.
    split; [done|]. split.
    { intros n Hn. apply Hnb. rewrite (Hadj it Hit) in Hn. by apply elem_of_elements in Hn. }
    split; [|split].
    + intros d. rewrite Hb0, lookup_empty.
      by rewrite (decide_False (P := d ∈ (∅ : gset Z))) by set_solver.
    + rewrite Hs0, lookup_empty.
      by rewrite (decide_True (P := (∅ : gset Z) = ∅)) by done.
    + rewrite (decide_True (P := (∅ : gset Z) = ∅)) by done.
      rewrite Hid. by apply Hr0.
  - exists h. split; [done|]. split.
    + eapply frame_mono; [|done]. simpl. intros u Hu.
      rewrite Hids in Hu. apply list_elem_of_fmap in Hu as ([k vx] & -> & Hu).
      apply elem_of_map_to_list in Hu. simpl. eauto.
    + intros k vx Hk.
      assert (vx ∈ order.*1) as Hin by (apply Hmem; eauto).
      apply list_elem_of_fmap in Hin as (it & -> & Hit).
      unfold border_districts.
      rewrite <- (border_districts_of_perm _ _ _ _ (Hadj it Hit)). by apply Hex.
Qed.

(** what discovery makes of an unmarked graph is one graph *)
Lemma discovered_unique g h1 h2 :
  wf_graph g → unmarked g →
  discovered_from g h1 → discovered_from g h2 → h1 = h2.
Proof.
  intros (st & Hst & HV) (Hb0 & Hs0 & Hr0) (Hf1 & Hx1) (Hf2 & Hx2).
  destruct Hf1 as (HV1 & Hd1 & Hm1 & Hb1 & Hs1 & sa & s1 & Ea & E1 & Hl1 & Hc1 & Hk1).
  destruct Hf2 as (HV2 & Hd2 & Hm2 & Hb2 & Hs2 & sb & s2 & Eb & E2 & Hl2 & Hc2 & Hk2).
  assert (sa = st) as -> by congruence. assert (sb = st) as -> by congruence.
  assert (vertex_on_border h1 = vertex_on_border h2) as Hvob.
  { apply map_eq. intros [k d]. destruct (vertices g !! k) as [vx|] eqn:Hk.
    - destruct (HV k vx Hk) as (Hid & _).
      destruct (Hx1 k vx Hk) as (X1 & _). destruct (Hx2 k vx Hk) as (X2 & _).
      rewrite Hid in X1, X2. by rewrite X1, X2.
    - rewrite Hb1, Hb2; [done|..]; rewrite Hk; by intros [? ?]. }
  assert (district_id_on_border_of_vertex h1 = district_id_on_border_of_vertex h2) as Hdob.
  { apply map_eq. intros k. destruct (vertices g !! k) as [vx|] eqn:Hk.
    - destruct (HV k vx Hk) as (Hid & _).
      destruct (Hx1 k vx Hk) as (_ & X1 & _). destruct (Hx2 k vx Hk) as (_ & X2 & _).
      rewrite Hid in X1, X2. by rewrite X1, X2.
    - rewrite Hs1, Hs2; [done|..]; rewrite Hk; by intros [? ?]. }
  assert (s1 = s2) as Hstate.
  { apply list_eq. intros j.
    destruct (vertices g !! Z.of_nat j) as [vx|] eqn:Hk.
    - destruct (HV _ vx Hk) as (Hid & _).
      destruct (Hx1 _ vx Hk) as (_ & _ & X1). destruct (Hx2 _ vx Hk) as (_ & _ & X2).
      rewrite Hid, Nat2Z.id in X1, X2. unfold row_col0 in X1, X2.
      rewrite E1 in X1. rewrite E2 in X2. simpl in X1, X2.
      pose proof (Hc1 j) as C1. pose proof (Hc2 j) as C2.
      destruct (s1 !! j) as [[c1 a1]|], (s2 !! j) as [[c2 a2]|]; simpl in *; try done.
      destruct (st !! j) as [[c a]|]; simpl in *; [|done]. congruence.
    - rewrite <- (Nat2Z.id j), Hk1, Hk2; [done|lia| |lia|]; rewrite Hk; by intros [? ?]. }
  destruct h1, h2. simpl in *. congruence.
Qed.

Lemma for_each_fmap {A B} (f : A → B) (body : B → M unit) l g :
  for_each (f <$> l) body g = for_each l (λ x, body (f x)) g.
Proof.
  revert g. induction l as [|x l IH]; intros g; [done|].
  rewrite fmap_cons, !for_each_cons, !bind_eq.
  destruct (body (f x) g) as [h [[]|e]]; [apply IH|done].
Qed.

(** X16. The outcome of border discovery does not depend on the order in
    which Python iterates over self.vertices and over the sets of
    neighbours: on a graph built by graph_from_json (ids not negative) on
    which get_border_vertices returns, running the loops of lines 58-62 in
    any order of the vertices, each with any order of its neighbours,
    returns with the very same Graph. *)
Theorem discovery_order_irrelevant dev df g0 g1 order :
  nonneg_ids df = true →
  graph_from_json df (Graph_init dev) = (g0, Ok tt) →
  get_border_vertices g0 = (g1, Ok tt) →
  iteration_order g0 order →
  get_border_vertices_in order g0 = (g1, Ok tt).
Proof.
  intros Hnn E0 E1 Hord.
  destruct (nonneg_constructed_wf dev df g0 g1 Hnn E0 E1) as (_ & Hwf & Hum).
  destruct (discover_in_spec g0 order Hwf Hum Hord) as (h & E & Hh).
  set (std := (λ v, (v, elements (adj_vertices v))) <$> (map_to_list (vertices g0)).*2).
  assert (iteration_order g0 std) as Hstd.
  { split.
    - unfold std. rewrite <- list_fmap_compose. by rewrite list_fmap_id.
    - intros it Hit. apply list_elem_of_fmap in Hit as (v & -> & _). done. }
  destruct (discover_in_spec g0 std Hwf Hum Hstd) as (h' & E' & Hh').
  assert (get_border_vertices g0 = get_border_vertices_in std g0) as Hsame.
  { unfold get_border_vertices, get_border_vertices_in, std.
    rewrite bind_eq. unfold get_self at 1.
    rewrite (for_each_fmap (λ v : Vertex, (v, elements (adj_vertices v)))).
    reflexivity. }
  rewrite E. f_equal.
  rewrite (discovered_unique g0 h h' Hwf Hum Hh Hh'). congruence.
Qed.

Lemma path_order_rev_ok : iteration_order path_g0 path_order_rev.
Proof.
  unfold path_order_rev, iteration_order.
  generalize (map_to_list (vertices path_g0)).*2. intros L. split.
  - rewrite fmap_reverse, reverse_Permutation, <- list_fmap_compose.
    by rewrite list_fmap_id.
  - intros it Hit.
    apply elem_of_reverse, list_elem_of_fmap in Hit as (v & -> & _).
    simpl. apply reverse_Permutation.
Qed.

Lemma discovery_order_irrelevant_witness :
  get_border_vertices_in path_order_rev path_g0 = (path_g1, Ok tt).
Proof.
  refine (discovery_order_irrelevant "cpu" path_df path_g0 path_g1 path_order_rev _ _ _ _).
  - vm_compute. reflexivity.
  - exact path_g0_constructed.
  - vm_compute. reflexivity.
  - exact path_order_rev_ok.
Defined.

(** The loop that fills the state tensor writes the same rows in any
    order of the items, when every id has a row of its own. *)
Lemma fill_any_order mx (V : gmap Z Vertex) L g st :
  state g = Some st →
  (∀ j r, st !! j = Some r → length r.2 = mx) →
  L ≡ₚ map_to_list V →
  (∀ k vx, V !! k = Some vx →
     0 ≤ k < Z.of_nat (length st) ∧ (size (adj_vertices vx) ≤ mx)%nat) →
  for_each L (fill_row mx) g = for_each (map_to_list V) (fill_row mx) g.
Proof.
  intros Hst Hrows Hperm HV.
  assert (∀ L', L' ≡ₚ map_to_list V →
            ∃ st', for_each L' (fill_row mx) g = (with_state (Some st') g, Ok tt) ∧
              length st' = length st ∧
              (∀ k vx, V !! k = Some vx →
                 st' !! Z.to_nat k = Some (district_id vx, adj_row mx vx)) ∧
              (∀ j, V !! Z.of_nat j = None → st' !! j = st !! j)) as Hany.
  { intros L' HL'.
    destruct (fill_loop_exact mx L' g st Hst Hrows) as (st' & E & Hlen & Hrow & Hfr).
    - rewrite HL'. apply NoDup_fst_map_to_list.
    - intros k vx Hk. rewrite HL' in Hk. apply elem_of_map_to_list in Hk. by apply HV.
    - exists st'. split; [done|]. split; [done|]. split.
      + intros k vx Hk. apply Hrow. rewrite HL'. by apply elem_of_map_to_list.
      + intros j Hj. apply Hfr. intros k vx Hk Heq.
        rewrite HL' in Hk. apply elem_of_map_to_list in Hk.
        destruct (HV k vx Hk) as (Hr & _).
        assert (k = Z.of_nat j) as -> by lia. congruence. }
  destruct (Hany L Hperm) as (s1 & -> & Hl1 & Hr1 & Hz1).
  destruct (Hany (map_to_list V)) as (s2 & -> & Hl2 & Hr2 & Hz2); [done|].
  do 3 f_equal. apply list_eq. intros j.
  destruct (V !! Z.of_nat j) as [vx|] eqn:Hj.
  - pose proof (Hr1 _ vx Hj) as R1. pose proof (Hr2 _ vx Hj) as R2.
    rewrite Nat2Z.id in R1, R2. by rewrite R1, R2.
  - by rewrite (Hz1 j Hj), (Hz2 j Hj).
Qed.

(** X17. What graph_from_json builds does not depend on the order in
    which Python iterates over self.vertices.items() when it fills the
    state tensor: if the method returns on a new Graph (ids not negative),
    the loop of lines 43-50 run over the items in any order returns with
    the very same Graph. *)
Theorem construction_order_irrelevant dev df g items_order :
  nonneg_ids df = true →
  graph_from_json df (Graph_init dev) = (g, Ok tt) →
  items_order ≡ₚ map_to_list (vertices_of df) →
  graph_from_json_in items_order df (Graph_init dev) = (g, Ok tt).
Proof.
  intros Hnn E Hperm. rewrite <- E.
  destruct (constructed_facts dev df g Hnn E) as (_ & _ & st & _ & Hlen & Hids).
  set (mx := (load_rows df 0%nat ∅).1).
  set (g1 := with_state (Some (zeros (size (vertices_of df)) mx))
               (with_vertices (λ _, vertices_of df) (Graph_init dev))).
  change (for_each items_order (fill_row mx) g1
          = for_each (map_to_list (vertices_of df)) (fill_row mx) g1).
  apply (fill_any_order _ (vertices_of df) _ _ (zeros (size (vertices_of df)) mx)).
  - done.
  - intros j r Hj. unfold zeros in Hj. apply lookup_replicate in Hj as [-> _].
    simpl. by rewrite length_replicate.
  - done.
  - intros k vx Hk. unfold zeros. rewrite length_replicate.
    destruct (Hids k vx Hk) as (_ & Hr). rewrite Hlen in Hr. split; [done|].
    eapply (load_rows_bound df 0%nat ∅); [|exact Hk].
    intros k' vx' Hk'. by rewrite lookup_empty in Hk'.
Qed.

Lemma construction_order_irrelevant_witness :
  graph_from_json_in path_items_rev path_df (Graph_init "cpu") = (path_g0, Ok tt).
Proof.
  refine (construction_order_irrelevant "cpu" path_df path_g0 path_items_rev _ _ _).
  - vm_compute. reflexivity.
  - exact path_g0_constructed.
  - apply reverse_Permutation.
Defined.

(** clear_border in any order *)
Lemma clear_border_in_spec co vx g st :
  state g = Some st → 0 ≤ prescinct_id vx < Z.of_nat (length st) →
  lockstep g (prescinct_id vx) → row_plain g vx →
  (∀ s, co s ≡ₚ elements s) →
  ∃ h, clear_border_in co vx g = (h, Ok tt) ∧
    frame (λ u, u = prescinct_id vx) g h ∧ blank_entry h vx ∧
    district_id_on_border_of_vertex h !! prescinct_id vx
    = (λ _, ∅) <$> district_id_on_border_of_vertex g !! prescinct_id vx.
Proof.
  intros Hst Hw Hlock Hrow Hco. unfold clear_border_in.
  rewrite bind_eq. unfold get_self at 1.
  destruct (district_id_on_border_of_vertex g !! prescinct_id vx) as [s|] eqn:Hs.
  - destruct (clear_loop vx (co s) g st s) as (h & -> & Hf & Hb & Hs' & Hr);
      [done|done|done| | |].
    { rewrite (Hco s). apply NoDup_elements. }
    { intros d Hd. rewrite (Hco s) in Hd. apply elem_of_elements in Hd.
      split; [done|]. apply Hlock. by rewrite Hs. }
    exists h. split; [done|]. split; [done|].
    assert (s ∖ list_to_set (co s) = ∅) as HE.
    { apply set_eq. intros d. rewrite elem_of_difference, elem_of_list_to_set.
      rewrite (Hco s), elem_of_elements. set_solver. }
    rewrite HE in Hs'. split; [|done].
    split; [|split].
    + intros d. rewrite Hb. destruct (decide (d ∈ co s)) as [|Hd]; [done|].
      rewrite (Hco s), elem_of_elements in Hd.
      destruct (vertex_on_border g !! (prescinct_id vx, d)) eqn:E; [|done].
      exfalso. apply Hd. specialize (Hlock d). rewrite Hs, E in Hlock.
      apply Hlock. eauto.
    + by rewrite Hs'.
    + rewrite Hr. destruct (decide (co s = [])) as [Hel|]; [|done].
      apply Hrow. rewrite Hs. simpl.
      pose proof (Hco s) as Hp. rewrite Hel in Hp.
      apply Permutation_nil_l in Hp. symmetry in Hp.
      apply elements_empty_inv in Hp. by apply leibniz_equiv.
  - exists g. split; [done|]. split; [by eapply frame_refl|]. split; [|done].
    split; [|split].
    + intros d. destruct (vertex_on_border g !! (prescinct_id vx, d)) eqn:E; [|done].
      exfalso. specialize (Hlock d). rewrite Hs, E in Hlock.
      assert (d ∈ (∅ : gset Z)) by (apply Hlock; eauto). set_solver.
    + by rewrite Hs.
    + apply Hrow. by rewrite Hs.
Qed.

(** one turn of the loop of lines 86-100 in any order *)
Lemma refresh_in_spec co so vx g st :
  state g = Some st → 0 ≤ prescinct_id vx < Z.of_nat (length st) →
  (∀ n, n ∈ adj_vertices vx → is_Some (vertices g !! n)) →
  lockstep g (prescinct_id vx) → row_plain g vx →
  (∀ s, co s ≡ₚ elements s) → so ≡ₚ elements (adj_vertices vx) →
  ∃ h, (clear_border_in co vx;; scan_adjacent_in so vx) g = (h, Ok tt) ∧
    frame (λ u, u = prescinct_id vx) g h ∧ fresh_entry (vertices g) vx h ∧
    refreshed_set (vertices g) vx g h.
Proof.
  intros Hst Hw Hadj Hlock Hrow Hco Hso.
  destruct (clear_border_in_spec co vx g st) as (g1 & E1 & Hf1 & (Hb0 & Hs0 & Hr0) & Hk1);
    [done..|].
  pose proof Hf1 as (HV1 & _ & _ & _ & _ & st0 & st1 & E0 & Est1 & Hlen & _).
  assert (st0 = st) as -> by congruence.
  destruct (scan_loop vx so g1 st1) as (h & E2 & Hf2 & Hb & Hs & Hr); [done|lia| |].
  { intros n Hn. rewrite HV1. apply Hadj. rewrite Hso in Hn. by apply elem_of_elements in Hn. }
  rewrite HV1 in Hb, Hs, Hr.
  rewrite (border_districts_of_perm _ _ _ _ Hso) in Hb, Hs, Hr.
  fold (border_districts (vertices g) vx) in Hb, Hs, Hr.
  exists h. rewrite bind_eq, E1. unfold scan_adjacent_in. rewrite E2.
  split; [done|]. split; [by eapply frame_trans|]. split.
  - split; [|split].
    + intros d. rewrite Hb, Hb0. done.
    + rewrite Hs. case_decide as HD.
      * by rewrite HD.
      * simpl. rewrite Hs0. set_solver.
    + rewrite Hr, Hr0. by case_decide.
  - unfold refreshed_set. rewrite Hs. case_decide; [by rewrite Hk1|].
    f_equal. rewrite Hs0. set_solver.
Qed.

Lemma refreshed_set_frame P V vx g h h' :
  frame P h h' → ¬ P (prescinct_id vx) →
  refreshed_set V vx g h → refreshed_set V vx g h'.
Proof.
  intros (_ & _ & _ & _ & Hfs & _) HP Hr. unfold refreshed_set. by rewrite Hfs.
Qed.

Lemma refreshed_set_base P V vx g g1 h :
  frame P g g1 → ¬ P (prescinct_id vx) →
  refreshed_set V vx g1 h → refreshed_set V vx g h.
Proof.
  intros (_ & _ & _ & _ & Hfs & _) HP Hr. unfold refreshed_set in *.
  by rewrite <- (Hfs _ HP).
Qed.

Lemma refreshed_set_twice V vx g g1 h :
  refreshed_set V vx g g1 → refreshed_set V vx g1 h → refreshed_set V vx g h.
Proof.
  unfold refreshed_set. intros H1 H2. rewrite H2. case_decide; [|done].
  rewrite H1. by destruct (district_id_on_border_of_vertex g !! prescinct_id vx).
Qed.

(** the whole loop of lines 86-100 in any order, over vertices of the
    graph *)
Lemma refresh_in_loop co so L : ∀ g st,
  state g = Some st →
  (∀ v s, co v s ≡ₚ elements s) → (∀ v, so v ≡ₚ elements (adj_vertices v)) →
  (∀ vx, vx ∈ L →
     vertices g !! prescinct_id vx = Some vx ∧
     0 ≤ prescinct_id vx < Z.of_nat (length st) ∧
     (∀ n, n ∈ adj_vertices vx → is_Some (vertices g !! n)) ∧
     lockstep g (prescinct_id vx) ∧ row_plain g vx) →
  ∃ h, for_each L (λ vertex, clear_border_in (co vertex) vertex;;
                             scan_adjacent_in (so vertex) vertex) g
       = (h, Ok tt) ∧
    frame (λ u, ∃ vx, vx ∈ L ∧ prescinct_id vx = u) g h ∧
    (∀ vx, vx ∈ L →
       fresh_entry (vertices g) vx h ∧ refreshed_set (vertices g) vx g h).
Proof.
  induction L as [|x L IH]; intros g st Hst Hco Hso HL.
  - exists g. split; [done|]. split; [by eapply frame_refl|].
    intros vx Hvx; by apply elem_of_nil in Hvx.
  - destruct (HL x) as (Hx & Hw & Hadj & Hlock & Hrow); [by left|].
    destruct (refresh_in_spec (co x) (so x) x g st)
      as (g1 & E1 & Hf1 & Hfresh1 & Hset1); [done..|].
    pose proof Hf1 as (HV1 & _ & _ & _ & _ & st0 & st1 & E0 & Est1 & Hlen & _).
    assert (st0 = st) as -> by congruence.
    destruct (IH g1 st1) as (h & E2 & Hf2 & Hall2); [done|done|done| |].
    { intros vx Hvx. destruct (HL vx) as (Hvx' & Hw' & Hadj' & Hlock' & Hrow');
        [by right|].
      rewrite HV1, Hlen. split; [done|]. split; [done|]. split; [done|].
      destruct (decide (prescinct_id vx = prescinct_id x)) as [Heq|Hne].
      - assert (vx = x) as -> by congruence.
        split; [by eapply fresh_entry_lockstep|by eapply fresh_entry_row_plain].
      - split; [by eapply lockstep_frame|].
        eapply row_plain_frame; [done|lia|done|done]. }
    exists h. rewrite for_each_cons, bind_eq, E1, E2. split; [done|].
    split.
    + eapply frame_trans; (eapply frame_mono; [|done]); simpl.
      * intros u ->. exists x. split; [by left|done].
      * intros u (vx & Hvx & <-). exists vx. split; [by right|done].
    + intros vx Hvx. rewrite <- HV1.
      destruct (decide (vx ∈ L)) as [Hin|Hnin].
      * destruct (Hall2 vx Hin) as (Hfr & Hset). split; [done|].
        destruct (decide (prescinct_id vx = prescinct_id x)) as [Heq|Hne].
        -- destruct (HL vx) as (Hvx' & _); [by right|].
           assert (vx = x) as -> by congruence.
           eapply refreshed_set_twice; [|exact Hset]. by rewrite HV1.
        -- eapply refreshed_set_base; [exact Hf1|done|done].
      * apply elem_of_cons in Hvx as [->|?]; [|done].
        assert (¬ ∃ vy, vy ∈ L ∧ prescinct_id vy = prescinct_id x) as Hno.
        { intros (vy & Hvy & Hid). destruct (HL vy) as (Hvy' & _); [by right|].
          assert (vy = x) as -> by congruence. done. }
        split.
        -- eapply fresh_entry_frame; [exact Hf2|lia|exact Hno|by rewrite HV1].
        -- eapply refreshed_set_frame; [exact Hf2|exact Hno|by rewrite HV1].
Qed.

(** a frame and the refreshed entries of its vertices leave one graph *)
Lemma refreshed_unique (ids : list Z) g h1 h2 :
  frame (λ u, u ∈ ids) g h1 → frame (λ u, u ∈ ids) g h2 →
  (∀ u, u ∈ ids → 0 ≤ u ∧ ∃ vx, prescinct_id vx = u ∧
     fresh_entry (vertices g) vx h1 ∧ refreshed_set (vertices g) vx g h1 ∧
     fresh_entry (vertices g) vx h2 ∧ refreshed_set (vertices g) vx g h2) →
  h1 = h2.
Proof.
  intros Hf1 Hf2 Hids.
  destruct Hf1 as (HV1 & Hd1 & Hm1 & Hb1 & Hs1 & sa & s1 & Ea & E1 & Hl1 & Hc1 & Hk1).
  destruct Hf2 as (HV2 & Hd2 & Hm2 & Hb2 & Hs2 & sb & s2 & Eb & E2 & Hl2 & Hc2 & Hk2).
  assert (sb = sa) as -> by congruence.
  assert (vertex_on_border h1 = vertex_on_border h2) as Hvob.
  { apply map_eq. intros [k d]. destruct (decide (k ∈ ids)) as [Hk|Hk].
    - destruct (Hids k Hk) as (_ & vx & <- & (X1 & _) & _ & (X2 & _) & _).
      by rewrite X1, X2.
    - by rewrite Hb1, Hb2. }
  assert (district_id_on_border_of_vertex h1 = district_id_on_border_of_vertex h2) as Hdob.
  { apply map_eq. intros k. destruct (decide (k ∈ ids)) as [Hk|Hk].
    - destruct (Hids k Hk) as (_ & vx & <- & _ & X1 & _ & X2).
      unfold refreshed_set in X1, X2. by rewrite X1, X2.
    - by rewrite Hs1, Hs2. }
  assert (s1 = s2) as Hstate.
  { apply list_eq. intros j. destruct (decide (Z.of_nat j ∈ ids)) as [Hk|Hk].
    - destruct (Hids _ Hk) as (_ & vx & Hid & (_ & _ & X1) & _ & (_ & _ & X2) & _).
      rewrite Hid, Nat2Z.id in X1, X2. unfold row_col0 in X1, X2.
      rewrite E1 in X1. rewrite E2 in X2. simpl in X1, X2.
      pose proof (Hc1 j) as C1. pose proof (Hc2 j) as C2.
      destruct (s1 !! j) as [[c1 a1]|], (s2 !! j) as [[c2 a2]|]; simpl in *; try done.
      destruct (sa !! j) as [[c a]|]; simpl in *; [|done]. congruence.
    - rewrite <- (Nat2Z.id j), Hk1, Hk2; [done|lia|done|lia|done]. }
  destruct h1, h2. simpl in *. congruence.
Qed.

(** A move whose two checks pass, run with any iteration orders on a
    well-formed graph whose entries are current: it returns, and what it
    leaves for the moved vertex and its neighbours is rebuilt from the
    graph [g2] in which the vertex has its new district. *)
Lemma move_in_run no co so g p d vx :
  wf_graph g → entries_current g →
  vertices g !! p = Some vx → d ≠ district_id vx →
  (p, d) ∈ dom (vertex_on_border g) →
  set_orders no co so →
  ∃ g2 h,
    state_setitem_col0 p d (with_vertices <[p := set_district_id d vx]> g) = (g2, Ok tt) ∧
    change_vertex_district_in no co so p d g = (h, Ok tt) ∧
    frame (λ u, u ∈ p :: elements (adj_vertices vx)) g2 h ∧
    ∀ u, u ∈ p :: elements (adj_vertices vx) →
      0 ≤ u ∧ ∃ y, prescinct_id y = u ∧ vertices g2 !! u = Some y ∧
        fresh_entry (vertices g2) y h ∧ refreshed_set (vertices g2) y g2 h.
Proof.
  intros (st & Hst & Hwf) (Hcur & Hnone) Hp Hd Hdom (Hno & Hco & Hso).
  destruct (Hwf p vx Hp) as (Hid & Hrange & Hclosed).
  set (vx' := set_district_id d vx).
  set (g1 := with_vertices <[p := vx']> g).
  assert (∀ k y, vertices g1 !! k = Some y →
                 wf_vertex (vertices g1) (length st) k y) as Hwf1.
  { by apply wf_set_district. }
  destruct (state_setitem_col0_spec p d g1 st) as (g2 & E2 & Hf2 & Hb2 & Hs2 & Hr2);
    [done..|].
  exists g2.
  unfold change_vertex_district_in.
  rewrite bind_eq. unfold vertices_getitem at 1. rewrite Hp.
  rewrite decide_False by done.
  rewrite bind_eq. unfold get_self at 1.
  rewrite decide_False by (by intros H; apply H).
  rewrite bind_eq. unfold vertices_set_district at 1.
  rewrite bind_eq. unfold vertices_getitem at 1. rewrite Hp.
  unfold modify_self at 1. fold vx'. fold g1.
  rewrite bind_eq, E2.
  pose proof Hf2 as (HV2 & _ & _ & _ & _ & st1 & st2 & E1 & Est2 & Hlen & _).
  assert (st1 = st) as -> by (simpl in E1; congruence). clear E1.
  assert (vertices g2 !! p = Some vx') as Hp2.
  { rewrite HV2. simpl. by rewrite lookup_insert_eq. }
  rewrite bind_eq. unfold vertices_getitem at 1. rewrite Hp2.
  destruct (comprehension_getitem (no vx') g2) as (L & EL & HL).
  { intros n Hn. rewrite (Hno vx') in Hn. apply elem_of_elements in Hn. rewrite HV2.
    destruct (Hwf1 p vx') as (_ & _ & Hadj1); [by simpl; rewrite lookup_insert_eq|].
    by apply Hadj1. }
  rewrite bind_eq, EL.
  rewrite bind_eq. unfold vertices_getitem at 1. rewrite Hp2.
  assert (∀ y, y ∈ L ++ [vx'] →
            vertices g1 !! prescinct_id y = Some y ∧
            (prescinct_id y = p ∨ prescinct_id y ∈ adj_vertices vx)) as HLin.
  { intros y Hy. apply elem_of_app in Hy as [Hy|Hy].
    - apply list_elem_of_lookup in Hy as [i Hi].
      destruct (Forall2_lookup_r _ _ _ _ _ HL Hi) as (n & Hn & Hny).
      rewrite HV2 in Hny. destruct (Hwf1 n y Hny) as (-> & _).
      split; [done|]. right.
      apply list_elem_of_lookup_2 in Hn. rewrite (Hno vx') in Hn.
      by apply elem_of_elements in Hn.
    - apply list_elem_of_singleton in Hy as ->. simpl.
      rewrite Hid, lookup_insert_eq. eauto. }
  destruct (refresh_in_loop co so (L ++ [vx']) g2 st2) as (h & -> & Hf & Hall);
    [done|done|done| |].
  { intros y Hy. destruct (HLin y Hy) as (Hy1 & _).
    destruct (Hwf1 _ y Hy1) as (_ & Hry & Hady).
    rewrite HV2, Hlen. split; [done|]. split; [done|]. split; [done|].
    assert (∃ y0, vertices g !! prescinct_id y = Some y0 ∧
                  prescinct_id y0 = prescinct_id y ∧
                  (prescinct_id y ≠ p → y0 = y)) as (y0 & Hy0 & Hid0 & Hsame).
    { simpl in Hy1. destruct (decide (p = prescinct_id y)) as [Heq|Hne].
      - rewrite <- Heq. exists vx. split; [done|]. split; [congruence|done].
      - rewrite lookup_insert_ne in Hy1 by done. eauto. }
    destruct (Hcur _ _ Hy0) as (Hlock0 & Hrow0 & _).
    split.
    - intros e. rewrite Hb2, Hs2. simpl. apply Hlock0.
    - destruct (decide (prescinct_id y = p)) as [Heq|Hne].
      + assert (y = vx') as ->.
        { rewrite Heq in Hy1. simpl in Hy1. rewrite lookup_insert_eq in Hy1. congruence. }
        intros _. simpl. rewrite Hid. done.
      + rewrite (Hsame Hne) in Hrow0.
        eapply row_plain_frame; [exact Hf2|lia|done|done]. }
  exists h. split; [done|]. split; [done|]. split.
  - eapply frame_mono; [|exact Hf]. simpl. intros u (y & Hy & <-).
    destruct (HLin y Hy) as (_ & [->|Hin]); [by left|].
    right. by apply elem_of_elements.
  - intros u Hu.
    assert (∃ y, y ∈ L ++ [vx'] ∧ prescinct_id y = u ∧ vertices g2 !! u = Some y)
      as (y & Hy & Hyu & Hyv).
    { apply elem_of_cons in Hu as [->|Hu].
      - exists vx'. split; [|done].
        apply elem_of_app. right. by apply list_elem_of_singleton.
      - assert (u ∈ no vx') as Hu' by (by rewrite (Hno vx')).
        apply list_elem_of_lookup in Hu' as [i Hi].
        destruct (Forall2_lookup_l _ _ _ _ _ HL Hi) as (y' & Hy' & Hky').
        exists y'. split; [|split; [|done]].
        + apply elem_of_app. left. by eapply list_elem_of_lookup_2.
        + rewrite HV2 in Hky'. by destruct (Hwf1 u y' Hky'). }
    rewrite HV2 in Hyv. destruct (Hwf1 u y Hyv) as (_ & Hru & _).
    split; [lia|]. exists y. split; [done|]. split; [by rewrite HV2|].
    by apply Hall.
Qed.

(** X18. The outcome of a move does not depend on the order in which
    Python iterates over the sets: when change_vertex_district(p, d)
    returns on a reachable graph (ids not negative), the method run with
    any order of the neighbours in the comprehension of line 84, any order
    of the recorded districts in the loop of line 89 and any order of the
    neighbours in the loop of line 97 returns with the very same Graph. *)
Theorem move_order_irrelevant df g p d g' nbr_order clear_order scan_order :
  nonneg_ids df = true → reachable df g →
  change_vertex_district p d g = (g', Ok tt) →
  set_orders nbr_order clear_order scan_order →
  change_vertex_district_in nbr_order clear_order scan_order p d g = (g', Ok tt).
Proof.
  intros Hnn Hr E Hord.
  destruct (reachable_current df g Hnn Hr) as (Hwf & Hcur).
  destruct (move_ok_inv p d g g' E) as (vx & Hp & Hd & Hkey).
  destruct (move_in_run nbr_order clear_order scan_order g p d vx Hwf Hcur Hp Hd Hkey Hord)
    as (g2 & h & E2 & Eh & Hf & Hall).
  assert (set_orders (λ v, elements (adj_vertices v)) (λ _ s, elements s)
                     (λ v, elements (adj_vertices v))) as Hstd by done.
  destruct (move_in_run _ _ _ g p d vx Hwf Hcur Hp Hd Hkey Hstd)
    as (g2' & h' & E2' & Eh' & Hf' & Hall').
  assert (g2' = g2) as -> by congruence.
  change (change_vertex_district p d g = (h', Ok tt)) in Eh'.
  assert (h' = g') as -> by congruence.
  rewrite Eh. f_equal.
  apply (refreshed_unique (p :: elements (adj_vertices vx)) g2); [done|done|].
  intros u Hu. destruct (Hall u Hu) as (Hu0 & y & Hy & Hyv & Hfr & Hset).
  destruct (Hall' u Hu) as (_ & y' & _ & Hyv' & Hfr' & Hset').
  assert (y' = y) as -> by congruence.
  split; [done|]. by exists y.
Qed.

Lemma move_order_irrelevant_witness :
  change_vertex_district_in (λ v, reverse (elements (adj_vertices v)))
    (λ _ s, reverse (elements s)) (λ v, reverse (elements (adj_vertices v)))
    1 2 path_g1
  = (path_g2, Ok tt).
Proof.
  refine (move_order_irrelevant path_df path_g1 1 2 path_g2 _ _ _ _ _ _ _).
  - vm_compute. reflexivity.
  - exact path_g1_reachable.
  - exact path_g2_moved.
  - split; [|split]; intros; apply reverse_Permutation.
Defined.

(** X19. A move that returns on a reachable graph (ids not negative)
    keeps the shape of the state tensor and writes only the rows of the
    moved vertex and of its neighbours: the row of every other id is as
    before. *)
Theorem move_frame_tensor df g p d g' vx :
  nonneg_ids df = true → reachable df g →
  vertices g !! p = Some vx →
  change_vertex_district p d g = (g', Ok tt) →
  ∃ st st', state g = Some st ∧ state g' = Some st' ∧ length st' = length st ∧
    ∀ u, 0 ≤ u → u ≠ p → u ∉ adj_vertices vx →
         st' !! Z.to_nat u = st !! Z.to_nat u.
Proof.
  intros Hnn Hr Hp E.
  destruct (reachable_current df g Hnn Hr) as (Hwf & Hcur).
  destruct (move_ok_inv p d g g' E) as (vy & Hp' & Hd & Hkey).
  assert (vy = vx) as -> by congruence.
  destruct (move_run g p d vx Hwf Hcur Hp Hd Hkey) as (h & E' & _ & _ & Hfr & _).
  assert (h = g') as -> by congruence.
  destruct Hfr as (_ & _ & _ & _ & _ & st & st' & Hst & Hst' & Hlen & _ & Hrows).
  exists st, st'. split; [done|]. split; [done|]. split; [done|].
  intros u Hu Hup Hua. apply Hrows; [done|]. tauto.
Qed.

Lemma move_frame_tensor_witness :
  ∃ st st', state path_g1 = Some st ∧ state path_g2 = Some st' ∧
    length st' = length st ∧
    ∀ u, 0 ≤ u → u ≠ 1 → u ∉ adj_vertices (mkVertex 1 1 {[0; 2]}) →
         st' !! Z.to_nat u = st !! Z.to_nat u.
Proof.
  refine (move_frame_tensor path_df path_g1 1 2 path_g2 (mkVertex 1 1 {[0; 2]}) _ _ _ _).
  - vm_compute. reflexivity.
  - exact path_g1_reachable.
  - vm_compute. reflexivity.
  - exact path_g2_moved.
Defined.
